(** * Ternuino designer: the balanced-ternary simulation engine

    A shallow embedding of [ternuino_designer/core/logic.py] and of the
    scenario of [tests/smoke_test.py], followed by the persistence
    functions of [ternuino_designer/core/io.py] and by what the editor of
    [ternuino_designer/gui.py] does to its circuit.

    Python integers are [Z]; the [ports] dictionary of a component and the
    [components] dictionary of a circuit are finite maps ([gmap]) keyed by
    strings, and the insertion order of [components], which drives the
    evaluation loop of [Circuit.step], is kept next to the map.  Python
    objects are mutable and methods may raise after having mutated: a method
    is a function from the object's state to an [outcome] that carries the
    state left behind in both the normal and the exceptional case. *)

From stdpp Require Import gmap strings list fin_maps pretty.

Open Scope string_scope.
Open Scope list_scope.
Open Scope Z_scope.

(** ** Outcomes of a call: state passing with exceptions *)

(** The exceptions [logic.py] can raise: [KeyError] from a dictionary
    subscript, [ValueError] from the explicit [raise] statements and from
    [list.index], [AttributeError] from a method the object does not have. *)
Inductive exn :=
  | KeyError (key : string)
  | ValueError (msg : string)
  | AttributeError (name : string).

Inductive outcome (S A : Type) :=
  | Ok (a : A) (s : S)
  | Raise (e : exn) (s : S).
Arguments Ok {S A} a s.
Arguments Raise {S A} e s.

Definition M (S A : Type) : Type := S → outcome S A.

#[global] Instance M_ret S : MRet (M S) := λ A a s, Ok a s.
#[global] Instance M_bind S : MBind (M S) := λ A B f m s,
  match m s with
  | Ok a s' => f a s'
  | Raise e s' => Raise e s'
  end.

Definition raise {S A} (e : exn) : M S A := λ s, Raise e s.
Definition get {S} : M S S := λ s, Ok s s.
Definition modify {S} (f : S → S) : M S () := λ s, Ok () (f s).

(** The state a call leaves behind, whether it returned or raised. *)
Definition state_of {S A} (o : outcome S A) : S :=
  match o with Ok _ s => s | Raise _ s => s end.

Definition raised {S A} (o : outcome S A) : option exn :=
  match o with Ok _ _ => None | Raise e _ => Some e end.

Definition returned {S A} (o : outcome S A) : option A :=
  match o with Ok a _ => Some a | Raise _ _ => None end.

(** [for x in l: body(x)] *)
Fixpoint for_each {S X} (l : list X) (body : X → M S ()) : M S () :=
  match l with
  | [] => mret ()
  | x :: l' => body x;; for_each l' body
  end.

(** [for x in l: acc = body(acc, x)], for a loop that updates a local. *)
Fixpoint for_fold {S X A} (l : list X) (body : A → X → M S A) (acc : A)
  : M S A :=
  match l with
  | [] => mret acc
  | x :: l' => acc' ← body acc x; for_fold l' body acc'
  end.

(** A property of the state that a call keeps, whether it returns or
    raises. *)
Definition preserves {S A} (P : S → Prop) (m : M S A) : Prop :=
  ∀ s, P s → P (state_of (m s)).

(** The values a call may return from a state with the property [P]. *)
Definition returns {S A} (P : S → Prop) (m : M S A) (Q : A → Prop) : Prop :=
  ∀ s a s', P s → m s = Ok a s' → Q a.

(** ** Ternary values *)

Abbreviation TValue := Z.

Definition clamp_t (v : Z) : TValue :=
  if decide (v > 1) then 1
  else if decide (v < -1) then -1
  else v.

Definition resolve_wire (drivers : list TValue) : TValue :=
  let s : gset Z := list_to_set drivers in
  if decide (-1 ∈ s ∧ 1 ∈ s) then 0
  else if decide (1 ∈ s) then 1
  else if decide (-1 ∈ s) then -1
  else 0.

(** The predicate "is a trit". *)
Definition is_trit (v : Z) : Prop := v = -1 ∨ v = 0 ∨ v = 1.

#[global] Instance is_trit_dec v : Decision (is_trit v).
Proof. unfold is_trit. apply _. Defined.

(** ** Ports and components *)

Module Port.
Record t := mk { id : string; direction : string; value : TValue }.
Definition set_value (v : TValue) (p : t) : t := mk (id p) (direction p) v.
End Port.
Abbreviation Port := Port.t.

(** The Python class of a component object, with the instance attributes
    the class adds to those of [Component]: [value] for the two switches,
    [_state] for the latch, [last] for the probe. *)
Module Cls.
Inductive t :=
  | SwitchBinary (value : Z)
  | SwitchTernary (value : Z)
  | TNOT
  | TAND
  | TNOR
  | Transistor
  | TLatch (_state : TValue)
  | Probe (last : TValue)
  | TFullAdder.
End Cls.

Module Component.
Record t := mk {
  id : string;
  type : string;
  ports : gmap string Port;
  cls : Cls.t
}.
Definition set_ports (ps : gmap string Port) (c : t) : t :=
  mk (id c) (type c) ps (cls c).
Definition set_cls (k : Cls.t) (c : t) : t :=
  mk (id c) (type c) (ports c) k.
End Component.
Abbreviation Component := Component.t.

(** [self.ports[name].value] *)
Definition get_in (name : string) : M Component TValue := λ self,
  match Component.ports self !! name with
  | Some p => Ok (Port.value p) self
  | None => Raise (KeyError name) self
  end.

(** [self.ports[name].value = v], the raw attribute store. *)
Definition store_port (name : string) (v : TValue) : M Component () := λ self,
  match Component.ports self !! name with
  | Some p =>
      Ok () (Component.set_ports
               (<[name := Port.set_value v p]> (Component.ports self)) self)
  | None => Raise (KeyError name) self
  end.

Definition set_out (name : string) (val : Z) : M Component () :=
  store_port name (clamp_t val).

(** *** Constructors *)

Definition SwitchBinary (id : string) (value : Z) : Component :=
  let value' := if decide (value ≠ 0) then 1 else 0 in
  state_of (set_out "out" value'
    (Component.mk id "SwitchBinary"
       {[ "out" := Port.mk "out" "out" 0 ]} (Cls.SwitchBinary value'))).

Definition SwitchTernary (id : string) (value : Z) : Component :=
  let value' := clamp_t value in
  state_of (set_out "out" value'
    (Component.mk id "SwitchTernary"
       {[ "out" := Port.mk "out" "out" 0 ]} (Cls.SwitchTernary value'))).

Definition TNOT (id : string) : Component :=
  Component.mk id "TNOT"
    (<[ "in" := Port.mk "in" "in" 0 ]>
       {[ "out" := Port.mk "out" "out" 0 ]}) Cls.TNOT.

Definition TAND (id : string) : Component :=
  Component.mk id "TAND"
    (<[ "in1" := Port.mk "in1" "in" 0 ]>
     (<[ "in2" := Port.mk "in2" "in" 0 ]>
       {[ "out" := Port.mk "out" "out" 0 ]})) Cls.TAND.

Definition TNOR (id : string) : Component :=
  Component.mk id "TNOR"
    (<[ "in1" := Port.mk "in1" "in" 0 ]>
     (<[ "in2" := Port.mk "in2" "in" 0 ]>
       {[ "out" := Port.mk "out" "out" 0 ]})) Cls.TNOR.

Definition Transistor (id : string) : Component :=
  Component.mk id "Transistor"
    (<[ "presence" := Port.mk "presence" "in" 0 ]>
     (<[ "sign" := Port.mk "sign" "in" 0 ]>
       {[ "out" := Port.mk "out" "out" 0 ]})) Cls.Transistor.

Definition TLatch (id : string) : Component :=
  Component.mk id "TLatch"
    (<[ "in" := Port.mk "in" "in" 0 ]>
     (<[ "enable" := Port.mk "enable" "in" 0 ]>
       {[ "out" := Port.mk "out" "out" 0 ]})) (Cls.TLatch 0).

Definition Probe (id : string) : Component :=
  Component.mk id "Probe" {[ "in" := Port.mk "in" "in" 0 ]} (Cls.Probe 0).

Definition TFullAdder (id : string) : Component :=
  Component.mk id "TFullAdder"
    (<[ "ai" := Port.mk "ai" "in" 0 ]>
     (<[ "bi" := Port.mk "bi" "in" 0 ]>
     (<[ "ci" := Port.mk "ci" "in" 0 ]>
     (<[ "so" := Port.mk "so" "out" 0 ]>
       {[ "co" := Port.mk "co" "out" 0 ]})))) Cls.TFullAdder.

(** *** Switch methods *)

(** [list.index]: position of the first element equal to [v]. *)
Definition index (l : list Z) (v : Z) : option nat :=
  fst <$> list_find (λ x, x = v) l.

Definition toggle : M Component () := λ self,
  match Component.cls self with
  | Cls.SwitchBinary value =>
      let value' := if decide (value = 1) then 0 else 1 in
      set_out "out" value' (Component.set_cls (Cls.SwitchBinary value') self)
  | Cls.SwitchTernary value =>
      let order := [-1; 0; 1] in
      match index order value with
      | None => Raise (ValueError "is not in list") self
      | Some i =>
          let idx := ((Z.of_nat i + 1) `mod` 3) in
          let value' := order !!! Z.to_nat idx in
          set_out "out" value'
            (Component.set_cls (Cls.SwitchTernary value') self)
      end
  | _ => Raise (AttributeError "toggle") self
  end.

(** *** Transfer functions: the [step] method of each class *)

(** [int(round(total / 3.0))].  The quotient of an integer by three is
    never half-way between two integers, and is far from it in floating
    point; Python's [round] (ties to even) is modelled on the exact
    quotient: the remainder decides, and the tie branch keeps Python's
    rule. *)
Definition round_div3 (total : Z) : Z :=
  let q := total `div` 3 in
  let r := total `mod` 3 in
  if decide (2 * r < 3) then q
  else if decide (2 * r > 3) then q + 1
  else if Z.even q then q else q + 1.

Definition TNOT_step : M Component () :=
  x ← get_in "in";
  set_out "out" (- x).

Definition TAND_step : M Component () :=
  a ← get_in "in1";
  b ← get_in "in2";
  set_out "out" (Z.min a b).

Definition TNOR_step : M Component () :=
  a ← get_in "in1";
  b ← get_in "in2";
  set_out "out" (- Z.max a b).

Definition Transistor_step : M Component () :=
  p ← get_in "presence";
  s ← get_in "sign";
  if decide (p ≠ 0 ∧ s ≠ 0) then set_out "out" s else set_out "out" 0.

Definition TLatch_step (_state : TValue) : M Component () :=
  en ← get_in "enable";
  _state' ← (if decide (en = 1)
             then v ← get_in "in";
                  modify (Component.set_cls (Cls.TLatch v));;
                  mret v
             else mret _state);
  set_out "out" _state'.

Definition Probe_step : M Component () :=
  v ← get_in "in";
  modify (Component.set_cls (Cls.Probe v)).

Definition TFullAdder_step : M Component () :=
  a ← get_in "ai";
  b ← get_in "bi";
  c ← get_in "ci";
  let total := a + b + c in
  let co := round_div3 total in
  let co := if decide (co > 1) then 1
            else if decide (co < -1) then -1 else co in
  let so := total - 3 * co in
  set_out "co" (clamp_t co);;
  set_out "so" (clamp_t so).

(** Method dispatch: the switches inherit [Component.step], which does
    nothing. *)
Definition Component_step : M Component () := λ self,
  match Component.cls self with
  | Cls.SwitchBinary _ | Cls.SwitchTernary _ => Ok () self
  | Cls.TNOT => TNOT_step self
  | Cls.TAND => TAND_step self
  | Cls.TNOR => TNOR_step self
  | Cls.Transistor => Transistor_step self
  | Cls.TLatch st => TLatch_step st self
  | Cls.Probe _ => Probe_step self
  | Cls.TFullAdder => TFullAdder_step self
  end.

(** ** Wires and circuits *)

Record Wire := mkWire {
  src_comp : string;
  src_port : string;
  dst_comp : string;
  dst_port : string
}.

(** [components] is a Python dictionary: the map, and the keys in insertion
    order ([order]), which is the order [components.values()] iterates in. *)
Record Circuit := mkCircuit {
  components : gmap string Component;
  order : list string;
  wires : list Wire
}.

Definition set_components (m : gmap string Component) (c : Circuit) : Circuit :=
  mkCircuit m (order c) (wires c).

(** [Circuit()] *)
Definition Circuit_init : Circuit := mkCircuit ∅ [] [].

(** A method call on the object [self.components[k]]: the subscript raises
    [KeyError] when [k] is absent; what the method does to the object is
    seen through the dictionary, also when the method raises. *)
Definition at_component {A} (k : string) (m : M Component A) : M Circuit A :=
  λ self,
  match components self !! k with
  | None => Raise (KeyError k) self
  | Some comp =>
      match m comp with
      | Ok a comp' => Ok a (set_components (<[k := comp']> (components self)) self)
      | Raise e comp' =>
          Raise e (set_components (<[k := comp']> (components self)) self)
      end
  end.

Definition add (comp : Component) : M Circuit () := λ self,
  if decide (is_Some (components self !! Component.id comp)) then
    Raise (ValueError ("Duplicate component id " +:+ Component.id comp)) self
  else
    Ok () (mkCircuit (<[Component.id comp := comp]> (components self))
                     (order self ++ [Component.id comp])
                     (wires self)).

Definition connect (src_comp src_port dst_comp dst_port : string)
  : M Circuit () := λ self,
  Ok () (mkCircuit (components self) (order self)
                   (wires self ++ [mkWire src_comp src_port dst_comp dst_port])).

(** The local dictionary [inputs] of [step]: keys in order of first
    insertion, each with the list of its drivers. *)
Definition inputs_t := list ((string * string) * list TValue).

(** [inputs.setdefault(key, []).append(val)] *)
Fixpoint setdefault_append (key : string * string) (val : TValue)
    (inputs : inputs_t) : inputs_t :=
  match inputs with
  | [] => [(key, [val])]
  | (k, drivers) :: rest =>
      if decide (k = key) then (k, drivers ++ [val]) :: rest
      else (k, drivers) :: setdefault_append key val rest
  end.

(** First loop of [step]: collect the drivers of each destination. *)
Definition collect_drivers : M Circuit inputs_t :=
  self ← get;
  for_fold (wires self) (λ inputs w,
    val ← at_component (src_comp w) (get_in (src_port w));
    mret (setdefault_append (dst_comp w, dst_port w) val inputs)) [].

(** Second loop: resolve and write into the destination ports. *)
Definition write_inputs (inputs : inputs_t) : M Circuit () :=
  for_each inputs (λ '((comp_id, port_name), drivers),
    at_component comp_id (store_port port_name (resolve_wire drivers))).

(** Third loop, over the keys [ks]: [comp.step()] for each. *)
Definition step_components (ks : list string) : M Circuit () :=
  for_each ks (λ k, at_component k Component_step).

(** [step] with the third loop run in the order [ks]. *)
Definition step_in_order (ks : list string) : M Circuit () :=
  inputs ← collect_drivers;
  write_inputs inputs;;
  step_components ks.

Definition step : M Circuit () := λ self, step_in_order (order self) self.

Definition set_switch (comp_id : string) (value : Z) : M Circuit () := λ self,
  match components self !! comp_id with
  | None => Raise (KeyError comp_id) self
  | Some c =>
      match Component.cls c with
      | Cls.SwitchBinary _ =>
          let value' := if decide (value ≠ 0) then 1 else 0 in
          at_component comp_id
            (modify (Component.set_cls (Cls.SwitchBinary value'));;
             set_out "out" value') self
      | Cls.SwitchTernary _ =>
          let value' := clamp_t value in
          at_component comp_id
            (modify (Component.set_cls (Cls.SwitchTernary value'));;
             set_out "out" value') self
      | _ => Raise (ValueError "Component is not a switch") self
      end
  end.

Definition get_probe (comp_id : string) : M Circuit TValue := λ self,
  match components self !! comp_id with
  | None => Raise (KeyError comp_id) self
  | Some c =>
      match Component.cls c with
      | Cls.Probe last => Ok last self
      | _ => Raise (ValueError "Component is not a probe") self
      end
  end.

(** [self.components[comp_id].toggle()], as the callers of the engine do
    it on the switch objects they hold. *)
Definition toggle_switch (comp_id : string) : M Circuit () :=
  at_component comp_id toggle.

(** The value of a port, for statements. *)
Definition port_value (c : Circuit) (comp_id port_name : string)
  : option TValue :=
  comp ← components c !! comp_id;
  p ← Component.ports comp !! port_name;
  Some (Port.value p).

(** ** The smoke test *)

Definition smoke_build : M Circuit () :=
  add (SwitchTernary "sw1" 1);;
  add (SwitchTernary "sw2" (-1));;
  add (TAND "and1");;
  add (TNOR "nor1");;
  add (Transistor "t1");;
  add (TLatch "l1");;
  add (Probe "p1");;
  connect "sw1" "out" "and1" "in1";;
  connect "sw2" "out" "and1" "in2";;
  connect "and1" "out" "t1" "presence";;
  connect "sw1" "out" "t1" "sign";;
  connect "t1" "out" "nor1" "in1";;
  connect "sw2" "out" "nor1" "in2";;
  connect "nor1" "out" "l1" "in";;
  connect "sw1" "out" "l1" "enable";;
  connect "l1" "out" "p1" "in".

(** [run]: the two printed probe readings. *)
Definition smoke_run : M Circuit (TValue * TValue) :=
  smoke_build;;
  step;;
  r1 ← get_probe "p1";
  toggle_switch "sw1";;
  toggle_switch "sw2";;
  step;;
  r2 ← get_probe "p1";
  mret (r1, r2).

(** ** Observations used in the statements *)

(** The value of the port [name] of a component. *)
Definition comp_port (comp : Component) (name : string) : option TValue :=
  Port.value <$> Component.ports comp !! name.

(** The component after [self.ports[name].value = v]. *)
Definition write_port (name : string) (v : TValue) (comp : Component)
  : Component :=
  Component.set_ports
    (alter (Port.set_value v) name (Component.ports comp)) comp.

(** The direction of a port of the circuit. *)
Definition port_direction (c : Circuit) (comp_id port_name : string)
  : option string :=
  comp ← components c !! comp_id;
  p ← Component.ports comp !! port_name;
  Some (Port.direction p).

(** The wires that drive the port [port_name] of [comp_id], in wire order,
    and the values their sources carry in [c]. *)
Definition driving (c : Circuit) (comp_id port_name : string) : list Wire :=
  filter (λ w, dst_comp w = comp_id ∧ dst_port w = port_name) (wires c).

Definition src_value (c : Circuit) (w : Wire) : option TValue :=
  port_value c (src_comp w) (src_port w).

Definition drivers (c : Circuit) (comp_id port_name : string) : list TValue :=
  omap (src_value c) (driving c comp_id port_name).

(** Both endpoints of a wire name an existing port of an existing
    component. *)
Definition wire_valid (c : Circuit) (w : Wire) : Prop :=
  is_Some (port_value c (src_comp w) (src_port w)) ∧
  is_Some (port_value c (dst_comp w) (dst_port w)).

(** A key that the subscripts [components[comp_id].ports[port_name]] miss:
    a component id absent from [components], or a port name absent from the
    ports of the component found. *)
Definition missing (c : Circuit) (comp_id port_name k : string) : Prop :=
  (k = comp_id ∧ components c !! comp_id = None) ∨
  (k = port_name ∧ ∃ comp, components c !! comp_id = Some comp ∧
                           Component.ports comp !! port_name = None).

Definition missing_key (c : Circuit) (w : Wire) (k : string) : Prop :=
  missing c (src_comp w) (src_port w) k ∨
  missing c (dst_comp w) (dst_port w) k.

(** *** The loops of [step] as folds *)

(** [inputs.get(key)] *)
Fixpoint lookup_inputs (key : string * string) (inputs : inputs_t)
  : option (list TValue) :=
  match inputs with
  | [] => None
  | (k, drivers) :: rest =>
      if decide (k = key) then Some drivers else lookup_inputs key rest
  end.

(** The dictionary the first loop builds from the wires [ws] whose source
    exists. *)
Definition gather (c : Circuit) (ws : list Wire) (acc : inputs_t) : inputs_t :=
  foldl (λ inputs w,
           match src_value c w with
           | Some v => setdefault_append (dst_comp w, dst_port w) v inputs
           | None => inputs
           end) acc ws.

(** *** Driving one component by hand *)

(** Write the given values into input ports, as the second loop of [step]
    does, then run the transfer function once. *)
Definition drive_and_step (ins : list (string * TValue)) : M Component () :=
  for_each ins (λ '(name, v), store_port name v);;
  Component_step.

(** The outputs [so] and [co] of a fresh full adder after one such step. *)
Definition adder_outputs (a b c : TValue) : option TValue * option TValue :=
  let comp :=
    state_of (drive_and_step [("ai", a); ("bi", b); ("ci", c)]
                (TFullAdder "fa")) in
  (comp_port comp "so", comp_port comp "co").

(** The memory of a latch and its output port. *)
Definition latch_observe (comp : Component) : option TValue * option TValue :=
  (match Component.cls comp with Cls.TLatch st => Some st | _ => None end,
   comp_port comp "out").

Definition latch_after (enable inp : TValue) (comp : Component) : Component :=
  state_of (drive_and_step [("enable", enable); ("in", inp)] comp).

(** The component after its transfer function has run. *)
Definition stepped (comp : Component) : Component :=
  state_of (Component_step comp).

(** *** What the constructors declare *)

(** The instance attributes reset: what is left identifies the class. *)
Definition class_of (k : Cls.t) : Cls.t :=
  match k with
  | Cls.SwitchBinary _ => Cls.SwitchBinary 0
  | Cls.SwitchTernary _ => Cls.SwitchTernary 0
  | Cls.TLatch _ => Cls.TLatch 0
  | Cls.Probe _ => Cls.Probe 0
  | k => k
  end.

(** Names, identities and directions of the ports of a component. *)
Definition port_set (comp : Component) : gmap string (string * string) :=
  (λ p, (Port.id p, Port.direction p)) <$> Component.ports comp.

(** The port set the constructor of each class creates. *)
Definition declared_ports (k : Cls.t) : gmap string (string * string) :=
  match k with
  | Cls.SwitchBinary _ => port_set (SwitchBinary "" 0)
  | Cls.SwitchTernary _ => port_set (SwitchTernary "" 0)
  | Cls.TNOT => port_set (TNOT "")
  | Cls.TAND => port_set (TAND "")
  | Cls.TNOR => port_set (TNOR "")
  | Cls.Transistor => port_set (Transistor "")
  | Cls.TLatch _ => port_set (TLatch "")
  | Cls.Probe _ => port_set (Probe "")
  | Cls.TFullAdder => port_set (TFullAdder "")
  end.

(** A component has the ports of its class. *)
Definition comp_ok (comp : Component) : Prop :=
  port_set comp = declared_ports (Component.cls comp).

(** Every component has the ports of its class. *)
Definition all_ok (c : Circuit) : Prop :=
  map_Forall (λ _ comp, comp_ok comp) (components c).

(** The structure of a circuit: keys and their order, wires, and for each
    component its id, type, class and port set; everything but the values
    of the ports and the instance attributes of the classes. *)
Definition comp_structure (comp : Component)
  : string * string * Cls.t * gmap string (string * string) :=
  (Component.id comp, Component.type comp, class_of (Component.cls comp),
   port_set comp).

Definition structure (c : Circuit) :=
  (comp_structure <$> components c, order c, wires c).

(** The circuit after a write into one port, and after the transfer
    function of one component. *)
Definition poke (comp_id port_name : string) (v : TValue) (c : Circuit)
  : Circuit :=
  set_components (alter (write_port port_name v) comp_id (components c)) c.

Definition step_at (comp_id : string) (c : Circuit) : Circuit :=
  set_components (alter stepped comp_id (components c)) c.

(** The circuit after the writes of the second loop, and after the
    transfer functions of the components [ks]. *)
Definition write_all (inputs : inputs_t) (c : Circuit) : Circuit :=
  foldl (λ c '((comp_id, port_name), ds),
           poke comp_id port_name (resolve_wire ds) c) c inputs.

Definition step_all (ks : list string) (c : Circuit) : Circuit :=
  foldl (λ c k, step_at k c) c ks.

(** The circuit after the first two loops of [step]. *)
Definition resolved (c : Circuit) : Circuit :=
  write_all (gather c (wires c) []) c.

(** *** Trits *)

Definition cls_trits (k : Cls.t) : Prop :=
  match k with
  | Cls.SwitchBinary value => value = 0 ∨ value = 1
  | Cls.SwitchTernary value => is_trit value
  | Cls.TLatch _state => is_trit _state
  | Cls.Probe last => is_trit last
  | _ => True
  end.

(** Every port value and every instance attribute of a component is a
    trit. *)
Definition comp_trits (comp : Component) : Prop :=
  map_Forall (λ _ p, is_trit (Port.value p)) (Component.ports comp) ∧
  cls_trits (Component.cls comp).

Definition circuit_trits (c : Circuit) : Prop :=
  map_Forall (λ _ comp, comp_trits comp) (components c).

(** *** Circuits built through the engine *)

(** The nine constructor calls. *)
Inductive New :=
  | NewSwitchBinary (id : string) (value : Z)
  | NewSwitchTernary (id : string) (value : Z)
  | NewTNOT (id : string)
  | NewTAND (id : string)
  | NewTNOR (id : string)
  | NewTransistor (id : string)
  | NewTLatch (id : string)
  | NewProbe (id : string)
  | NewTFullAdder (id : string).

Definition construct (n : New) : Component :=
  match n with
  | NewSwitchBinary id value => SwitchBinary id value
  | NewSwitchTernary id value => SwitchTernary id value
  | NewTNOT id => TNOT id
  | NewTAND id => TAND id
  | NewTNOR id => TNOR id
  | NewTransistor id => Transistor id
  | NewTLatch id => TLatch id
  | NewProbe id => Probe id
  | NewTFullAdder id => TFullAdder id
  end.

(** The calls a client of the engine makes. *)
Inductive Call :=
  | CallAdd (n : New)
  | CallConnect (src_comp src_port dst_comp dst_port : string)
  | CallStep
  | CallSetSwitch (comp_id : string) (value : Z)
  | CallToggle (comp_id : string)
  | CallGetProbe (comp_id : string).

Definition call (op : Call) : M Circuit () :=
  match op with
  | CallAdd n => add (construct n)
  | CallConnect a b d e => connect a b d e
  | CallStep => step
  | CallSetSwitch k v => set_switch k v
  | CallToggle k => toggle_switch k
  | CallGetProbe k => get_probe k;; mret ()
  end.

(** A sequence of calls; a call that raises leaves its state behind and the
    client goes on. *)
Definition calls (ops : list Call) (c : Circuit) : Circuit :=
  foldl (λ c op, state_of (call op c)) c ops.

Definition reachable (c : Circuit) : Prop :=
  ∃ ops, c = calls ops Circuit_init.

(** The calls of [tests/smoke_test.py] that build the circuit. *)
Definition smoke_calls : list Call :=
  [CallAdd (NewSwitchTernary "sw1" 1);
   CallAdd (NewSwitchTernary "sw2" (-1));
   CallAdd (NewTAND "and1"); CallAdd (NewTNOR "nor1");
   CallAdd (NewTransistor "t1"); CallAdd (NewTLatch "l1");
   CallAdd (NewProbe "p1");
   CallConnect "sw1" "out" "and1" "in1";
   CallConnect "sw2" "out" "and1" "in2";
   CallConnect "and1" "out" "t1" "presence";
   CallConnect "sw1" "out" "t1" "sign";
   CallConnect "t1" "out" "nor1" "in1";
   CallConnect "sw2" "out" "nor1" "in2";
   CallConnect "nor1" "out" "l1" "in";
   CallConnect "sw1" "out" "l1" "enable";
   CallConnect "l1" "out" "p1" "in"].

(** A switch followed by two inverters in a row. *)
Definition chain_calls : list Call :=
  [CallAdd (NewSwitchTernary "sw" 1);
   CallAdd (NewTNOT "n1"); CallAdd (NewTNOT "n2");
   CallConnect "sw" "out" "n1" "in";
   CallConnect "n1" "out" "n2" "in"].

(** [n] calls of [step] in a row. *)
Fixpoint steps (n : nat) : M Circuit () :=
  match n with
  | O => mret ()
  | S n' => step;; steps n'
  end.

(** The key order is that of a dictionary: no key twice, and exactly the
    keys of the map. *)
Definition dict_ok (c : Circuit) : Prop :=
  NoDup (order c) ∧ ∀ k, k ∈ order c ↔ is_Some (components c !! k).

Definition wf (c : Circuit) : Prop :=
  dict_ok c ∧ map_Forall (λ _ comp, comp_ok comp) (components c).

(** ** The specification's rounding *)

(** The quotient [n / d], [d > 0], rounded to the nearest integer, halves
    away from zero. *)
Definition round_half_away (n d : Z) : Z :=
  if decide (0 ≤ n) then (2 * n + d) `div` (2 * d)
  else - ((2 * (- n) + d) `div` (2 * d)).

(** *** A chain of inverters *)

Definition is_switch (k : Cls.t) : Prop :=
  match k with
  | Cls.SwitchBinary _ | Cls.SwitchTernary _ => True
  | _ => False
  end.

(** [g 0] is a switch whose output no wire drives; [g 1] ... [g N] are
    inverters, the input of each driven by one wire, from the output of the
    one before. *)
Definition inverter_chain (c : Circuit) (g : nat → string) (N : nat) : Prop :=
  (∃ comp, components c !! g 0%nat = Some comp ∧
           is_switch (Component.cls comp)) ∧
  driving c (g 0%nat) "out" = [] ∧
  ∀ i, (1 ≤ i ≤ N)%nat →
    (∃ comp, components c !! g i = Some comp ∧
             Component.cls comp = Cls.TNOT) ∧
    driving c (g i) "in" = [mkWire (g (i - 1)%nat) "out" (g i) "in"].

(** The output of the [i]-th inverter after [k] steps, when the switch
    shows [v] and the inverters started at 0. *)
Definition chain_out (v : TValue) (i k : nat) : TValue :=
  if decide (i ≤ k)%nat then (if Nat.even i then v else - v) else 0.

(** The state of a chain [j] hops after the switch was set. *)
Definition chain_state (c : Circuit) (g : nat → string) (N : nat)
    (v : TValue) (j : nat) : Prop :=
  wf c ∧ is_trit v ∧ Forall (wire_valid c) (wires c) ∧
  inverter_chain c g N ∧ port_value c (g 0%nat) "out" = Some v ∧
  ∀ i, (1 ≤ i ≤ N)%nat → port_value c (g i) "out" = Some (chain_out v i j).

(** The components of [chain_calls], by position. *)
Definition chain_ids (i : nat) : string :=
  nth i ["sw"; "n1"; "n2"] "".

(** *** Deleting a component in the editor *)

(** [Canvas.delete_selected] of [gui.py], as far as the circuit goes: with
    nothing selected it returns at once; else the wires that touch the
    selected component are filtered out and its entry is deleted from the
    dictionary, if it is there.  The ports of the other components are not
    touched. *)
Definition delete_selected (selected : option string) (c : Circuit)
  : Circuit :=
  match selected with
  | None => c
  | Some cid =>
      if decide (cid = "") then c
      else
        let wires' :=
          filter (λ w, src_comp w ≠ cid ∧ dst_comp w ≠ cid) (wires c) in
        if decide (is_Some (components c !! cid))
        then mkCircuit (delete cid (components c))
                       (filter (λ k, k ≠ cid) (order c)) wires'
        else mkCircuit (components c) (order c) wires'
  end.

(** ** Further observations of the engine *)

(** The type name each constructor passes to [Component.__init__]. *)
Definition class_name (k : Cls.t) : string :=
  match k with
  | Cls.SwitchBinary _ => "SwitchBinary"
  | Cls.SwitchTernary _ => "SwitchTernary"
  | Cls.TNOT => "TNOT"
  | Cls.TAND => "TAND"
  | Cls.TNOR => "TNOR"
  | Cls.Transistor => "Transistor"
  | Cls.TLatch _ => "TLatch"
  | Cls.Probe _ => "Probe"
  | Cls.TFullAdder => "TFullAdder"
  end.

(** Every component is stored under its own id, and its [type] names its
    class. *)
Definition named (c : Circuit) : Prop :=
  map_Forall (λ k comp, Component.id comp = k ∧
                        Component.type comp = class_name (Component.cls comp))
    (components c).

(** The ports and attributes of a component agree with its transfer
    function: what [comp.step()] establishes. *)
Definition settled (comp : Component) : Prop :=
  match Component.cls comp with
  | Cls.SwitchBinary _ | Cls.SwitchTernary _ => True
  | Cls.TNOT =>
      ∃ x, comp_port comp "in" = Some x ∧ comp_port comp "out" = Some (- x)
  | Cls.TAND =>
      ∃ a b, comp_port comp "in1" = Some a ∧ comp_port comp "in2" = Some b ∧
             comp_port comp "out" = Some (Z.min a b)
  | Cls.TNOR =>
      ∃ a b, comp_port comp "in1" = Some a ∧ comp_port comp "in2" = Some b ∧
             comp_port comp "out" = Some (- Z.max a b)
  | Cls.Transistor =>
      ∃ p s, comp_port comp "presence" = Some p ∧
             comp_port comp "sign" = Some s ∧
             comp_port comp "out" =
               Some (if decide (p ≠ 0 ∧ s ≠ 0) then s else 0)
  | Cls.TLatch st =>
      ∃ i en, comp_port comp "in" = Some i ∧
              comp_port comp "enable" = Some en ∧
              comp_port comp "out" = Some st ∧ (en = 1 → st = i)
  | Cls.Probe last => comp_port comp "in" = Some last
  | Cls.TFullAdder =>
      ∃ a b c so co,
        comp_port comp "ai" = Some a ∧ comp_port comp "bi" = Some b ∧
        comp_port comp "ci" = Some c ∧ comp_port comp "so" = Some so ∧
        comp_port comp "co" = Some co ∧ so + 3 * co = a + b + c
  end.

(** The stored value of a switch. *)
Definition switch_value (comp : Component) : option Z :=
  match Component.cls comp with
  | Cls.SwitchBinary value | Cls.SwitchTernary value => Some value
  | _ => None
  end.

(** A switch with a wire into its output port. *)
Definition driven_switch_calls : list Call :=
  [CallAdd (NewSwitchTernary "a" 1); CallAdd (NewSwitchTernary "b" (-1));
   CallConnect "a" "out" "b" "out"].

(** ** Persistence: [ternuino_designer/core/io.py]

    The two functions are modelled between [json.loads] and [json.dumps],
    on the parsed description: a component entry has its [id], its [type]
    and its [params] (the empty dictionary when the key is absent, as
    [comp.get('params', {})] reads it), a wire entry its two endpoints; the
    values of [params] are integers.  The circuit under construction is a
    local of [load_circuit_from_json]: when it raises, no circuit is
    returned. *)

Module CompDesc.
Record t := mk { id : string; type : string; params : gmap string Z }.
End CompDesc.
Abbreviation CompDesc := CompDesc.t.

Module EndDesc.
Record t := mk { componentId : string; port : string }.
End EndDesc.
Abbreviation EndDesc := EndDesc.t.

Module WireDesc.
Record t := mk { from : EndDesc; to : EndDesc }.
End WireDesc.
Abbreviation WireDesc := WireDesc.t.

Module Desc.
Record t := mk {
  name : option string;
  version : option Z;
  components : list CompDesc;
  wires : list WireDesc
}.
End Desc.
Abbreviation Desc := Desc.t.

(** What the persistence functions can raise: the exceptions of the engine
    and their own [ValueError], and the [TypeError] of a constructor called
    with a keyword it does not have (its message, which names the
    constructor and the keyword, is abridged). *)
Inductive io_exn :=
  | Exn (e : exn)
  | TypeError (msg : string).

(** [cls(id, **kwargs)] for a switch class, whose constructor is
    [__init__(self, id, value=0)]. *)
Definition call_switch (cls : string → Z → Component) (id : string)
    (kwargs : gmap string Z) : io_exn + Component :=
  if decide (dom kwargs ⊆ ({["value"]} : gset string))
  then inr (cls id (default 0 (kwargs !! "value")))
  else inl (TypeError "unexpected keyword argument").

(** [cls(id, **kwargs)] for the other classes: [__init__(self, id)]. *)
Definition call_plain (cls : string → Component) (id : string)
    (kwargs : gmap string Z) : io_exn + Component :=
  if decide (kwargs = ∅) then inr (cls id)
  else inl (TypeError "unexpected keyword argument").

Definition COMPONENT_REGISTRY
  : gmap string (string → gmap string Z → io_exn + Component) :=
  list_to_map
    [("SwitchBinary", call_switch SwitchBinary);
     ("SwitchTernary", call_switch SwitchTernary);
     ("TNOT", call_plain TNOT);
     ("TAND", call_plain TAND);
     ("TNOR", call_plain TNOR);
     ("Transistor", call_plain Transistor);
     ("TLatch", call_plain TLatch);
     ("Probe", call_plain Probe);
     ("TFullAdder", call_plain TFullAdder)].

(** The body of the first loop of [load_circuit_from_json] up to the
    [add]. *)
Definition instantiate (comp : CompDesc) : io_exn + Component :=
  match COMPONENT_REGISTRY !! CompDesc.type comp with
  | None =>
      inl (Exn (ValueError ("Unknown component type: " +:+ CompDesc.type comp)))
  | Some cls =>
      if decide (CompDesc.params comp ≠ ∅)
      then cls (CompDesc.id comp) (CompDesc.params comp)
      else cls (CompDesc.id comp) ∅
  end.

Fixpoint load_components (comps : list CompDesc) (c : Circuit)
  : io_exn + Circuit :=
  match comps with
  | [] => inr c
  | comp :: rest =>
      match instantiate comp with
      | inl e => inl e
      | inr obj =>
          match add obj c with
          | Raise e _ => inl (Exn e)
          | Ok _ c' => load_components rest c'
          end
      end
  end.

Definition load_wires (ws : list WireDesc) (c : Circuit) : Circuit :=
  foldl (λ c w,
           state_of (connect (EndDesc.componentId (WireDesc.from w))
                             (EndDesc.port (WireDesc.from w))
                             (EndDesc.componentId (WireDesc.to w))
                             (EndDesc.port (WireDesc.to w)) c)) c ws.

Definition load_circuit (data : Desc) : io_exn + Circuit :=
  match load_components (Desc.components data) Circuit_init with
  | inl e => inl e
  | inr c => inr (load_wires (Desc.wires data) c)
  end.

(** [c.components.values()] *)
Definition values (c : Circuit) : list Component :=
  omap (λ k, components c !! k) (order c).

(** One entry of the export; [comp.ports['out']] raises [KeyError] when a
    component whose type is a switch type has no such port. *)
Definition dump_entry (comp : Component) : exn + CompDesc :=
  if decide (Component.type comp = "SwitchBinary" ∨
             Component.type comp = "SwitchTernary")
  then match comp_port comp "out" with
       | Some v =>
           inr (CompDesc.mk (Component.id comp) (Component.type comp)
                  {[ "value" := v ]})
       | None => inl (KeyError "out")
       end
  else inr (CompDesc.mk (Component.id comp) (Component.type comp) ∅).

Fixpoint dump_entries (comps : list Component) : exn + list CompDesc :=
  match comps with
  | [] => inr []
  | comp :: rest =>
      match dump_entry comp with
      | inl e => inl e
      | inr entry =>
          match dump_entries rest with
          | inl e => inl e
          | inr entries => inr (entry :: entries)
          end
      end
  end.

Definition dump_wire (w : Wire) : WireDesc :=
  WireDesc.mk (EndDesc.mk (src_comp w) (src_port w))
              (EndDesc.mk (dst_comp w) (dst_port w)).

Definition dump_circuit (c : Circuit) : exn + Desc :=
  match dump_entries (values c) with
  | inl e => inl e
  | inr comps =>
      inr (Desc.mk (Some "Exported") (Some 1) comps (dump_wire <$> wires c))
  end.

(** The component a load of its exported entry makes: a fresh one of the
    same class and id, a switch taking its value from the old output
    port. *)
Definition rebuilt (comp : Component) : Component :=
  match Component.cls comp with
  | Cls.SwitchBinary _ =>
      SwitchBinary (Component.id comp) (default 0 (comp_port comp "out"))
  | Cls.SwitchTernary _ =>
      SwitchTernary (Component.id comp) (default 0 (comp_port comp "out"))
  | Cls.TNOT => TNOT (Component.id comp)
  | Cls.TAND => TAND (Component.id comp)
  | Cls.TNOR => TNOR (Component.id comp)
  | Cls.Transistor => Transistor (Component.id comp)
  | Cls.TLatch _ => TLatch (Component.id comp)
  | Cls.Probe _ => Probe (Component.id comp)
  | Cls.TFullAdder => TFullAdder (Component.id comp)
  end.

Definition rebuild (c : Circuit) : Circuit :=
  mkCircuit (rebuilt <$> components c) (order c) (wires c).

(** The components of a list under their ids, and the wire of a wire
    entry. *)
Definition keyed (objs : list Component) : list (string * Component) :=
  (λ o, (Component.id o, o)) <$> objs.

Definition wire_of_desc (w : WireDesc) : Wire :=
  mkWire (EndDesc.componentId (WireDesc.from w))
         (EndDesc.port (WireDesc.from w))
         (EndDesc.componentId (WireDesc.to w))
         (EndDesc.port (WireDesc.to w)).

(** A description for the examples. *)
Definition sample_desc : Desc :=
  Desc.mk None None
    [CompDesc.mk "s" "SwitchTernary" {[ "value" := 5 ]};
     CompDesc.mk "n" "TNOT" ∅;
     CompDesc.mk "p" "Probe" ∅]
    [WireDesc.mk (EndDesc.mk "s" "out") (EndDesc.mk "n" "in");
     WireDesc.mk (EndDesc.mk "n" "out") (EndDesc.mk "p" "in")].

(** ** The editor: the circuit of the canvas in [ternuino_designer/gui.py]

    Of the canvas only the circuit is modelled; positions, selection and
    painting are left out. *)

(** [Canvas.add_component]: the id is the type name, an underscore and
    the number of components plus one; the class is looked up by
    subscript ([KeyError] on an unknown name) and called with the value 0
    when the name starts with [Switch]; then [Circuit.add].  The result is
    the exception, if one was raised, and the circuit as it is then. *)
Definition add_component (ctype : string) (c : Circuit)
  : option io_exn * Circuit :=
  let cid := ctype +:+ "_" +:+ pretty (size (components c) + 1)%nat in
  match COMPONENT_REGISTRY !! ctype with
  | None => (Some (Exn (KeyError ctype)), c)
  | Some cls =>
      match (if String.prefix "Switch" ctype
             then cls cid {[ "value" := 0 ]} else cls cid ∅) with
      | inl e => (Some e, c)
      | inr comp =>
          match add comp c with
          | Raise e c' => (Some (Exn e), c')
          | Ok _ c' => (None, c')
          end
      end
  end.

(** [Canvas.load_json], as far as the circuit goes: the circuit is
    replaced by the one loaded; when the load raises, the assignment is
    not reached. *)
Definition load_json (data : Desc) (c : Circuit) : Circuit :=
  match load_circuit data with
  | inl _ => c
  | inr c' => c'
  end.

(** What a session of the editor does to the circuit: placing a component,
    deleting the selected one, loading a description, and the calls of
    the engine behind the other gestures (wiring, clicking a switch, the
    Step button). *)
Inductive Action :=
  | ActAdd (ctype : string)
  | ActDelete (selected : option string)
  | ActLoad (data : Desc)
  | ActCall (op : Call).

Definition act (a : Action) (c : Circuit) : Circuit :=
  match a with
  | ActAdd ctype => (add_component ctype c).2
  | ActDelete selected => delete_selected selected c
  | ActLoad data => load_json data c
  | ActCall op => state_of (call op c)
  end.

Definition acts (l : list Action) (c : Circuit) : Circuit :=
  foldl (λ c a, act a c) c l.

(** The ids [add_component] gives when components are only placed. *)
Definition editor_ids (ctypes : list string) : list string :=
  imap (λ i t, t +:+ "_" +:+ pretty (S i)) ctypes.

(** * Properties *)

(** ** The outcome monad *)

Lemma bind_Ok {S A B} (m : M S A) (f : A → M S B) s a s' :
  m s = Ok a s' → (m ≫= f) s = f a s'.
Proof. intros H. unfold mbind, M_bind. by rewrite H. Qed.

Lemma bind_Raise {S A B} (m : M S A) (f : A → M S B) s e s' :
  m s = Raise e s' → (m ≫= f) s = Raise e s'.
Proof. intros H. unfold mbind, M_bind. by rewrite H. Qed.

Lemma bind_Ok_inv {S A B} (m : M S A) (f : A → M S B) s b s2 :
  (m ≫= f) s = Ok b s2 → ∃ a s1, m s = Ok a s1 ∧ f a s1 = Ok b s2.
Proof.
  unfold mbind, M_bind. destruct (m s) as [a s1|e s1]; [eauto | done].
Qed.

Lemma preserves_bind {S A B} (P : S → Prop) (m : M S A) (f : A → M S B) :
  preserves P m → (∀ a, preserves P (f a)) → preserves P (m ≫= f).
Proof.
  intros Hm Hf s Hs. specialize (Hm s Hs). unfold mbind, M_bind.
  destruct (m s) as [a s1|e s1]; simpl in *; [by apply Hf | done].
Qed.

Lemma preserves_ret {S A} (P : S → Prop) (a : A) : preserves P (mret a).
Proof. by intros s Hs. Qed.

Lemma preserves_raise {S A} (P : S → Prop) e : preserves P (@raise S A e).
Proof. by intros s Hs. Qed.

Lemma preserves_get {S} (P : S → Prop) : preserves P get.
Proof. by intros s Hs. Qed.

Lemma preserves_for_each {S X} (P : S → Prop) (l : list X) body :
  (∀ x, x ∈ l → preserves P (body x)) → preserves P (for_each l body).
Proof.
  induction l as [|x l IH]; intros Hb; simpl.
  - apply preserves_ret.
  - apply preserves_bind.
    + apply Hb. by left.
    + intros _. apply IH. intros y Hy. apply Hb. by right.
Qed.

Lemma preserves_for_fold {S X A} (P : S → Prop) (l : list X)
    (body : A → X → M S A) acc :
  (∀ a x, preserves P (body a x)) → preserves P (for_fold l body acc).
Proof.
  intros Hb. revert acc. induction l as [|x l IH]; intros acc; simpl.
  - apply preserves_ret.
  - apply preserves_bind; [apply Hb | intros a; apply IH].
Qed.

(** ** Ternary values *)

Lemma clamp_t_trit v : is_trit (clamp_t v).
Proof. unfold clamp_t, is_trit. repeat case_decide; lia. Qed.

Lemma clamp_t_id v : is_trit v → clamp_t v = v.
Proof. unfold clamp_t, is_trit. repeat case_decide; lia. Qed.

Lemma resolve_wire_rule (drivers : list TValue) :
  resolve_wire drivers =
    if decide (-1 ∈ drivers ∧ 1 ∈ drivers) then 0
    else if decide (1 ∈ drivers) then 1
    else if decide (-1 ∈ drivers) then -1
    else 0.
Proof.
  unfold resolve_wire.
  repeat case_decide; try done;
    rewrite ?elem_of_list_to_set in *; tauto.
Qed.

Lemma resolve_wire_ext (d1 d2 : list TValue) :
  (∀ x, x ∈ d1 ↔ x ∈ d2) → resolve_wire d1 = resolve_wire d2.
Proof.
  intros H. rewrite !resolve_wire_rule.
  pose proof (H 1). pose proof (H (-1)).
  repeat case_decide; try done; tauto.
Qed.

Lemma resolve_wire_trit drivers : is_trit (resolve_wire drivers).
Proof. unfold resolve_wire, is_trit. repeat case_decide; lia. Qed.

(** C1.  [resolve_wire] follows the conflict rule on every list of drivers:
    0 when both -1 and +1 are present, else +1 when +1 is present, else -1
    when -1 is present, else 0 (also for no driver at all).  The result
    depends only on which values occur: two lists with the same elements
    resolve alike, so reordering and repeating drivers changes nothing.
    The five sample nets of the specification resolve as stated. *)
Theorem resolve_wire_set_rule :
  (∀ drivers : list TValue,
     resolve_wire drivers =
       if decide (-1 ∈ drivers ∧ 1 ∈ drivers) then 0
       else if decide (1 ∈ drivers) then 1
       else if decide (-1 ∈ drivers) then -1
       else 0) ∧
  (∀ d1 d2 : list TValue,
     (∀ x, x ∈ d1 ↔ x ∈ d2) → resolve_wire d1 = resolve_wire d2) ∧
  (∀ d1 d2 : list TValue, d1 ≡ₚ d2 → resolve_wire d1 = resolve_wire d2) ∧
  (∀ (x : TValue) (d : list TValue),
     x ∈ d → resolve_wire (x :: d) = resolve_wire d) ∧
  resolve_wire [1; -1] = 0 ∧
  resolve_wire [1; 1; 0] = 1 ∧
  resolve_wire [-1; 0] = -1 ∧
  resolve_wire [] = 0 ∧
  resolve_wire [0; 0] = 0.
Proof.
  split; [exact resolve_wire_rule|].
  split; [exact resolve_wire_ext|].
  split.
  { intros d1 d2 Hp. apply resolve_wire_ext. intros x. by rewrite Hp. }
  split.
  { intros x d Hx. apply resolve_wire_ext. intros y.
    rewrite elem_of_cons. split; [by intros [->|?] | by right]. }
  by vm_compute.
Qed.

Lemma resolve_wire_set_rule_witness :
  resolve_wire [1; -1; 1; 0] = resolve_wire [0; -1; 1] ∧
  resolve_wire [0; 1] = resolve_wire [1; 0] ∧
  resolve_wire [1; 1; 0] = resolve_wire [1; 0].
Proof.
  destruct resolve_wire_set_rule as (_ & Hext & Hperm & Hdup & _).
  split; [|split].
  - apply Hext. intros x. rewrite !elem_of_cons, !elem_of_nil. tauto.
  - apply Hperm. apply Permutation_swap.
  - apply Hdup. by left.
Defined.

(** ** Ports of a component *)

Lemma get_in_Some comp name v :
  comp_port comp name = Some v → get_in name comp = Ok v comp.
Proof.
  unfold comp_port, get_in. destruct (Component.ports comp !! name); [|done].
  by intros [= ->].
Qed.

Lemma get_in_None comp name :
  comp_port comp name = None → get_in name comp = Raise (KeyError name) comp.
Proof.
  unfold comp_port, get_in. by destruct (Component.ports comp !! name).
Qed.

Lemma store_port_Some comp name v :
  is_Some (comp_port comp name) →
  store_port name v comp = Ok () (write_port name v comp).
Proof.
  unfold comp_port, store_port, write_port. intros [x Hx].
  destruct (Component.ports comp !! name) as [p|] eqn:Hp; [|done].
  do 2 f_equal. apply map_eq. intros j.
  rewrite lookup_insert, lookup_alter. repeat case_decide; subst; try done.
  by rewrite Hp.
Qed.

Lemma store_port_None comp name v :
  comp_port comp name = None →
  store_port name v comp = Raise (KeyError name) comp.
Proof.
  unfold comp_port, store_port. by destruct (Component.ports comp !! name).
Qed.

Lemma set_out_Some comp name v :
  is_Some (comp_port comp name) →
  set_out name v comp = Ok () (write_port name (clamp_t v) comp).
Proof. apply store_port_Some. Qed.

Lemma comp_port_write_eq comp name v :
  is_Some (comp_port comp name) →
  comp_port (write_port name v comp) name = Some v.
Proof.
  unfold comp_port, write_port. simpl. intros [x Hx].
  rewrite lookup_alter_eq.
  by destruct (Component.ports comp !! name).
Qed.

Lemma comp_port_write_ne comp name name' v :
  name ≠ name' →
  comp_port (write_port name v comp) name' = comp_port comp name'.
Proof.
  unfold comp_port, write_port. simpl. intros Hne.
  by rewrite lookup_alter_ne.
Qed.

Lemma comp_port_write comp name name' v :
  comp_port (write_port name v comp) name' =
    if decide (name = name') then (λ _, v) <$> comp_port comp name'
    else comp_port comp name'.
Proof.
  unfold comp_port, write_port. simpl. case_decide as Hd.
  - subst. rewrite lookup_alter_eq.
    by destruct (Component.ports comp !! name').
  - by rewrite lookup_alter_ne.
Qed.

Lemma comp_port_set_cls comp k name :
  comp_port (Component.set_cls k comp) name = comp_port comp name.
Proof. done. Qed.

Lemma port_set_write name v comp :
  port_set (write_port name v comp) = port_set comp.
Proof.
  unfold port_set, write_port. simpl. apply map_eq. intros j.
  rewrite !lookup_fmap, lookup_alter. case_decide; subst; [|done].
  by destruct (Component.ports comp !! j).
Qed.

Lemma port_set_lookup comp name :
  port_set comp !! name =
    (λ p, (Port.id p, Port.direction p)) <$> Component.ports comp !! name.
Proof. unfold port_set. by rewrite lookup_fmap. Qed.

Lemma port_set_is_Some comp name :
  is_Some (port_set comp !! name) ↔ is_Some (comp_port comp name).
Proof.
  rewrite port_set_lookup. unfold comp_port. by rewrite !fmap_is_Some.
Qed.

(** Ports a component of a given class has. *)
Lemma comp_ok_port comp name :
  comp_ok comp →
  is_Some (declared_ports (Component.cls comp) !! name) →
  is_Some (comp_port comp name).
Proof. intros Hok H. apply port_set_is_Some. by rewrite Hok. Qed.

Ltac has_port H :=
  apply (comp_ok_port _ _ H);
  match goal with
  | Hc : Component.cls _ = _ |- _ => rewrite Hc; vm_compute; eauto
  end.

(** ** Transfer functions *)

Lemma round_div3_nearest total :
  round_div3 total = round_half_away total 3.
Proof.
  unfold round_div3, round_half_away.
  pose proof (Z.div_mod total 3 ltac:(lia)) as Hdm.
  pose proof (Z.mod_pos_bound total 3 ltac:(lia)) as Hr.
  generalize dependent (total `div` 3). generalize dependent (total `mod` 3).
  intros r Hr q Hdm.
  assert (r = 0 ∨ r = 1 ∨ r = 2) as Hcases by lia.
  repeat case_decide; try lia.
  - apply Z.div_unique with (r := 2 * r + 3); lia.
  - assert ((2 * - total + 3) `div` (2 * 3) = - q) as ->; [|lia].
    symmetry. apply Z.div_unique with (r := 3 - 2 * r); lia.
  - apply Z.div_unique with (r := 2 * r - 3); lia.
  - assert ((2 * - total + 3) `div` (2 * 3) = - q - 1) as ->; [|lia].
    symmetry. apply Z.div_unique with (r := 9 - 2 * r); lia.
Qed.

Lemma TFullAdder_step_Ok comp a b c :
  comp_port comp "ai" = Some a →
  comp_port comp "bi" = Some b →
  comp_port comp "ci" = Some c →
  is_Some (comp_port comp "so") →
  is_Some (comp_port comp "co") →
  TFullAdder_step comp =
    let total := a + b + c in
    let co := round_div3 total in
    let co := if decide (co > 1) then 1
              else if decide (co < -1) then -1 else co in
    Ok () (write_port "so" (clamp_t (clamp_t (total - 3 * co)))
             (write_port "co" (clamp_t (clamp_t co)) comp)).
Proof.
  intros Ha Hb Hc Hso Hco. unfold TFullAdder_step.
  rewrite (bind_Ok _ _ _ _ _ (get_in_Some _ _ _ Ha)).
  rewrite (bind_Ok _ _ _ _ _ (get_in_Some _ _ _ Hb)).
  rewrite (bind_Ok _ _ _ _ _ (get_in_Some _ _ _ Hc)).
  cbv zeta.
  rewrite (bind_Ok _ _ _ _ _ (set_out_Some _ _ _ Hco)).
  apply set_out_Some. by rewrite comp_port_write_ne.
Qed.

Lemma adder_digits (a b c : Z) :
  is_trit a → is_trit b → is_trit c →
  let total := a + b + c in
  let co := round_div3 total in
  let co := if decide (co > 1) then 1
            else if decide (co < -1) then -1 else co in
  let so := total - 3 * co in
  is_trit co ∧ is_trit so ∧ so + 3 * co = total ∧
  co = clamp_t (round_half_away total 3).
Proof.
  intros Ha Hb Hc.
  destruct Ha as [->|[->| ->]], Hb as [->|[->| ->]], Hc as [->|[->| ->]];
    vm_compute; intuition congruence.
Qed.

Lemma TLatch_step_Ok comp st i en :
  comp_port comp "in" = Some i →
  comp_port comp "enable" = Some en →
  is_Some (comp_port comp "out") →
  TLatch_step st comp =
    let st' := if decide (en = 1) then i else st in
    Ok () (write_port "out" (clamp_t st')
             (if decide (en = 1) then Component.set_cls (Cls.TLatch i) comp
              else comp)).
Proof.
  intros Hi Hen Hout. unfold TLatch_step. cbv zeta.
  rewrite (bind_Ok _ _ _ _ _ (get_in_Some _ _ _ Hen)).
  destruct (decide (en = 1)) as [He|He].
  - rewrite ?decide_True by done.
    rewrite (bind_Ok _ _ _ i (Component.set_cls (Cls.TLatch i) comp)).
    + by apply set_out_Some.
    + by rewrite (bind_Ok _ _ _ _ _ (get_in_Some _ _ _ Hi)).
  - rewrite ?decide_False by done.
    rewrite (bind_Ok _ _ _ st comp); [|done].
    by apply set_out_Some.
Qed.

(** C4.  The transfer function of [TFullAdder] on trits [ai], [bi], [ci]
    returns and leaves in [so] and [co] two trits with
    [so + 3 * co = ai + bi + ci]; [co] is the quotient of the total by 3
    rounded to the nearest integer, halves away from zero, then clamped,
    and [so] is the clamped rest.  The three sample sums are as stated.
    ([round(total / 3.0)] is modelled on the exact quotient, see
    [round_div3].) *)
Theorem TFullAdder_step_sum :
  (∀ (comp : Component) (ai bi ci : TValue),
     Component.cls comp = Cls.TFullAdder →
     comp_ok comp →
     comp_port comp "ai" = Some ai →
     comp_port comp "bi" = Some bi →
     comp_port comp "ci" = Some ci →
     is_trit ai → is_trit bi → is_trit ci →
     ∃ comp' so co,
       Component_step comp = Ok () comp' ∧
       comp_port comp' "so" = Some so ∧
       comp_port comp' "co" = Some co ∧
       so + 3 * co = ai + bi + ci ∧
       is_trit so ∧ is_trit co ∧
       co = clamp_t (round_half_away (ai + bi + ci) 3) ∧
       so = clamp_t (ai + bi + ci - 3 * co)) ∧
  adder_outputs 1 1 1 = (Some 0, Some 1) ∧
  adder_outputs 1 1 0 = (Some (-1), Some 1) ∧
  adder_outputs (-1) (-1) (-1) = (Some 0, Some (-1)).
Proof.
  split; [|by vm_compute].
  intros comp a b c Hcls Hok Ha Hb Hc Ta Tb Tc.
  assert (is_Some (comp_port comp "so")) as Hso by has_port Hok.
  assert (is_Some (comp_port comp "co")) as Hco by has_port Hok.
  destruct (adder_digits a b c Ta Tb Tc) as (Tco & Tso & Hsum & Hround).
  unfold Component_step. rewrite Hcls.
  rewrite (TFullAdder_step_Ok comp a b c) by done.
  cbv zeta in *.
  set (co := if decide (round_div3 (a + b + c) > 1) then 1
             else if decide (round_div3 (a + b + c) < -1) then -1
             else round_div3 (a + b + c)) in *.
  rewrite !(clamp_t_id co), !(clamp_t_id (a + b + c - 3 * co)) by done.
  eexists _, (a + b + c - 3 * co), co. split; [done|].
  rewrite comp_port_write_eq by (by rewrite comp_port_write_ne).
  rewrite comp_port_write_ne, comp_port_write_eq by done.
  repeat split; try done. by rewrite clamp_t_id.
Qed.

Lemma TFullAdder_step_sum_witness :
  ∃ comp' so co,
    Component_step (write_port "ai" 1 (write_port "bi" 1 (TFullAdder "fa")))
      = Ok () comp' ∧
    comp_port comp' "so" = Some so ∧ comp_port comp' "co" = Some co ∧
    so + 3 * co = 1 + 1 + 0.
Proof.
  destruct TFullAdder_step_sum as [H _].
  destruct (H (write_port "ai" 1 (write_port "bi" 1 (TFullAdder "fa")))
              1 1 0) as (comp' & so & co & H1 & H2 & H3 & H4 & _);
    [reflexivity | by vm_compute | reflexivity | reflexivity | reflexivity
    | unfold is_trit; lia | unfold is_trit; lia | unfold is_trit; lia |].
  by exists comp', so, co.
Defined.

(** C5.  The transfer function of [TLatch] copies the input into the
    memory exactly when the enable port is +1 (0 and -1 both hold), and
    always sets the output port to the memory, updated or not; the inputs
    are left as they were.  In the scenario enable=1,in=1 then
    enable=0,in=-1 then enable=-1,in=-1 the memory and the output are 1
    after each step. *)
Theorem TLatch_step_enable :
  (∀ (comp : Component) (st inp enable : TValue),
     Component.cls comp = Cls.TLatch st →
     comp_ok comp →
     comp_port comp "in" = Some inp →
     comp_port comp "enable" = Some enable →
     is_trit inp → is_trit st →
     ∃ comp',
       Component_step comp = Ok () comp' ∧
       Component.cls comp' =
         Cls.TLatch (if decide (enable = 1) then inp else st) ∧
       comp_port comp' "out" =
         Some (if decide (enable = 1) then inp else st) ∧
       comp_port comp' "in" = Some inp ∧
       comp_port comp' "enable" = Some enable) ∧
  let l1 := latch_after 1 1 (TLatch "l") in
  let l2 := latch_after 0 (-1) l1 in
  let l3 := latch_after (-1) (-1) l2 in
  latch_observe l1 = (Some 1, Some 1) ∧
  latch_observe l2 = (Some 1, Some 1) ∧
  latch_observe l3 = (Some 1, Some 1).
Proof.
  split; [|by vm_compute].
  intros comp st i en Hcls Hok Hi Hen Ti Tst.
  assert (is_Some (comp_port comp "out")) as Hout by has_port Hok.
  unfold Component_step. rewrite Hcls.
  rewrite (TLatch_step_Ok comp st i en) by done. cbv zeta.
  eexists. split; [done|].
  rewrite clamp_t_id by (by case_decide).
  rewrite (comp_port_write_ne _ "out" "in") by done.
  rewrite (comp_port_write_ne _ "out" "enable") by done.
  rewrite comp_port_write_eq by (by case_decide).
  case_decide; simpl; by rewrite ?Hcls.
Qed.

Lemma TLatch_step_enable_witness :
  ∃ comp',
    Component_step (write_port "in" (-1) (TLatch "l")) = Ok () comp' ∧
    Component.cls comp' = Cls.TLatch 0 ∧
    comp_port comp' "out" = Some 0.
Proof.
  destruct TLatch_step_enable as [H _].
  destruct (H (write_port "in" (-1) (TLatch "l")) 0 (-1) 0)
    as (comp' & H1 & H2 & H3 & _);
    [reflexivity | by vm_compute | reflexivity | reflexivity
    | unfold is_trit; lia | unfold is_trit; lia |].
  by exists comp'.
Defined.

(** ** The circuit: [add] and the smoke test *)

(** C7.  The scenario of [tests/smoke_test.py]: the probe reads 0 after
    the first step, and 0 again after toggling [sw1] (1 to -1) and [sw2]
    (-1 to 0) and stepping once more. *)
Theorem smoke_test_probe :
  returned (smoke_run Circuit_init) = Some (0, 0) ∧
  (let c := state_of ((smoke_build;; step) Circuit_init) in
   port_value c "sw1" "out" = Some 1 ∧ port_value c "sw2" "out" = Some (-1)) ∧
  (let c := state_of ((smoke_build;; step;; toggle_switch "sw1";;
                       toggle_switch "sw2") Circuit_init) in
   port_value c "sw1" "out" = Some (-1) ∧ port_value c "sw2" "out" = Some 0).
Proof. by vm_compute. Qed.

(** C8.  [add] with an id already present raises the duplicate-id error
    ([ValueError] in the source) and leaves the circuit as it was; with a
    fresh id it returns, the component is stored under its id at the end
    of the dictionary order, and every other entry and the wires are
    unchanged. *)
Theorem add_duplicate_id (c : Circuit) (comp : Component) :
  (is_Some (components c !! Component.id comp) →
   add comp c =
     Raise (ValueError ("Duplicate component id " +:+ Component.id comp)) c) ∧
  (components c !! Component.id comp = None →
   ∃ c', add comp c = Ok () c' ∧
     components c' = <[Component.id comp := comp]> (components c) ∧
     components c' !! Component.id comp = Some comp ∧
     (∀ k, k ≠ Component.id comp → components c' !! k = components c !! k) ∧
     order c' = order c ++ [Component.id comp] ∧
     wires c' = wires c).
Proof.
  unfold add. split; intros H.
  - by rewrite decide_True.
  - rewrite decide_False by (rewrite H; by intros [??]).
    eexists. split; [done|]. simpl. split; [done|].
    rewrite lookup_insert_eq. repeat split; try done.
    intros k Hk. by rewrite lookup_insert_ne.
Qed.

Lemma add_duplicate_id_witness :
  add (TNOT "a") (state_of (add (Probe "a") Circuit_init)) =
    Raise (ValueError "Duplicate component id a")
      (state_of (add (Probe "a") Circuit_init)) ∧
  ∃ c', add (TNOT "b") (state_of (add (Probe "a") Circuit_init)) = Ok () c' ∧
        components c' !! "b" = Some (TNOT "b").
Proof.
  split.
  - apply (add_duplicate_id (state_of (add (Probe "a") Circuit_init))
             (TNOT "a")). vm_compute. eauto.
  - destruct (add_duplicate_id (state_of (add (Probe "a") Circuit_init))
                (TNOT "b")) as [_ H].
    destruct H as (c' & H1 & _ & H2 & _); [by vm_compute|].
    by exists c'.
Defined.

(** ** What the methods of a component keep *)

Lemma preserves_bind_val {S A B} (P : S → Prop) (Q : A → Prop)
    (m : M S A) (f : A → M S B) :
  preserves P m → returns P m Q → (∀ a, Q a → preserves P (f a)) →
  preserves P (m ≫= f).
Proof.
  intros Hm Hq Hf s Hs. specialize (Hm s Hs). specialize (Hq s).
  unfold mbind, M_bind.
  destruct (m s) as [a s1|e s1]; simpl in *; [|done].
  apply Hf; [|done]. by eapply Hq.
Qed.

Lemma preserves_modify {S} (P : S → Prop) (f : S → S) :
  (∀ s, P s → P (f s)) → preserves P (modify f).
Proof. intros Hf s Hs. by apply Hf. Qed.

Lemma preserves_if {S A} (P : S → Prop) (b : bool) (m1 m2 : M S A) :
  preserves P m1 → preserves P m2 → preserves P (if b then m1 else m2).
Proof. by destruct b. Qed.

Lemma preserves_get_in (P : Component → Prop) name :
  preserves P (get_in name).
Proof.
  intros s Hs. unfold get_in. by destruct (Component.ports s !! name).
Qed.

Lemma preserves_store_port (P : Component → Prop) name v :
  (∀ s, P s → P (write_port name v s)) → preserves P (store_port name v).
Proof.
  intros Hw s Hs. destruct (comp_port s name) as [x|] eqn:Hx.
  - rewrite store_port_Some by (by rewrite Hx). by apply Hw.
  - by rewrite store_port_None.
Qed.

(** *** Identity, class and port set *)

Lemma structure_write_port name v comp :
  comp_structure (write_port name v comp) = comp_structure comp.
Proof. unfold comp_structure. by rewrite port_set_write. Qed.

Lemma structure_set_cls k comp :
  class_of k = class_of (Component.cls comp) →
  comp_structure (Component.set_cls k comp) = comp_structure comp.
Proof. unfold comp_structure. simpl. by intros ->. Qed.

Section structure.
Variable X : string * string * Cls.t * gmap string (string * string).
Let P (s : Component) : Prop := comp_structure s = X.

Lemma structure_set_out name v : preserves P (set_out name v).
Proof.
  apply preserves_store_port. intros s Hs. unfold P.
  by rewrite structure_write_port.
Qed.

Lemma structure_store_port name v : preserves P (store_port name v).
Proof.
  apply preserves_store_port. intros s Hs. unfold P.
  by rewrite structure_write_port.
Qed.

Lemma structure_gates :
  preserves P TNOT_step ∧ preserves P TAND_step ∧ preserves P TNOR_step ∧
  preserves P Transistor_step ∧ preserves P TFullAdder_step.
Proof.
  split_and!;
    repeat (apply preserves_bind; [apply preserves_get_in|]; intros ?);
    cbv zeta; try case_decide; try apply structure_set_out.
  all: apply preserves_bind; [|intros _]; apply structure_set_out.
Qed.

Lemma structure_TLatch_step st :
  preserves (λ s, P s ∧ class_of (Component.cls s) = Cls.TLatch 0)
    (TLatch_step st).
Proof.
  apply preserves_bind; [apply preserves_get_in|]. intros en.
  apply preserves_bind.
  - case_decide; [|apply preserves_ret].
    apply preserves_bind; [apply preserves_get_in|]. intros v.
    apply preserves_bind; [|intros; apply preserves_ret].
    apply preserves_modify. intros s' [Hs' Hc]. split; [|done].
    unfold P. rewrite structure_set_cls; [done|by rewrite Hc].
  - intros st'. apply preserves_store_port. intros s' [Hs' Hc].
    split; [|done]. unfold P. by rewrite structure_write_port.
Qed.

Lemma structure_Probe_step :
  preserves (λ s, P s ∧ class_of (Component.cls s) = Cls.Probe 0)
    Probe_step.
Proof.
  apply preserves_bind; [apply preserves_get_in|]. intros v.
  apply preserves_modify. intros s' [Hs' Hc]. split; [|done].
  unfold P. rewrite structure_set_cls; [done|by rewrite Hc].
Qed.

Lemma structure_Component_step : preserves P Component_step.
Proof.
  destruct structure_gates as (H1 & H2 & H3 & H4 & H5).
  intros s Hs. unfold Component_step.
  destruct (Component.cls s) eqn:Hcls; try done;
    try (by first [apply H1 | apply H2 | apply H3 | apply H4 | apply H5]).
  - apply (structure_TLatch_step _state s). split; [done|].
    by rewrite Hcls.
  - apply (structure_Probe_step s). split; [done|]. by rewrite Hcls.
Qed.

Lemma structure_toggle : preserves P toggle.
Proof.
  intros s Hs. unfold toggle.
  destruct (Component.cls s) eqn:Hcls; try done.
  - cbv zeta. apply structure_set_out. unfold P.
    rewrite structure_set_cls; [done|by rewrite Hcls].
  - cbv zeta. destruct (index _ _); [|done].
    apply structure_set_out. unfold P.
    rewrite structure_set_cls; [done|by rewrite Hcls].
Qed.
End structure.

Lemma stepped_structure comp :
  comp_structure (stepped comp) = comp_structure comp.
Proof. by apply (structure_Component_step (comp_structure comp)). Qed.

Lemma declared_ports_class_of k :
  declared_ports (class_of k) = declared_ports k.
Proof. by destruct k. Qed.

Lemma comp_ok_structure comp comp' :
  comp_structure comp' = comp_structure comp → comp_ok comp → comp_ok comp'.
Proof.
  unfold comp_structure, comp_ok. intros [= _ _ Hc Hp] Hok.
  by rewrite Hp, Hok, <-declared_ports_class_of, <-Hc,
    declared_ports_class_of.
Qed.

Lemma construct_ok n : comp_ok (construct n).
Proof.
  by destruct n.
Qed.

(** *** Ports the transfer functions do not write *)

Section other_ports.
Variables (name : string) (X : option TValue).
Hypothesis not_out : name ≠ "out" ∧ name ≠ "so" ∧ name ≠ "co".
Let P (s : Component) : Prop := comp_port s name = X.

Lemma other_set_out name' v :
  name' = "out" ∨ name' = "so" ∨ name' = "co" →
  preserves P (set_out name' v).
Proof.
  intros Hn. apply preserves_store_port. intros s Hs. unfold P.
  rewrite comp_port_write_ne; [done|].
  destruct not_out as (? & ? & ?). destruct Hn as [?|[?|?]]; congruence.
Qed.

Lemma other_set_cls k : preserves P (modify (Component.set_cls k)).
Proof. by apply preserves_modify. Qed.

Lemma other_Component_step : preserves P Component_step.
Proof.
  assert (preserves P TNOT_step ∧ preserves P TAND_step ∧
          preserves P TNOR_step ∧ preserves P Transistor_step ∧
          preserves P TFullAdder_step ∧ preserves P Probe_step ∧
          ∀ st, preserves P (TLatch_step st))
    as (H1 & H2 & H3 & H4 & H5 & H6 & H7).
  { split_and!; [..|intros st].
    1-5: repeat (apply preserves_bind; [apply preserves_get_in|];
                 intros ?);
      cbv zeta; try (apply other_set_out; tauto).
    - case_decide; apply other_set_out; tauto.
    - apply preserves_bind; [|intros _]; apply other_set_out; tauto.
    - apply preserves_bind; [apply preserves_get_in|]. intros v.
      apply other_set_cls.
    - apply preserves_bind; [apply preserves_get_in|]. intros en.
      apply preserves_bind; [|intros ?; apply other_set_out; tauto].
      case_decide; [|apply preserves_ret].
      apply preserves_bind; [apply preserves_get_in|]. intros v.
      apply preserves_bind; [apply other_set_cls|].
      intros _. apply preserves_ret. }
  intros s Hs. unfold Component_step.
  destruct (Component.cls s); try done;
    by first [apply H1 | apply H2 | apply H3 | apply H4 | apply H5
             | apply H6 | apply H7].
Qed.
End other_ports.

Lemma stepped_other_port comp name :
  name ≠ "out" → name ≠ "so" → name ≠ "co" →
  comp_port (stepped comp) name = comp_port comp name.
Proof.
  intros. by apply (other_Component_step name (comp_port comp name)).
Qed.

Lemma comp_ok_input comp name i :
  comp_ok comp → port_set comp !! name = Some (i, "in") →
  name ≠ "out" ∧ name ≠ "so" ∧ name ≠ "co".
Proof.
  intros Hok. rewrite Hok.
  destruct (Component.cls comp); intros H; repeat split; intros ->;
    by vm_compute in H.
Qed.

(** *** The transfer functions return *)

Lemma TNOT_step_Ok comp x :
  comp_port comp "in" = Some x → is_Some (comp_port comp "out") →
  TNOT_step comp = Ok () (write_port "out" (clamp_t (- x)) comp).
Proof.
  intros Hx Hout. unfold TNOT_step.
  rewrite (bind_Ok _ _ _ _ _ (get_in_Some _ _ _ Hx)).
  by apply set_out_Some.
Qed.

Lemma TAND_step_Ok comp a b :
  comp_port comp "in1" = Some a → comp_port comp "in2" = Some b →
  is_Some (comp_port comp "out") →
  TAND_step comp = Ok () (write_port "out" (clamp_t (Z.min a b)) comp).
Proof.
  intros Ha Hb Hout. unfold TAND_step.
  rewrite (bind_Ok _ _ _ _ _ (get_in_Some _ _ _ Ha)).
  rewrite (bind_Ok _ _ _ _ _ (get_in_Some _ _ _ Hb)).
  by apply set_out_Some.
Qed.

Lemma TNOR_step_Ok comp a b :
  comp_port comp "in1" = Some a → comp_port comp "in2" = Some b →
  is_Some (comp_port comp "out") →
  TNOR_step comp = Ok () (write_port "out" (clamp_t (- Z.max a b)) comp).
Proof.
  intros Ha Hb Hout. unfold TNOR_step.
  rewrite (bind_Ok _ _ _ _ _ (get_in_Some _ _ _ Ha)).
  rewrite (bind_Ok _ _ _ _ _ (get_in_Some _ _ _ Hb)).
  by apply set_out_Some.
Qed.

Lemma Transistor_step_Ok comp p s :
  comp_port comp "presence" = Some p → comp_port comp "sign" = Some s →
  is_Some (comp_port comp "out") →
  Transistor_step comp =
    Ok () (write_port "out"
             (clamp_t (if decide (p ≠ 0 ∧ s ≠ 0) then s else 0)) comp).
Proof.
  intros Hp Hs Hout. unfold Transistor_step.
  rewrite (bind_Ok _ _ _ _ _ (get_in_Some _ _ _ Hp)).
  rewrite (bind_Ok _ _ _ _ _ (get_in_Some _ _ _ Hs)).
  case_decide; by apply set_out_Some.
Qed.

Lemma Probe_step_Ok comp v :
  comp_port comp "in" = Some v →
  Probe_step comp = Ok () (Component.set_cls (Cls.Probe v) comp).
Proof.
  intros Hv. unfold Probe_step.
  by rewrite (bind_Ok _ _ _ _ _ (get_in_Some _ _ _ Hv)).
Qed.

Lemma Component_step_Ok comp :
  comp_ok comp → Component_step comp = Ok () (stepped comp).
Proof.
  intros Hok.
  assert (∃ comp', Component_step comp = Ok () comp') as [comp' H];
    [|unfold stepped; by rewrite H].
  unfold Component_step. destruct (Component.cls comp) eqn:Hcls; eauto.
  - assert (is_Some (comp_port comp "in")) as [x Hx] by has_port Hok.
    rewrite (TNOT_step_Ok comp x); eauto. has_port Hok.
  - assert (is_Some (comp_port comp "in1")) as [a Ha] by has_port Hok.
    assert (is_Some (comp_port comp "in2")) as [b Hb] by has_port Hok.
    rewrite (TAND_step_Ok comp a b); eauto. has_port Hok.
  - assert (is_Some (comp_port comp "in1")) as [a Ha] by has_port Hok.
    assert (is_Some (comp_port comp "in2")) as [b Hb] by has_port Hok.
    rewrite (TNOR_step_Ok comp a b); eauto. has_port Hok.
  - assert (is_Some (comp_port comp "presence")) as [a Ha] by has_port Hok.
    assert (is_Some (comp_port comp "sign")) as [b Hb] by has_port Hok.
    rewrite (Transistor_step_Ok comp a b); eauto. has_port Hok.
  - assert (is_Some (comp_port comp "in")) as [a Ha] by has_port Hok.
    assert (is_Some (comp_port comp "enable")) as [b Hb] by has_port Hok.
    rewrite (TLatch_step_Ok comp _ a b); eauto. has_port Hok.
  - assert (is_Some (comp_port comp "in")) as [a Ha] by has_port Hok.
    rewrite (Probe_step_Ok comp a); eauto.
  - assert (is_Some (comp_port comp "ai")) as [a Ha] by has_port Hok.
    assert (is_Some (comp_port comp "bi")) as [b Hb] by has_port Hok.
    assert (is_Some (comp_port comp "ci")) as [c Hc] by has_port Hok.
    rewrite (TFullAdder_step_Ok comp a b c); eauto; has_port Hok.
Qed.

(** *** Trits *)

Lemma comp_trits_write_port name v comp :
  is_trit v → comp_trits comp → comp_trits (write_port name v comp).
Proof.
  intros Hv [Hp Hc]. split; [|done]. unfold write_port. simpl.
  intros k p. rewrite lookup_alter. case_decide; [|apply Hp].
  subst. destruct (Component.ports comp !! k); [|done]. by intros [= <-].
Qed.

Lemma comp_trits_set_cls k comp :
  cls_trits k → comp_trits comp → comp_trits (Component.set_cls k comp).
Proof. by intros Hk [Hp Hc]. Qed.

Lemma comp_trits_port comp name v :
  comp_trits comp → comp_port comp name = Some v → is_trit v.
Proof.
  intros [Hp _]. unfold comp_port.
  destruct (Component.ports comp !! name) as [p|] eqn:E; [|done].
  intros [= <-]. by apply (Hp name).
Qed.

Lemma trits_get_in name : returns comp_trits (get_in name) is_trit.
Proof.
  intros s a s' Hs. unfold get_in.
  destruct (Component.ports s !! name) as [p|] eqn:E; [|done].
  intros [= <- <-]. apply (comp_trits_port s name); [done|].
  unfold comp_port. by rewrite E.
Qed.

Lemma trits_set_out name v : preserves comp_trits (set_out name v).
Proof.
  apply preserves_store_port. intros s Hs.
  apply comp_trits_write_port; [apply clamp_t_trit|done].
Qed.

Lemma trits_store_port name v :
  is_trit v → preserves comp_trits (store_port name v).
Proof.
  intros Hv. apply preserves_store_port. intros s Hs.
  by apply comp_trits_write_port.
Qed.

Lemma trits_Component_step : preserves comp_trits Component_step.
Proof.
  assert (preserves comp_trits TNOT_step ∧ preserves comp_trits TAND_step ∧
          preserves comp_trits TNOR_step ∧
          preserves comp_trits Transistor_step ∧
          preserves comp_trits TFullAdder_step ∧
          preserves comp_trits Probe_step ∧
          ∀ st, is_trit st → preserves comp_trits (TLatch_step st))
    as (H1 & H2 & H3 & H4 & H5 & H6 & H7).
  { split_and!; [..|intros st Hst].
    1-5: repeat (apply preserves_bind; [apply preserves_get_in|]; intros ?);
      cbv zeta; try apply trits_set_out.
    - case_decide; apply trits_set_out.
    - apply preserves_bind; [|intros _]; apply trits_set_out.
    - apply (preserves_bind_val _ is_trit);
        [apply preserves_get_in | apply trits_get_in |].
      intros v Hv. apply preserves_modify. intros s Hs.
      by apply comp_trits_set_cls.
    - apply preserves_bind; [apply preserves_get_in|]. intros en.
      apply preserves_bind; [|intros ?; apply trits_set_out].
      case_decide; [|apply preserves_ret].
      apply (preserves_bind_val _ is_trit);
        [apply preserves_get_in | apply trits_get_in |].
      intros v Hv. apply preserves_bind; [|intros _; apply preserves_ret].
      apply preserves_modify. intros s Hs. by apply comp_trits_set_cls. }
  intros s Hs. unfold Component_step.
  destruct (Component.cls s) eqn:Hcls; try done;
    try (by first [apply H1 | apply H2 | apply H3 | apply H4 | apply H5
                  | apply H6]).
  apply H7; [|done]. destruct Hs as [_ Hc]. by rewrite Hcls in Hc.
Qed.

Lemma toggle_order_trit (i : nat) :
  is_trit ([-1; 0; 1] !!! Z.to_nat ((Z.of_nat i + 1) `mod` 3)).
Proof.
  pose proof (Z.mod_pos_bound (Z.of_nat i + 1) 3 ltac:(lia)) as H.
  assert (Z.to_nat ((Z.of_nat i + 1) `mod` 3) = 0%nat ∨
          Z.to_nat ((Z.of_nat i + 1) `mod` 3) = 1%nat ∨
          Z.to_nat ((Z.of_nat i + 1) `mod` 3) = 2%nat) as [->|[->| ->]]
    by lia; unfold is_trit; simpl; lia.
Qed.

Lemma trits_toggle : preserves comp_trits toggle.
Proof.
  intros s Hs. unfold toggle.
  destruct (Component.cls s) eqn:Hcls; try done.
  - cbv zeta. apply trits_set_out. apply comp_trits_set_cls; [|done].
    unfold cls_trits. case_decide; lia.
  - cbv zeta. destruct (index _ _) as [i|]; [|done].
    apply trits_set_out. apply comp_trits_set_cls; [|done].
    apply toggle_order_trit.
Qed.

Lemma construct_trits n : comp_trits (construct n).
Proof.
  assert (∀ m : gmap string Port,
            map_Forall (λ _ p, Port.value p = 0) m →
            map_Forall (λ _ p, is_trit (Port.value p)) m) as H0.
  { intros m Hm k p Hp. rewrite (Hm k p Hp). unfold is_trit. lia. }
  assert (∀ (k1 : string) p, Port.value p = 0 →
            map_Forall (λ _ p, Port.value p = 0)
              ({[ k1 := p ]} : gmap string Port)) as Hs.
  { intros k1 p Hp. by apply map_Forall_singleton. }
  destruct n; simpl;
    try (split; [|simpl; unfold is_trit; try done; lia];
         apply H0; simpl;
         repeat (apply map_Forall_insert_2; [done|]);
         first [by apply Hs | apply map_Forall_empty]).
  - unfold SwitchBinary. cbv zeta.
    apply trits_set_out. split; [by apply H0, Hs|].
    simpl. case_decide; simpl; lia.
  - unfold SwitchTernary. cbv zeta.
    apply trits_set_out. split; [by apply H0, Hs|].
    apply clamp_t_trit.
Qed.

(** ** Method calls through the [components] dictionary *)

Lemma set_components_id c : set_components (components c) c = c.
Proof. by destruct c. Qed.

Lemma at_component_None {A} k (m : M Component A) c :
  components c !! k = None → at_component k m c = Raise (KeyError k) c.
Proof. unfold at_component. by intros ->. Qed.

Lemma at_component_Some {A} k (m : M Component A) c comp :
  components c !! k = Some comp →
  at_component k m c =
    match m comp with
    | Ok a comp' => Ok a (set_components (<[k := comp']> (components c)) c)
    | Raise e comp' =>
        Raise e (set_components (<[k := comp']> (components c)) c)
    end.
Proof. unfold at_component. by intros ->. Qed.

Lemma state_of_at_component {A} k (m : M Component A) c :
  state_of (at_component k m c) =
    set_components (alter (λ comp, state_of (m comp)) k (components c)) c.
Proof.
  unfold at_component.
  destruct (components c !! k) as [comp|] eqn:E.
  - assert (<[k:=state_of (m comp)]> (components c) =
            alter (λ comp, state_of (m comp)) k (components c)) as <-.
    { apply map_eq. intros j. rewrite lookup_insert, lookup_alter.
      case_decide; [|done]. subst. by rewrite E. }
    by destruct (m comp).
  - simpl. rewrite <-(set_components_id c) at 1. f_equal.
    apply map_eq. intros j. rewrite lookup_alter.
    case_decide; [|done]. subst. by rewrite E.
Qed.

Lemma at_component_forall {A} (Q : Component → Prop) k (m : M Component A) :
  preserves Q m →
  preserves (λ c, map_Forall (λ _, Q) (components c)) (at_component k m).
Proof.
  intros Hm c Hc. rewrite state_of_at_component. simpl.
  intros j comp. rewrite lookup_alter. case_decide; [|apply Hc].
  subst. destruct (components c !! j) as [comp0|] eqn:E; [|done].
  intros [= <-]. apply Hm. by apply (Hc j).
Qed.

Lemma at_component_structure {A} k (m : M Component A) :
  (∀ X, preserves (λ s, comp_structure s = X) m) →
  ∀ c, structure (state_of (at_component k m c)) = structure c.
Proof.
  intros Hm c. rewrite state_of_at_component. unfold structure. simpl.
  do 2 f_equal. apply map_eq. intros j.
  rewrite !lookup_fmap, lookup_alter. case_decide; [|done].
  subst. destruct (components c !! j) as [comp0|]; [|done]. simpl.
  f_equal. by apply (Hm (comp_structure comp0)).
Qed.

(** The three kinds of call [step] makes, in closed form. *)

Lemma at_component_get_in k p c :
  at_component k (get_in p) c =
    match components c !! k with
    | None => Raise (KeyError k) c
    | Some comp =>
        match comp_port comp p with
        | Some v => Ok v c
        | None => Raise (KeyError p) c
        end
    end.
Proof.
  unfold at_component. destruct (components c !! k) as [comp|] eqn:E; [|done].
  assert (set_components (<[k:=comp]> (components c)) c = c) as Hid.
  { rewrite insert_id by done. apply set_components_id. }
  destruct (comp_port comp p) as [v|] eqn:Hp.
  - by rewrite (get_in_Some _ _ _ Hp), Hid.
  - by rewrite (get_in_None _ _ Hp), Hid.
Qed.

Lemma at_component_store_port k p v c :
  at_component k (store_port p v) c =
    match components c !! k with
    | None => Raise (KeyError k) c
    | Some comp =>
        match comp_port comp p with
        | Some _ => Ok () (poke k p v c)
        | None => Raise (KeyError p) c
        end
    end.
Proof.
  unfold at_component. destruct (components c !! k) as [comp|] eqn:E; [|done].
  destruct (comp_port comp p) as [x|] eqn:Hp.
  - rewrite store_port_Some by (by rewrite Hp). unfold poke. do 2 f_equal.
    apply map_eq. intros j. rewrite lookup_insert, lookup_alter.
    case_decide; [|done]. subst. by rewrite E.
  - rewrite (store_port_None _ _ _ Hp). f_equal.
    rewrite insert_id by done. apply set_components_id.
Qed.

Lemma at_component_step k c comp :
  components c !! k = Some comp → comp_ok comp →
  at_component k Component_step c = Ok () (step_at k c).
Proof.
  intros E Hok. rewrite (at_component_Some _ _ _ _ E).
  rewrite (Component_step_Ok _ Hok). unfold step_at. do 2 f_equal.
  apply map_eq. intros j. rewrite lookup_insert, lookup_alter.
  case_decide; [|done]. subst. by rewrite E.
Qed.

(** ** What the calls keep *)

(** *** Structure *)

Lemma preserves_structure_at {A} k (m : M Component A) Y :
  (∀ X, preserves (λ s, comp_structure s = X) m) →
  preserves (λ c, structure c = Y) (at_component k m).
Proof. intros Hm c Hc. by rewrite at_component_structure. Qed.

Lemma collect_drivers_structure Y :
  preserves (λ c, structure c = Y) collect_drivers.
Proof.
  apply preserves_bind; [apply preserves_get|]. intros self.
  apply preserves_for_fold. intros inputs w.
  apply preserves_bind; [|intros v; apply preserves_ret].
  apply preserves_structure_at. intros X. apply preserves_get_in.
Qed.

Lemma write_inputs_structure inputs Y :
  preserves (λ c, structure c = Y) (write_inputs inputs).
Proof.
  apply preserves_for_each. intros [[comp_id port_name] ds] _.
  apply preserves_structure_at. intros X. apply structure_store_port.
Qed.

Lemma step_components_structure ks Y :
  preserves (λ c, structure c = Y) (step_components ks).
Proof.
  apply preserves_for_each. intros k _.
  apply preserves_structure_at. intros X. apply structure_Component_step.
Qed.

Lemma step_in_order_structure ks c :
  structure (state_of (step_in_order ks c)) = structure c.
Proof.
  apply (preserves_bind (λ c', structure c' = structure c));
    [apply collect_drivers_structure| |done].
  intros inputs.
  apply preserves_bind; [apply write_inputs_structure|].
  intros _. apply step_components_structure.
Qed.

Lemma step_structure c : structure (state_of (step c)) = structure c.
Proof. apply step_in_order_structure. Qed.

Lemma toggle_switch_structure k c :
  structure (state_of (toggle_switch k c)) = structure c.
Proof. apply at_component_structure. intros X. apply structure_toggle. Qed.

Lemma structure_insert k comp comp' c :
  components c !! k = Some comp →
  comp_structure comp' = comp_structure comp →
  structure (set_components (<[k := comp']> (components c)) c) = structure c.
Proof.
  intros E H. unfold structure. simpl. do 2 f_equal.
  apply map_eq. intros j. rewrite !lookup_fmap, lookup_insert.
  case_decide; [|done]. subst. rewrite E. simpl. by rewrite H.
Qed.

Lemma state_of_at_component_Some {A} k (m : M Component A) c comp :
  components c !! k = Some comp →
  state_of (at_component k m c) =
    set_components (<[k := state_of (m comp)]> (components c)) c.
Proof.
  intros E. rewrite (at_component_Some _ _ _ _ E). by destruct (m comp).
Qed.

Lemma set_value_structure K comp :
  class_of K = class_of (Component.cls comp) →
  ∀ v, comp_structure
         (state_of ((modify (Component.set_cls K);; set_out "out" v) comp))
       = comp_structure comp.
Proof.
  intros HK v.
  apply (preserves_bind (λ s, comp_structure s = comp_structure comp));
    [|intros _; apply structure_set_out|done].
  apply preserves_modify. intros s Hs. cbv beta in *. rewrite <-Hs.
  apply structure_set_cls. unfold comp_structure in Hs.
  injection Hs as _ _ Hc _. by rewrite Hc.
Qed.

Lemma set_switch_structure k v c :
  structure (state_of (set_switch k v c)) = structure c.
Proof.
  unfold set_switch.
  destruct (components c !! k) as [comp|] eqn:E; [|done].
  destruct (Component.cls comp) eqn:Hcls; try done.
  - rewrite (state_of_at_component_Some _ _ _ _ E).
    apply (structure_insert _ comp); [done|].
    apply set_value_structure. by rewrite Hcls.
  - rewrite (state_of_at_component_Some _ _ _ _ E).
    apply (structure_insert _ comp); [done|].
    apply set_value_structure. by rewrite Hcls.
Qed.

Lemma get_probe_unchanged k c : state_of (get_probe k c) = c.
Proof.
  unfold get_probe. destruct (components c !! k) as [comp|]; [|done].
  by destruct (Component.cls comp).
Qed.

(** *** Well-formedness follows the structure *)

Lemma structure_lookup c c' k :
  structure c' = structure c →
  comp_structure <$> components c' !! k = comp_structure <$> components c !! k.
Proof.
  unfold structure. intros [= H _ _]. by rewrite <-!lookup_fmap, H.
Qed.

Lemma wf_structure c c' : structure c' = structure c → wf c → wf c'.
Proof.
  intros H [[Hnd Hdom] Hok].
  assert (order c' = order c) as Ho by (by injection H).
  split; [split|].
  - by rewrite Ho.
  - intros k. rewrite Ho, Hdom.
    rewrite <-(fmap_is_Some comp_structure (components c !! k)).
    rewrite <-(fmap_is_Some comp_structure (components c' !! k)).
    by rewrite (structure_lookup _ _ k H).
  - intros k comp' E. pose proof (structure_lookup _ _ k H) as Hk.
    rewrite E in Hk.
    destruct (components c !! k) as [comp|] eqn:E'; [|done].
    apply (comp_ok_structure comp); [|by apply (Hok k)].
    by apply (inj Some).
Qed.

Lemma add_wf n c : wf c → wf (state_of (add (construct n) c)).
Proof.
  intros [[Hnd Hdom] Hok]. unfold add. case_decide as Hin; [done|].
  simpl. split; [split|]; simpl.
  - apply NoDup_app. split; [done|]. split; [|apply NoDup_singleton].
    intros k Hk ->%list_elem_of_singleton. by apply Hin, Hdom.
  - intros k. rewrite elem_of_app, list_elem_of_singleton, lookup_insert.
    rewrite Hdom. case_decide as Hk.
    + subst. split; [by eauto | by right].
    + split; [by intros [?|?] | by left].
  - apply map_Forall_insert_2; [apply construct_ok|done].
Qed.

Lemma connect_wf a b d e c : wf c → wf (state_of (connect a b d e c)).
Proof. by intros [[Hnd Hdom] Hok]. Qed.

(** *** Trits *)

Lemma step_in_order_trits ks : preserves circuit_trits (step_in_order ks).
Proof.
  apply preserves_bind.
  - apply preserves_bind; [apply preserves_get|]. intros self.
    apply preserves_for_fold. intros inputs w.
    apply preserves_bind; [|intros v; apply preserves_ret].
    apply (at_component_forall comp_trits), preserves_get_in.
  - intros inputs. apply preserves_bind.
    + apply preserves_for_each. intros [[comp_id port_name] ds] _.
      apply (at_component_forall comp_trits), trits_store_port,
        resolve_wire_trit.
    + intros _. apply preserves_for_each. intros k _.
      apply (at_component_forall comp_trits), trits_Component_step.
Qed.

Lemma step_trits : preserves circuit_trits step.
Proof. intros c Hc. by apply step_in_order_trits. Qed.

Lemma toggle_switch_trits k : preserves circuit_trits (toggle_switch k).
Proof. apply (at_component_forall comp_trits), trits_toggle. Qed.

Lemma set_switch_trits k v : preserves circuit_trits (set_switch k v).
Proof.
  intros c Hc. unfold set_switch.
  destruct (components c !! k) as [comp|] eqn:E; [|done].
  destruct (Component.cls comp) eqn:Hcls; try done.
  - apply (at_component_forall comp_trits); [|done].
    apply preserves_bind; [|intros _; apply trits_set_out].
    apply preserves_modify. intros s Hs. apply comp_trits_set_cls; [|done].
    simpl. case_decide; lia.
  - apply (at_component_forall comp_trits); [|done].
    apply preserves_bind; [|intros _; apply trits_set_out].
    apply preserves_modify. intros s Hs. apply comp_trits_set_cls; [|done].
    apply clamp_t_trit.
Qed.

Lemma add_trits n : preserves circuit_trits (add (construct n)).
Proof.
  intros c Hc. unfold add. case_decide; [done|]. simpl.
  apply map_Forall_insert_2; [apply construct_trits|done].
Qed.

(** *** Every circuit built through the engine *)

Lemma call_wf op c : wf c → wf (state_of (call op c)).
Proof.
  intros Hc. destruct op as [n|a b d e| |k v|k|k]; simpl.
  - by apply add_wf.
  - by apply connect_wf.
  - apply (wf_structure c); [apply step_structure | done].
  - apply (wf_structure c); [apply set_switch_structure | done].
  - apply (wf_structure c); [apply toggle_switch_structure | done].
  - unfold mbind, M_bind. pose proof (get_probe_unchanged k c) as H.
    destruct (get_probe k c); simpl in *; by subst.
Qed.

Lemma call_trits op : preserves circuit_trits (call op).
Proof.
  destruct op as [n|a b d e| |k v|k|k]; simpl.
  - apply add_trits.
  - by intros c Hc.
  - apply step_trits.
  - apply set_switch_trits.
  - apply toggle_switch_trits.
  - intros c Hc. unfold mbind, M_bind.
    pose proof (get_probe_unchanged k c) as H.
    destruct (get_probe k c); simpl in *; by subst.
Qed.

Lemma calls_app ops1 ops2 c :
  calls (ops1 ++ ops2) c = calls ops2 (calls ops1 c).
Proof. unfold calls. by rewrite foldl_app. Qed.

Lemma calls_invariant (P : Circuit → Prop) ops c :
  (∀ op, preserves P (call op)) → P c → P (calls ops c).
Proof.
  intros Hop. revert c. induction ops as [|op ops IH]; intros c Hc; [done|].
  simpl. apply IH. by apply Hop.
Qed.

Lemma Circuit_init_wf : wf Circuit_init.
Proof.
  split; [split|]; simpl.
  - apply NoDup_nil_2.
  - intros k. rewrite elem_of_nil, lookup_empty. split; [done|].
    by intros [??].
  - apply map_Forall_empty.
Qed.

Lemma reachable_wf c : reachable c → wf c.
Proof.
  intros [ops ->]. apply calls_invariant; [|apply Circuit_init_wf].
  intros op c Hc. by apply call_wf.
Qed.

Lemma reachable_trits c : reachable c → circuit_trits c.
Proof.
  intros [ops ->]. apply calls_invariant; [apply call_trits|].
  apply map_Forall_empty.
Qed.

Lemma reachable_call op c : reachable c → reachable (state_of (call op c)).
Proof.
  intros [ops ->]. exists (ops ++ [op]). by rewrite calls_app.
Qed.

(** ** The three loops of [step] *)

(** *** Ports that exist *)

Lemma port_value_comp c d p :
  port_value c d p = components c !! d ≫= λ comp, comp_port comp p.
Proof.
  unfold port_value, comp_port. destruct (components c !! d) as [comp|]; [|done].
  simpl. by destruct (Component.ports comp !! p).
Qed.

Lemma port_value_None c d p :
  port_value c d p = None → ∃ k, missing c d p k.
Proof.
  unfold port_value, missing.
  destruct (components c !! d) as [comp|] eqn:E; simpl; [|by eauto].
  destruct (Component.ports comp !! p) eqn:Ep; simpl; [done|].
  intros _. exists p. right. eauto.
Qed.

Lemma missing_port_value c d p k : missing c d p k → port_value c d p = None.
Proof.
  unfold port_value. intros [[_ ->]|[_ (comp & -> & Hp)]]; [done|].
  simpl. by rewrite Hp.
Qed.

Lemma port_set_None comp p :
  port_set comp !! p = None ↔ Component.ports comp !! p = None.
Proof. rewrite port_set_lookup. apply fmap_None. Qed.

Lemma missing_structure c c' d p k :
  structure c' = structure c → missing c d p k → missing c' d p k.
Proof.
  intros H. pose proof (structure_lookup _ _ d H) as Hd.
  intros [[-> Hn]|[-> (comp & Hc & Hp)]].
  - left. split; [done|]. rewrite Hn in Hd. by apply fmap_None in Hd.
  - right. split; [done|]. rewrite Hc in Hd.
    destruct (components c' !! d) as [comp'|]; [|done].
    exists comp'. split; [done|]. apply (inj Some) in Hd.
    apply port_set_None. apply port_set_None in Hp.
    unfold comp_structure in Hd. injection Hd as _ _ _ Hps. by rewrite Hps.
Qed.

Lemma port_exists_structure c c' d p :
  structure c' = structure c →
  is_Some (port_value c' d p) ↔ is_Some (port_value c d p).
Proof.
  intros H. rewrite <-!not_eq_None_Some.
  split; intros Hn Hv; apply Hn;
    destruct (port_value_None _ _ _ Hv) as [k Hk];
    apply (missing_port_value _ _ _ k);
    by eapply missing_structure.
Qed.

(** *** First loop *)

Lemma read_src_Some c d p v :
  port_value c d p = Some v → at_component d (get_in p) c = Ok v c.
Proof.
  rewrite port_value_comp, at_component_get_in.
  destruct (components c !! d) as [comp|]; [|done]. simpl. by intros ->.
Qed.

Lemma read_src_None c d p :
  port_value c d p = None →
  ∃ k, at_component d (get_in p) c = Raise (KeyError k) c ∧ missing c d p k.
Proof.
  rewrite port_value_comp, at_component_get_in. unfold missing.
  destruct (components c !! d) as [comp|] eqn:E; simpl; [|by eauto].
  intros Hp. rewrite Hp. exists p. split; [done|]. right.
  split; [done|]. exists comp. split; [done|].
  unfold comp_port in Hp. by apply fmap_None in Hp.
Qed.

Lemma gather_cons c w ws acc :
  gather c (w :: ws) acc =
    gather c ws (match src_value c w with
                 | Some v => setdefault_append (dst_comp w, dst_port w) v acc
                 | None => acc
                 end).
Proof. done. Qed.

Lemma collect_loop c ws acc :
  match for_fold ws (λ inputs w,
          val ← at_component (src_comp w) (get_in (src_port w));
          mret (setdefault_append (dst_comp w, dst_port w) val inputs)) acc c
  with
  | Ok inputs s =>
      s = c ∧ Forall (λ w, is_Some (src_value c w)) ws ∧
      inputs = gather c ws acc
  | Raise e s =>
      s = c ∧ ∃ k w, e = KeyError k ∧ w ∈ ws ∧
                     missing c (src_comp w) (src_port w) k
  end.
Proof.
  revert acc. induction ws as [|w ws IH]; intros acc; [by simpl|].
  cbn [for_fold].
  destruct (src_value c w) as [v|] eqn:Hv.
  - rewrite (bind_Ok _ _ _
               (setdefault_append (dst_comp w, dst_port w) v acc) c)
      by (by rewrite (bind_Ok _ _ _ _ _ (read_src_Some _ _ _ _ Hv))).
    specialize (IH (setdefault_append (dst_comp w, dst_port w) v acc)).
    destruct (for_fold _ _ _ c) as [inputs s|e s].
    + destruct IH as (-> & Hall & ->). split; [done|]. split.
      * constructor; [|done]. by rewrite Hv.
      * by rewrite gather_cons, Hv.
    + destruct IH as (-> & k & w' & -> & Hw' & Hk). split; [done|].
      exists k, w'. split; [done|]. split; [by right|done].
  - destruct (read_src_None _ _ _ Hv) as (k & Hr & Hk).
    rewrite (bind_Raise _ _ _ (KeyError k) c)
      by (by rewrite (bind_Raise _ _ _ _ _ Hr)).
    split; [done|]. exists k, w. split; [done|]. split; [by left|done].
Qed.

Lemma collect_drivers_spec c :
  match collect_drivers c with
  | Ok inputs s =>
      s = c ∧ Forall (λ w, is_Some (src_value c w)) (wires c) ∧
      inputs = gather c (wires c) []
  | Raise e s =>
      s = c ∧ ∃ k w, e = KeyError k ∧ w ∈ wires c ∧
                     missing c (src_comp w) (src_port w) k
  end.
Proof. apply collect_loop. Qed.

(** *** Second loop *)

Lemma write_dst_Some c d p v :
  is_Some (port_value c d p) →
  at_component d (store_port p v) c = Ok () (poke d p v c).
Proof.
  rewrite port_value_comp, at_component_store_port.
  destruct (components c !! d) as [comp|]; simpl; [|by intros [??]].
  by intros [x ->].
Qed.

Lemma write_dst_None c d p v :
  port_value c d p = None →
  ∃ k, at_component d (store_port p v) c = Raise (KeyError k) c ∧
       missing c d p k.
Proof.
  rewrite port_value_comp, at_component_store_port. unfold missing.
  destruct (components c !! d) as [comp|] eqn:E; simpl; [|by eauto].
  intros Hp. rewrite Hp. exists p. split; [done|]. right.
  split; [done|]. exists comp. split; [done|].
  unfold comp_port in Hp. by apply fmap_None in Hp.
Qed.

Lemma poke_structure d p v c : structure (poke d p v c) = structure c.
Proof.
  unfold structure, poke. simpl. do 2 f_equal. apply map_eq. intros j.
  rewrite !lookup_fmap, lookup_alter. case_decide; [|done]. subst.
  destruct (components c !! j); [|done]. simpl.
  by rewrite structure_write_port.
Qed.

Lemma write_all_cons d p ds inputs c :
  write_all (((d, p), ds) :: inputs) c =
    write_all inputs (poke d p (resolve_wire ds) c).
Proof. done. Qed.

Lemma write_all_structure inputs c :
  structure (write_all inputs c) = structure c.
Proof.
  revert c. induction inputs as [|[[d p] ds] inputs IH]; intros c; [done|].
  by rewrite write_all_cons, IH, poke_structure.
Qed.

Lemma write_loop inputs c :
  match write_inputs inputs c with
  | Ok _ s =>
      s = write_all inputs c ∧
      Forall (λ key, is_Some (port_value c key.1 key.2)) inputs.*1
  | Raise e s =>
      structure s = structure c ∧
      ∃ k key, e = KeyError k ∧ key ∈ inputs.*1 ∧ missing c key.1 key.2 k
  end.
Proof.
  revert c. induction inputs as [|[[d p] ds] inputs IH]; intros c; [done|].
  unfold write_inputs in *. simpl.
  destruct (port_value c d p) as [x|] eqn:Hx.
  - rewrite (bind_Ok _ _ _ () (poke d p (resolve_wire ds) c))
      by (apply write_dst_Some; by rewrite Hx).
    specialize (IH (poke d p (resolve_wire ds) c)).
    pose proof (poke_structure d p (resolve_wire ds) c) as Hps.
    destruct (for_each inputs _ _) as [[] s|e s].
    + destruct IH as [-> Hall]. split; [done|].
      constructor; [simpl; by rewrite Hx|].
      eapply Forall_impl; [exact Hall|]. intros key. simpl.
      by rewrite port_exists_structure.
    + destruct IH as (Hs & k & key & -> & Hkey & Hk).
      split; [by rewrite Hs|]. exists k, key. split; [done|].
      split; [by right|]. eapply missing_structure; [|exact Hk].
      by rewrite Hps.
  - destruct (write_dst_None c d p (resolve_wire ds) Hx) as (k & Hr & Hk).
    rewrite (bind_Raise _ _ _ _ _ Hr). split; [done|].
    exists k, (d, p). split; [done|]. split; [by left|done].
Qed.

(** *** Third loop *)

Lemma all_ok_structure c c' : structure c' = structure c → all_ok c → all_ok c'.
Proof.
  intros H Hok k comp' E. pose proof (structure_lookup _ _ k H) as Hk.
  rewrite E in Hk.
  destruct (components c !! k) as [comp|] eqn:E'; [|done].
  apply (comp_ok_structure comp); [|by apply (Hok k)].
  by apply (inj Some).
Qed.

Lemma step_at_structure k c : structure (step_at k c) = structure c.
Proof.
  unfold structure, step_at. simpl. do 2 f_equal. apply map_eq. intros j.
  rewrite !lookup_fmap, lookup_alter. case_decide; [|done]. subst.
  destruct (components c !! j); [|done]. simpl.
  by rewrite stepped_structure.
Qed.

Lemma step_all_cons k ks c : step_all (k :: ks) c = step_all ks (step_at k c).
Proof. done. Qed.

Lemma step_all_structure ks c : structure (step_all ks c) = structure c.
Proof.
  revert c. induction ks as [|k ks IH]; intros c; [done|].
  by rewrite step_all_cons, IH, step_at_structure.
Qed.

Lemma components_is_Some_structure c c' k :
  structure c' = structure c →
  is_Some (components c' !! k) ↔ is_Some (components c !! k).
Proof.
  intros H.
  rewrite <-(fmap_is_Some comp_structure (components c !! k)).
  rewrite <-(fmap_is_Some comp_structure (components c' !! k)).
  by rewrite (structure_lookup _ _ k H).
Qed.

Lemma step_loop ks c :
  all_ok c → Forall (λ k, is_Some (components c !! k)) ks →
  step_components ks c = Ok () (step_all ks c).
Proof.
  revert c. induction ks as [|k ks IH]; intros c Hok Hks; [done|].
  apply Forall_cons in Hks as [[comp Hk] Hks].
  unfold step_components in *. simpl.
  rewrite (bind_Ok _ _ _ () (step_at k c)).
  - apply IH.
    + eapply all_ok_structure; [apply step_at_structure|done].
    + eapply Forall_impl; [exact Hks|]. intros j. simpl.
      by rewrite (components_is_Some_structure c (step_at k c))
        by apply step_at_structure.
  - apply (at_component_step _ _ comp); [done|]. by apply (Hok k).
Qed.

(** *** The dictionary of drivers *)

Lemma setdefault_append_keys key v inputs k :
  k ∈ (setdefault_append key v inputs).*1 ↔ k = key ∨ k ∈ inputs.*1.
Proof.
  induction inputs as [|[k' ds] inputs IH]; simpl.
  - rewrite list_elem_of_singleton, elem_of_nil. tauto.
  - case_decide; simpl; rewrite !elem_of_cons; [subst|rewrite IH]; tauto.
Qed.

Lemma setdefault_append_NoDup key v inputs :
  NoDup inputs.*1 → NoDup (setdefault_append key v inputs).*1.
Proof.
  induction inputs as [|[k' ds] inputs IH]; simpl; intros Hnd.
  - apply NoDup_singleton.
  - apply NoDup_cons in Hnd as [Hk' Hnd]. case_decide; simpl.
    + by apply NoDup_cons.
    + apply NoDup_cons. split; [|by apply IH].
      rewrite setdefault_append_keys. intros [->|?]; done.
Qed.

Lemma lookup_inputs_None key inputs :
  lookup_inputs key inputs = None ↔ key ∉ inputs.*1.
Proof.
  induction inputs as [|[k' ds] inputs IH]; simpl.
  - split; [intros _; apply not_elem_of_nil|done].
  - rewrite not_elem_of_cons. case_decide; [subst|]; split; try done.
    + by intros [? _].
    + intros H'. split; [done|]. by apply IH.
    + intros [_ H']. by apply IH.
Qed.

Lemma lookup_setdefault_append key key' v inputs :
  lookup_inputs key' (setdefault_append key v inputs) =
    if decide (key = key')
    then Some (default [] (lookup_inputs key' inputs) ++ [v])
    else lookup_inputs key' inputs.
Proof.
  induction inputs as [|[k ds] inputs IH]; simpl.
  - by repeat case_decide.
  - repeat (case_decide; simpl; subst); try done.
Qed.

Lemma gather_keys c ws acc key :
  key ∈ (gather c ws acc).*1 ↔
    key ∈ acc.*1 ∨
    ∃ w, w ∈ ws ∧ (dst_comp w, dst_port w) = key ∧ is_Some (src_value c w).
Proof.
  revert acc. induction ws as [|w ws IH]; intros acc.
  - simpl. split; [by left|]. intros [?|(w & Hw & _)]; [done|].
    by apply elem_of_nil in Hw.
  - rewrite gather_cons, IH. destruct (src_value c w) as [v|] eqn:Hv.
    + rewrite setdefault_append_keys. split.
      * intros [[->|?]|(w' & Hw' & Hd & Hs)]; [|by left|].
        -- right. exists w. rewrite Hv. split; [by left|]. by eauto.
        -- right. exists w'. split; [by right|done].
      * intros [?|(w' & Hw' & Hd & Hs)]; [by left; right|].
        apply elem_of_cons in Hw' as [->|Hw']; [by left; left|].
        right. by exists w'.
    + split.
      * intros [?|(w' & Hw' & Hd & Hs)]; [by left|].
        right. exists w'. split; [by right|done].
      * intros [?|(w' & Hw' & Hd & Hs)]; [by left|].
        apply elem_of_cons in Hw' as [->|Hw'].
        -- rewrite Hv in Hs. by destruct Hs.
        -- right. by exists w'.
Qed.

Lemma gather_NoDup c ws acc : NoDup acc.*1 → NoDup (gather c ws acc).*1.
Proof.
  revert acc. induction ws as [|w ws IH]; intros acc Hnd; [done|].
  rewrite gather_cons. apply IH.
  destruct (src_value c w); [by apply setdefault_append_NoDup|done].
Qed.

Lemma gather_lookup_Some c ws acc d p ds :
  lookup_inputs (d, p) (gather c ws acc) = Some ds →
  ds = default [] (lookup_inputs (d, p) acc) ++
       omap (src_value c)
         (filter (λ w, dst_comp w = d ∧ dst_port w = p) ws).
Proof.
  revert acc. induction ws as [|w ws IH]; intros acc.
  - simpl. intros ->. simpl. by rewrite app_nil_r.
  - rewrite gather_cons. intros H. apply IH in H as ->.
    rewrite filter_cons.
    destruct (src_value c w) as [v|] eqn:Hv.
    + rewrite lookup_setdefault_append.
      destruct (decide ((dst_comp w, dst_port w) = (d, p))) as [He|Hne].
      * injection He as <- <-. rewrite decide_True by done.
        simpl. rewrite Hv. by rewrite <-app_assoc.
      * rewrite decide_False; [done|]. intros [<- <-]. by apply Hne.
    + case_decide; [|done]. simpl. by rewrite Hv.
Qed.

Lemma gather_drivers c d p :
  lookup_inputs (d, p) (gather c (wires c) []) =
    if decide (omap (src_value c) (driving c d p) = [])
    then None else Some (drivers c d p).
Proof.
  destruct (lookup_inputs _ _) as [ds|] eqn:E.
  - pose proof (gather_lookup_Some _ _ _ _ _ _ E) as ->. simpl.
    fold (driving c d p). fold (drivers c d p).
    rewrite decide_False; [done|]. intros Hnil.
    assert ((d, p) ∈ (gather c (wires c) []).*1) as Hin.
    { apply dec_stable. intros Hn. apply lookup_inputs_None in Hn.
      by rewrite Hn in E. }
    apply gather_keys in Hin as [Hin|(w & Hw & Hd & [v Hv])];
      [by apply elem_of_nil in Hin|].
    assert (v ∈ omap (src_value c) (driving c d p)).
    { apply list_elem_of_omap. exists w. split; [|done].
      apply list_elem_of_filter. injection Hd as <- <-. by split. }
    unfold drivers in Hnil. rewrite Hnil in H. by apply elem_of_nil in H.
  - rewrite decide_True; [done|].
    apply lookup_inputs_None in E.
    destruct (omap (src_value c) (driving c d p)) as [|v l] eqn:El; [done|].
    exfalso. apply E. apply gather_keys. right.
    assert (v ∈ omap (src_value c) (driving c d p)) as Hv
      by (rewrite El; by left).
    apply list_elem_of_omap in Hv as (w & Hw & Hv).
    apply list_elem_of_filter in Hw as [[<- <-] Hw].
    exists w. split; [done|]. split; [done|]. by rewrite Hv.
Qed.

(** *** Port values after the writes and the transfer functions *)

Lemma port_value_poke d p v c d' p' :
  port_value (poke d p v c) d' p' =
    if decide (d = d' ∧ p = p') then (λ _, v) <$> port_value c d' p'
    else port_value c d' p'.
Proof.
  rewrite !port_value_comp. unfold poke. simpl. rewrite lookup_alter.
  destruct (decide (d = d')) as [->|Hd].
  - destruct (components c !! d') as [comp|]; simpl.
    + rewrite comp_port_write.
      destruct (decide (p = p')) as [->|Hp].
      * by rewrite decide_True.
      * rewrite decide_False; [done|]. by intros [_ ?].
    + by case_decide.
  - rewrite decide_False; [done|]. by intros [? _].
Qed.

Lemma port_value_write_all inputs c d p :
  NoDup inputs.*1 →
  port_value (write_all inputs c) d p =
    match lookup_inputs (d, p) inputs with
    | Some ds => (λ _, resolve_wire ds) <$> port_value c d p
    | None => port_value c d p
    end.
Proof.
  revert c. induction inputs as [|[[d' p'] ds] inputs IH]; intros c Hnd;
    [done|].
  apply NoDup_cons in Hnd as [Hk Hnd]. simpl in Hk.
  rewrite write_all_cons, IH by done. simpl. rewrite port_value_poke.
  destruct (decide ((d', p') = (d, p))) as [He|Hne].
  - injection He as -> ->. rewrite decide_True by done.
    apply lookup_inputs_None in Hk. by rewrite Hk.
  - rewrite decide_False; [done|]. intros [-> ->]. by apply Hne.
Qed.

Lemma port_value_step_at k c d p :
  p ≠ "out" → p ≠ "so" → p ≠ "co" →
  port_value (step_at k c) d p = port_value c d p.
Proof.
  intros H1 H2 H3. rewrite !port_value_comp. unfold step_at. simpl.
  rewrite lookup_alter. case_decide; [|done]. subst.
  destruct (components c !! d); [|done]. simpl.
  by apply stepped_other_port.
Qed.

Lemma port_value_step_all ks c d p :
  p ≠ "out" → p ≠ "so" → p ≠ "co" →
  port_value (step_all ks c) d p = port_value c d p.
Proof.
  intros H1 H2 H3. revert c. induction ks as [|k ks IH]; intros c; [done|].
  by rewrite step_all_cons, IH, port_value_step_at.
Qed.

Lemma components_step_all ks c k :
  NoDup ks →
  components (step_all ks c) !! k =
    if decide (k ∈ ks) then stepped <$> components c !! k
    else components c !! k.
Proof.
  revert c. induction ks as [|j ks IH]; intros c Hnd.
  - rewrite decide_False; [done|]. apply not_elem_of_nil.
  - apply NoDup_cons in Hnd as [Hj Hnd].
    rewrite step_all_cons, IH by done. unfold step_at. simpl.
    rewrite lookup_alter.
    destruct (decide (j = k)) as [->|Hne].
    + rewrite decide_False by done. rewrite decide_True; [done|by left].
    + destruct (decide (k ∈ ks)) as [Hin|Hin].
      * rewrite decide_True; [done|by right].
      * rewrite decide_False; [done|].
        rewrite not_elem_of_cons. by split.
Qed.

Lemma step_at_comm k1 k2 c :
  step_at k1 (step_at k2 c) = step_at k2 (step_at k1 c).
Proof.
  unfold step_at, set_components. simpl. f_equal.
  destruct (decide (k1 = k2)) as [->|Hne]; [done|].
  by apply alter_alter_ne.
Qed.

Lemma step_all_perm ks ks' c : ks ≡ₚ ks' → step_all ks c = step_all ks' c.
Proof.
  intros Hp. revert c.
  induction Hp as [|k ks ks' Hp IH|k1 k2 ks|ks1 ks2 ks3 H1 IH1 H2 IH2];
    intros c.
  - done.
  - by rewrite !step_all_cons, IH.
  - by rewrite !step_all_cons, step_at_comm.
  - by rewrite IH1, IH2.
Qed.

(** ** [step] as a whole *)

Lemma missing_not_valid c w k : missing_key c w k → ¬ wire_valid c w.
Proof.
  intros [H|H] [[x Hx] [y Hy]]; apply missing_port_value in H; congruence.
Qed.

(** The first two loops. *)
Lemma resolve_loops_spec c :
  match (collect_drivers ≫= write_inputs) c with
  | Ok _ s => Forall (wire_valid c) (wires c) ∧ s = resolved c
  | Raise e s => ∃ k w, e = KeyError k ∧ w ∈ wires c ∧ missing_key c w k
  end.
Proof.
  unfold mbind, M_bind.
  pose proof (collect_drivers_spec c) as H1.
  destruct (collect_drivers c) as [inputs s1|e s1].
  - destruct H1 as (-> & Hsrc & ->).
    pose proof (write_loop (gather c (wires c) []) c) as H2.
    destruct (write_inputs _ c) as [[] s2|e s2].
    + destruct H2 as [-> Hdst]. split; [|done].
      apply Forall_forall. intros w Hw. split.
      * by apply (proj1 (Forall_forall _ _) Hsrc).
      * apply (proj1 (Forall_forall _ _) Hdst (dst_comp w, dst_port w)).
        apply gather_keys. right. exists w. split; [done|].
        split; [done|]. by apply (proj1 (Forall_forall _ _) Hsrc).
    + destruct H2 as (_ & k & [d p] & -> & Hkey & Hk).
      apply gather_keys in Hkey as [Hkey|(w & Hw & Hd & _)];
        [by apply elem_of_nil in Hkey|].
      exists k, w. split; [done|]. split; [done|]. right.
      injection Hd as -> ->. done.
  - destruct H1 as (-> & k & w & -> & Hw & Hk).
    exists k, w. split; [done|]. split; [done|]. by left.
Qed.

Lemma step_in_order_loops ks c :
  step_in_order ks c =
    match (collect_drivers ≫= write_inputs) c with
    | Ok _ s => step_components ks s
    | Raise e s => Raise e s
    end.
Proof.
  unfold step_in_order, mbind, M_bind.
  destruct (collect_drivers c) as [inputs s1|e s1]; [|done].
  by destruct (write_inputs inputs s1) as [[] s2|e s2].
Qed.

Lemma resolved_structure c : structure (resolved c) = structure c.
Proof. apply write_all_structure. Qed.

Lemma step_in_order_spec ks c :
  all_ok c → Forall (λ k, is_Some (components c !! k)) ks →
  match step_in_order ks c with
  | Ok _ s =>
      Forall (wire_valid c) (wires c) ∧ s = step_all ks (resolved c)
  | Raise e s =>
      ∃ k w, e = KeyError k ∧ w ∈ wires c ∧ missing_key c w k
  end.
Proof.
  intros Hok Hks. rewrite step_in_order_loops.
  pose proof (resolve_loops_spec c) as H.
  destruct ((collect_drivers ≫= write_inputs) c) as [[] s|e s]; [|done].
  destruct H as [Hall ->]. rewrite step_loop; [done| |].
  - eapply all_ok_structure; [apply resolved_structure|done].
  - eapply Forall_impl; [exact Hks|]. intros j. simpl.
    by rewrite (components_is_Some_structure c (resolved c))
      by apply resolved_structure.
Qed.

Lemma wf_keys c : wf c → Forall (λ k, is_Some (components c !! k)) (order c).
Proof. intros [[_ Hdom] _]. apply Forall_forall. intros k. apply Hdom. Qed.

Lemma step_spec c :
  wf c →
  match step c with
  | Ok _ s =>
      Forall (wire_valid c) (wires c) ∧ s = step_all (order c) (resolved c)
  | Raise e s =>
      ∃ k w, e = KeyError k ∧ w ∈ wires c ∧ missing_key c w k
  end.
Proof.
  intros Hwf. apply step_in_order_spec; [apply Hwf|by apply wf_keys].
Qed.

Lemma step_Ok c c' :
  wf c → step c = Ok () c' →
  Forall (wire_valid c) (wires c) ∧ c' = step_all (order c) (resolved c).
Proof.
  intros Hwf H. pose proof (step_spec c Hwf) as Hs. rewrite H in Hs. done.
Qed.

Lemma step_Ok_iff c :
  wf c → Forall (wire_valid c) (wires c) ↔ ∃ c', step c = Ok () c'.
Proof.
  intros Hwf. pose proof (step_spec c Hwf) as H.
  destruct (step c) as [[] s|e s].
  - destruct H as [Hall _]. split; [intros _; by eexists | by intros _].
  - destruct H as (k & w & -> & Hw & Hk). split; [|by intros [??]].
    intros Hall. exfalso. apply (missing_not_valid _ _ _ Hk).
    by apply (proj1 (Forall_forall _ _) Hall).
Qed.

Lemma step_in_order_perm ks c :
  wf c → ks ≡ₚ order c → step_in_order ks c = step c.
Proof.
  intros Hwf Hp. unfold step. rewrite !step_in_order_loops.
  pose proof (resolve_loops_spec c) as H.
  destruct ((collect_drivers ≫= write_inputs) c) as [[] s|e s]; [|done].
  destruct H as [_ ->].
  assert (all_ok (resolved c)) as Hok.
  { eapply all_ok_structure; [apply resolved_structure|apply Hwf]. }
  assert (Forall (λ k, is_Some (components (resolved c) !! k)) (order c))
    as Hks.
  { eapply Forall_impl; [by apply wf_keys|]. intros j. simpl.
    by rewrite (components_is_Some_structure c (resolved c))
      by apply resolved_structure. }
  rewrite !step_loop; [|done..|by rewrite Hp].
  f_equal. by apply step_all_perm.
Qed.

(** C3.  The order of the third loop of [step] is not observable: on a
    circuit built through the engine, running the transfer functions in
    any permutation of the dictionary order gives the same outcome as
    [step], that is the same port values, latch memories and probe
    observations (and the same exception when a wire endpoint is
    missing). *)
Theorem step_order_irrelevant (c : Circuit) (ks : list string) :
  reachable c → ks ≡ₚ order c → step_in_order ks c = step c.
Proof. intros Hc. apply step_in_order_perm. by apply reachable_wf. Qed.

Lemma step_order_irrelevant_witness :
  step_in_order ["p1"; "l1"; "t1"; "nor1"; "and1"; "sw2"; "sw1"]
      (state_of (smoke_build Circuit_init))
    = step (state_of (smoke_build Circuit_init)).
Proof.
  apply step_order_irrelevant.
  - exists smoke_calls.
    by vm_compute.
  - change (order (state_of (smoke_build Circuit_init)))
      with (reverse ["p1"; "l1"; "t1"; "nor1"; "and1"; "sw2"; "sw1"]).
    symmetry. apply reverse_Permutation.
Defined.

(** C9.  [connect] never fails and appends exactly the wire given.  On a
    circuit built through the engine [step] returns if and only if every
    wire names existing ports of existing components at both ends;
    otherwise it raises [KeyError] (the unknown component / unknown port
    error) on a component id or port name that some wire of the circuit
    names and that is missing.  In the two examples [connect] accepted
    the dangling wire and the failure shows at the next [step]. *)
Theorem step_fails_on_missing_endpoint :
  (∀ (c : Circuit) (a b d e : string),
     connect a b d e c =
       Ok () (mkCircuit (components c) (order c)
                        (wires c ++ [mkWire a b d e]))) ∧
  (∀ c : Circuit, reachable c →
     Forall (wire_valid c) (wires c) ↔ ∃ c', step c = Ok () c') ∧
  (∀ (c c' : Circuit) (e : exn), reachable c →
     step c = Raise e c' →
     ∃ k w, e = KeyError k ∧ w ∈ wires c ∧ missing_key c w k ∧
            ¬ wire_valid c w) ∧
  (let c := state_of ((add (Probe "p");; connect "ghost" "out" "p" "in";;
                       connect "p" "in" "p" "nowhere") Circuit_init) in
   returned ((add (Probe "p");; connect "ghost" "out" "p" "in";;
              connect "p" "in" "p" "nowhere") Circuit_init) = Some () ∧
   raised (step c) = Some (KeyError "ghost")) ∧
  (let c := state_of ((add (Probe "p");; connect "p" "in" "p" "nowhere")
                        Circuit_init) in
   raised (step c) = Some (KeyError "nowhere")).
Proof.
  split; [done|]. split; [|split; [|by vm_compute]].
  - intros c Hc. by apply step_Ok_iff, reachable_wf.
  - intros c c' e Hc He.
    pose proof (step_spec c (reachable_wf c Hc)) as H. rewrite He in H.
    destruct H as (k & w & -> & Hw & Hk). exists k, w.
    split; [done|]. split; [done|]. split; [done|].
    by eapply missing_not_valid.
Qed.

Lemma step_fails_on_missing_endpoint_witness :
  (∃ c', step (state_of (smoke_build Circuit_init)) = Ok () c') ∧
  ∃ k w, KeyError "ghost" = KeyError k ∧
    w ∈ [mkWire "ghost" "out" "p" "in"] ∧
    missing_key (calls [CallAdd (NewProbe "p");
                        CallConnect "ghost" "out" "p" "in"] Circuit_init)
      w k.
Proof.
  destruct step_fails_on_missing_endpoint as (_ & Hiff & Hraise & _).
  split.
  - apply Hiff.
    + exists smoke_calls.
      by vm_compute.
    + repeat (apply Forall_cons; split;
                [split; vm_compute; by eexists|]).
      apply Forall_nil_2.
  - destruct (Hraise (calls [CallAdd (NewProbe "p");
                             CallConnect "ghost" "out" "p" "in"]
                        Circuit_init)
                (calls [CallAdd (NewProbe "p");
                        CallConnect "ghost" "out" "p" "in"] Circuit_init)
                (KeyError "ghost")) as (k & w & H1 & H2 & H3 & _).
    + by eexists.
    + by vm_compute.
    + by exists k, w.
Defined.

(** C6.  Trits stay trits.  [clamp_t] maps every integer into {-1,0,1}
    (and 2, -5, 0 to 1, -1, 0); what [set_out] writes is the clamped
    value; [resolve_wire] only yields -1, 0 or 1; every constructor makes
    a component whose port values and instance attributes are trits (0 or
    1 for the binary switch); [toggle], [set_switch] and [step] keep that
    property, whether they return or raise; so it holds in every circuit
    built through the engine. *)
Theorem trits_everywhere :
  (∀ v : Z, is_trit (clamp_t v)) ∧
  clamp_t 2 = 1 ∧ clamp_t (-5) = -1 ∧ clamp_t 0 = 0 ∧
  (∀ (name : string) (v : Z) (comp comp' : Component),
     set_out name v comp = Ok () comp' →
     comp_port comp' name = Some (clamp_t v)) ∧
  (∀ drivers : list TValue, is_trit (resolve_wire drivers)) ∧
  (∀ n : New, comp_trits (construct n)) ∧
  (∀ c : Circuit, circuit_trits c →
     (∀ k, circuit_trits (state_of (toggle_switch k c))) ∧
     (∀ k v, circuit_trits (state_of (set_switch k v c))) ∧
     circuit_trits (state_of (step c))) ∧
  (∀ c : Circuit, reachable c → circuit_trits c).
Proof.
  split; [exact clamp_t_trit|]. do 3 (split; [done|]).
  split.
  { intros name v comp comp' H.
    destruct (comp_port comp name) as [x|] eqn:Hx.
    - rewrite set_out_Some in H by (by rewrite Hx). injection H as <-.
      apply comp_port_write_eq. by rewrite Hx.
    - unfold set_out in H. by rewrite store_port_None in H. }
  split; [exact resolve_wire_trit|].
  split; [exact construct_trits|].
  split; [|exact reachable_trits].
  intros c Hc. split; [|split].
  - intros k. by apply toggle_switch_trits.
  - intros k v. by apply set_switch_trits.
  - by apply step_trits.
Qed.

Lemma trits_everywhere_witness :
  circuit_trits (state_of (smoke_run Circuit_init)) ∧
  comp_port (state_of (set_out "out" 7 (TNOT "n"))) "out" = Some 1.
Proof.
  destruct trits_everywhere as (_ & _ & _ & _ & Hout & _ & _ & _ & Hreach).
  split.
  - apply Hreach.
    exists (smoke_calls ++ [CallStep; CallGetProbe "p1"; CallToggle "sw1";
                           CallToggle "sw2"; CallStep; CallGetProbe "p1"]).
    by vm_compute.
  - apply (Hout "out" 7 (TNOT "n")). by vm_compute.
Defined.

(** *** A probe that no step has reached *)

Lemma fresh_probe_kept id op c :
  op ≠ CallStep →
  (∃ comp, components c !! id = Some comp ∧
           Component.cls comp = Cls.Probe 0) →
  ∃ comp, components (state_of (call op c)) !! id = Some comp ∧
          Component.cls comp = Cls.Probe 0.
Proof.
  intros Hop (comp & Hc & Hcls).
  destruct op as [n|a b d e| |k v|k|k]; simpl; [..|done| | |].
  - unfold add. case_decide as Hin; [by eauto|]. simpl.
    rewrite lookup_insert_ne; [by eauto|]. intros Heq. apply Hin.
    by rewrite Heq, Hc.
  - by eauto.
  - unfold set_switch.
    destruct (components c !! k) as [comp'|] eqn:E; [|by eauto].
    destruct (decide (k = id)) as [->|Hne].
    + rewrite Hc in E. injection E as <-. rewrite Hcls. by eauto.
    + destruct (Component.cls comp'); try (by eauto);
        rewrite (state_of_at_component_Some _ _ _ _ E); simpl;
        rewrite lookup_insert_ne by done; by eauto.
  - unfold toggle_switch. rewrite state_of_at_component. simpl.
    rewrite lookup_alter.
    case_decide; [|by eauto]. subst. rewrite Hc. simpl.
    eexists. split; [done|]. unfold toggle. by rewrite Hcls.
  - unfold mbind, M_bind. pose proof (get_probe_unchanged k c) as H.
    destruct (get_probe k c); simpl in *; subst; by eauto.
Qed.

Lemma fresh_probe_reads_0 id ops c :
  CallStep ∉ ops →
  (∃ comp, components c !! id = Some comp ∧
           Component.cls comp = Cls.Probe 0) →
  get_probe id (calls ops c) = Ok 0 (calls ops c).
Proof.
  revert c. induction ops as [|op ops IH]; intros c Hops Hc.
  - destruct Hc as (comp & Hc & Hcls). unfold get_probe. simpl.
    by rewrite Hc, Hcls.
  - apply not_elem_of_cons in Hops as [Hop Hops]. simpl. apply IH; [done|].
    apply fresh_probe_kept; [by intros ->|done].
Qed.

Lemma structure_components c c' k comp' :
  structure c' = structure c → components c' !! k = Some comp' →
  ∃ comp, components c !! k = Some comp ∧
          comp_structure comp' = comp_structure comp.
Proof.
  intros H E. pose proof (structure_lookup _ _ k H) as Hk. rewrite E in Hk.
  destruct (components c !! k) as [comp|]; [|done].
  exists comp. split; [done|]. by apply (inj Some).
Qed.

(** C10.  [step], [set_switch], [toggle] and [get_probe] keep the
    structure of the circuit, whether they return or raise: the keys of
    the component map and their order, the wires, and for every component
    its id, type, class and set of ports.  [get_probe] changes nothing at
    all, and a probe that has just been added reads 0 as long as no
    [step] has been called. *)
Theorem structure_unchanged (c : Circuit) :
  structure (state_of (step c)) = structure c ∧
  (∀ k v, structure (state_of (set_switch k v c)) = structure c) ∧
  (∀ k, structure (state_of (toggle_switch k c)) = structure c) ∧
  (∀ k, state_of (get_probe k c) = c) ∧
  (∀ c' : Circuit, structure c' = structure c →
     wires c' = wires c ∧ order c' = order c ∧
     dom (components c') = dom (components c) ∧
     ∀ k comp', components c' !! k = Some comp' →
       ∃ comp, components c !! k = Some comp ∧
         Component.id comp' = Component.id comp ∧
         Component.type comp' = Component.type comp ∧
         class_of (Component.cls comp') = class_of (Component.cls comp) ∧
         dom (Component.ports comp') = dom (Component.ports comp) ∧
         port_set comp' = port_set comp) ∧
  (∀ id ops, components c !! id = None → CallStep ∉ ops →
     get_probe id (calls ops (state_of (add (Probe id) c))) =
       Ok 0 (calls ops (state_of (add (Probe id) c)))).
Proof.
  split; [apply step_structure|].
  split; [intros; apply set_switch_structure|].
  split; [intros; apply toggle_switch_structure|].
  split; [intros; apply get_probe_unchanged|].
  split.
  - intros c' H.
    split; [by injection H|]. split; [by injection H|]. split.
    + apply set_eq. intros k. rewrite !elem_of_dom.
      by apply components_is_Some_structure.
    + intros k comp' E.
      destruct (structure_components _ _ _ _ H E) as (comp & Hc & Hs).
      exists comp. split; [done|]. unfold comp_structure in Hs.
      injection Hs as H1 H2 H3 H4. repeat split; try done.
      assert (dom (port_set comp') = dom (port_set comp)) as Hd
        by (by rewrite H4).
      unfold port_set in Hd. by rewrite !dom_fmap_L in Hd.
  - intros id ops Hid Hops. apply fresh_probe_reads_0; [done|].
    unfold add. simpl. rewrite decide_False by (rewrite Hid; by intros [??]).
    simpl. rewrite lookup_insert_eq. by eauto.
Qed.

Lemma structure_unchanged_witness :
  get_probe "p1" (calls [CallToggle "sw1"; CallSetSwitch "sw2" 5]
                    (state_of (add (Probe "p1") Circuit_init))) =
    Ok 0 (calls [CallToggle "sw1"; CallSetSwitch "sw2" 5]
            (state_of (add (Probe "p1") Circuit_init))) ∧
  wires (state_of (step (calls smoke_calls Circuit_init))) =
    wires (calls smoke_calls Circuit_init).
Proof.
  split.
  - apply (structure_unchanged Circuit_init); [done|].
    intros H. repeat (apply elem_of_cons in H as [H|H]; [done|]).
    by apply elem_of_nil in H.
  - destruct (structure_unchanged (calls smoke_calls Circuit_init))
      as (Hstep & _ & _ & _ & Hsame & _).
    by destruct (Hsame _ Hstep) as [Hw _].
Defined.

(** ** One step is one hop *)

Lemma omap_all_Some {A B} (f : A → option B) (l : list A) :
  Forall (λ x, is_Some (f x)) l → f <$> l = Some <$> omap f l.
Proof.
  induction 1 as [|x l [y Hy] _ IH]; [done|].
  change (omap f (x :: l))
    with (match f x with Some y => y :: omap f l | None => omap f l end).
  by rewrite Hy, !fmap_cons, IH, Hy.
Qed.

Lemma driving_elem c d p w :
  w ∈ driving c d p ↔ (dst_comp w = d ∧ dst_port w = p) ∧ w ∈ wires c.
Proof. unfold driving. by rewrite list_elem_of_filter. Qed.

Lemma drivers_all c d p :
  Forall (wire_valid c) (wires c) →
  src_value c <$> driving c d p = Some <$> drivers c d p.
Proof.
  intros Hall. apply omap_all_Some. apply Forall_forall. intros w Hw.
  apply driving_elem in Hw as [_ Hw].
  by destruct (proj1 (Forall_forall _ _) Hall w Hw) as [Hs _].
Qed.

Lemma drivers_nil c d p :
  Forall (wire_valid c) (wires c) →
  omap (src_value c) (driving c d p) = [] ↔ driving c d p = [].
Proof.
  intros Hall. pose proof (drivers_all c d p Hall) as H. unfold drivers in H.
  split; intros Hn.
  - rewrite Hn in H. by apply fmap_nil_inv in H.
  - by rewrite Hn.
Qed.

Lemma port_value_resolved c d p :
  port_value (resolved c) d p =
    if decide (omap (src_value c) (driving c d p) = [])
    then port_value c d p
    else (λ _, resolve_wire (drivers c d p)) <$> port_value c d p.
Proof.
  unfold resolved. rewrite port_value_write_all, gather_drivers.
  - by case_decide.
  - apply gather_NoDup. apply NoDup_nil_2.
Qed.

Lemma port_direction_in c d p dir :
  port_direction c d p = Some dir →
  ∃ comp i, components c !! d = Some comp ∧
            port_set comp !! p = Some (i, dir).
Proof.
  unfold port_direction.
  destruct (components c !! d) as [comp|]; [|done]. simpl.
  destruct (Component.ports comp !! p) as [q|] eqn:E; [|done]. simpl.
  intros [= <-]. exists comp, (Port.id q). split; [done|].
  by rewrite port_set_lookup, E.
Qed.

Lemma step_input_port c c' d p :
  wf c → step c = Ok () c' → port_direction c d p = Some "in" →
  port_value c' d p =
    if decide (driving c d p = []) then port_value c d p
    else Some (resolve_wire (drivers c d p)).
Proof.
  intros Hwf Hstep Hdir.
  destruct (step_Ok c c' Hwf Hstep) as [Hall ->].
  destruct (port_direction_in _ _ _ _ Hdir) as (comp & i & Hc & Hp).
  destruct (comp_ok_input comp p i) as (H1 & H2 & H3);
    [by apply (proj2 Hwf d)|done|].
  rewrite port_value_step_all, port_value_resolved by done.
  destruct (decide (driving c d p = [])) as [Hd|Hd].
  - rewrite decide_True; [done|]. by apply drivers_nil.
  - rewrite decide_False by (by rewrite drivers_nil).
    rewrite port_value_comp, Hc. simpl.
    assert (is_Some (comp_port comp p)) as [x ->]; [|done].
    apply port_set_is_Some. by rewrite Hp.
Qed.

(** The component [d] during a step: after the second loop it has the
    structure it had, and the third loop applies its transfer function
    once. *)
Lemma step_component c c' d comp :
  wf c → step c = Ok () c' → components c !! d = Some comp →
  ∃ comp2, components (resolved c) !! d = Some comp2 ∧
           comp_structure comp2 = comp_structure comp ∧
           comp_ok comp2 ∧
           components c' !! d = Some (stepped comp2).
Proof.
  intros Hwf Hstep Hc.
  destruct (step_Ok c c' Hwf Hstep) as [Hall ->].
  pose proof (structure_lookup _ _ d (resolved_structure c)) as Hs.
  rewrite Hc in Hs.
  destruct (components (resolved c) !! d) as [comp2|] eqn:E; [|done].
  apply (inj Some) in Hs. exists comp2. split; [done|]. split; [done|].
  split.
  - apply (comp_ok_structure comp); [done|]. by apply (proj2 Hwf d).
  - destruct Hwf as [[Hnd Hdom] _]. rewrite components_step_all by done.
    rewrite decide_True by (apply Hdom; by rewrite Hc). by rewrite E.
Qed.

Lemma class_of_TNOT k : class_of k = Cls.TNOT → k = Cls.TNOT.
Proof. by destruct k. Qed.

Lemma class_of_switch k k' :
  class_of k' = class_of k → is_switch k → is_switch k'.
Proof. by destruct k, k'. Qed.

Lemma structure_class comp comp' :
  comp_structure comp' = comp_structure comp →
  class_of (Component.cls comp') = class_of (Component.cls comp).
Proof. unfold comp_structure. by intros [= _ _ ? _]. Qed.

(** An inverter after a step: its output is the negation of the input the
    step has just resolved. *)
Lemma step_TNOT c c' d comp :
  wf c → step c = Ok () c' → components c !! d = Some comp →
  Component.cls comp = Cls.TNOT →
  ∃ x, port_value c' d "in" = Some x ∧
       port_value c' d "out" = Some (clamp_t (- x)).
Proof.
  intros Hwf Hstep Hc Hcls.
  destruct (step_component _ _ _ _ Hwf Hstep Hc)
    as (comp2 & E & Hs & Hok & Hc').
  assert (Component.cls comp2 = Cls.TNOT) as Hcls2.
  { apply class_of_TNOT. by rewrite (structure_class _ _ Hs), Hcls. }
  assert (is_Some (comp_port comp2 "in")) as [x Hx] by has_port Hok.
  assert (is_Some (comp_port comp2 "out")) as Hout by has_port Hok.
  exists x. rewrite !port_value_comp, Hc'. simpl.
  unfold stepped, Component_step. rewrite Hcls2.
  rewrite (TNOT_step_Ok comp2 x) by done. simpl.
  rewrite comp_port_write_ne by done.
  by rewrite comp_port_write_eq.
Qed.

(** A switch is not changed by the third loop. *)
Lemma step_switch c c' d comp p :
  wf c → step c = Ok () c' → components c !! d = Some comp →
  is_switch (Component.cls comp) →
  port_value c' d p = port_value (resolved c) d p.
Proof.
  intros Hwf Hstep Hc Hsw.
  destruct (step_component _ _ _ _ Hwf Hstep Hc)
    as (comp2 & E & Hs & Hok & Hc').
  assert (is_switch (Component.cls comp2)) as Hsw2.
  { eapply class_of_switch; [|exact Hsw]. by apply structure_class. }
  rewrite !port_value_comp, Hc', E. simpl.
  unfold stepped, Component_step. by destruct (Component.cls comp2).
Qed.

Lemma resolve_wire_single x : is_trit x → resolve_wire [x] = x.
Proof. by intros [->|[->| ->]]. Qed.

Lemma port_value_trit c d p v :
  circuit_trits c → port_value c d p = Some v → is_trit v.
Proof.
  intros Hc. rewrite port_value_comp.
  destruct (components c !! d) as [comp|] eqn:E; [|done]. simpl.
  apply comp_trits_port. by apply (Hc d).
Qed.

Lemma chain_out_succ v i k :
  (1 ≤ i)%nat →
  - (if decide (i = 1)%nat then v else chain_out v (i - 1) k) =
    chain_out v i (S k).
Proof.
  intros Hi. unfold chain_out. destruct i as [|i]; [lia|].
  replace (S i - 1)%nat with i by lia. rewrite Nat.even_succ.
  rewrite <-Nat.negb_even.
  destruct (decide (S i = 1)%nat) as [He|He].
  - injection He as ->. rewrite decide_True by lia. done.
  - destruct (decide (i ≤ k)%nat).
    + rewrite decide_True by lia. destruct (Nat.even i); simpl; lia.
    + rewrite decide_False by lia. done.
Qed.

Lemma driving_structure c c' d p :
  structure c' = structure c → driving c' d p = driving c d p.
Proof. unfold driving. by intros [= _ _ ->]. Qed.

Lemma wire_valid_structure c c' w :
  structure c' = structure c → wire_valid c w → wire_valid c' w.
Proof.
  intros H [H1 H2]. split; by apply (port_exists_structure c c').
Qed.

Lemma inverter_chain_structure c c' g N :
  structure c' = structure c → inverter_chain c g N → inverter_chain c' g N.
Proof.
  intros H ((comp & Hc & Hsw) & Hd & Hi).
  assert (∀ k comp, components c !! k = Some comp →
            ∃ comp', components c' !! k = Some comp' ∧
                     comp_structure comp' = comp_structure comp) as Hl.
  { intros k comp0 E. pose proof (structure_lookup _ _ k H) as Hk.
    rewrite E in Hk. destruct (components c' !! k) as [comp'|]; [|done].
    exists comp'. split; [done|]. by apply (inj Some). }
  split; [|split].
  - destruct (Hl _ _ Hc) as (comp' & Hc' & Hs). exists comp'.
    split; [done|]. eapply class_of_switch; [|exact Hsw].
    by apply structure_class.
  - by rewrite (driving_structure c c').
  - intros i Hi'. destruct (Hi i Hi') as ((compi & Hci & Hcls) & Hdi).
    split; [|by rewrite (driving_structure c c')].
    destruct (Hl _ _ Hci) as (comp' & Hc' & Hs). exists comp'.
    split; [done|]. apply class_of_TNOT.
    by rewrite (structure_class _ _ Hs), Hcls.
Qed.

Lemma chain_out_trit v i k : is_trit v → is_trit (chain_out v i k).
Proof.
  intros [->|[->| ->]]; unfold chain_out, is_trit;
    destruct (decide (i ≤ k)%nat), (Nat.even i); lia.
Qed.

Lemma chain_hop c c' g N v j :
  chain_state c g N v j → step c = Ok () c' → chain_state c' g N v (S j).
Proof.
  intros (Hwf & Tv & Hall & Hch & Hv & Hout) Hstep.
  assert (structure c' = structure c) as Hs.
  { pose proof (step_structure c) as H. by rewrite Hstep in H. }
  split; [by apply (wf_structure c)|].
  split; [done|].
  split.
  { rewrite Forall_forall in *. intros w Hw.
    apply (wire_valid_structure c); [done|]. apply Hall.
    injection Hs as _ _ Hw'. by rewrite <-Hw'. }
  split; [by apply (inverter_chain_structure c)|].
  destruct Hch as ((comp & Hc & Hsw) & Hd & Hi).
  split.
  - rewrite (step_switch c c' _ comp) by done.
    by rewrite port_value_resolved, Hd.
  - intros i Hi'. destruct (Hi i Hi') as ((compi & Hci & Hcls) & Hdi).
    destruct (step_TNOT c c' _ compi Hwf Hstep Hci Hcls) as (x & Hx & ->).
    assert (port_direction c (g i) "in" = Some "in") as Hdir.
    { unfold port_direction. rewrite Hci. simpl.
      pose proof (proj2 Hwf _ _ Hci) as Hok. unfold comp_ok in Hok.
      rewrite Hcls in Hok.
      assert (port_set compi !! "in" = Some ("in", "in")) as Hp
        by (by rewrite Hok).
      rewrite port_set_lookup in Hp.
      destruct (Component.ports compi !! "in") as [q|]; [|done].
      simpl in *. by injection Hp as _ ->. }
    rewrite (step_input_port c c' _ _ Hwf Hstep Hdir) in Hx.
    rewrite Hdi in Hx. rewrite decide_False in Hx by done.
    unfold drivers in Hx. rewrite Hdi in Hx. simpl in Hx.
    unfold src_value in Hx. simpl in Hx.
    assert (port_value c (g (i - 1)%nat) "out" =
            Some (if decide (i = 1)%nat then v
                  else chain_out v (i - 1) j)) as Hprev.
    { case_decide as Hi1.
      - subst. by replace (1 - 1)%nat with 0%nat by lia.
      - apply Hout. lia. }
    rewrite Hprev in Hx. simpl in Hx.
    assert (is_trit (if decide (i = 1)%nat then v
                     else chain_out v (i - 1) j)) as Tp.
    { case_decide; [done|]. by apply chain_out_trit. }
    rewrite resolve_wire_single in Hx by done. injection Hx as <-.
    rewrite chain_out_succ by lia.
    f_equal. apply clamp_t_id.
    rewrite <-(chain_out_succ v i j) by lia.
    destruct Tp as [->|[->| ->]]; unfold is_trit; lia.
Qed.

Lemma chain_steps k c g N v j :
  chain_state c g N v j →
  ∃ c', steps k c = Ok () c' ∧ chain_state c' g N v (j + k).
Proof.
  revert c j. induction k as [|k IH]; intros c j Hc.
  - exists c. split; [done|]. by rewrite Nat.add_0_r.
  - destruct Hc as (Hwf & Tv & Hall & Hrest).
    destruct (proj1 (step_Ok_iff c Hwf) Hall) as [c1 Hstep].
    destruct (IH c1 (S j)) as (c' & Hsteps & Hc').
    { by apply (chain_hop c). }
    exists c'. split.
    + simpl. by rewrite (bind_Ok _ _ _ _ _ Hstep).
    + by replace (j + S k)%nat with (S j + k)%nat by lia.
Qed.

Lemma smoke_reachable : reachable (calls smoke_calls Circuit_init).
Proof. by exists smoke_calls. Qed.

Lemma chain_reachable : reachable (calls chain_calls Circuit_init).
Proof. by exists chain_calls. Qed.

(** Deleting a component in the editor keeps the circuit well formed and
    leaves the ports of the other components as they were. *)
Lemma delete_selected_wf selected c : wf c → wf (delete_selected selected c).
Proof.
  intros Hwf. destruct selected as [cid|]; [|done]. simpl.
  destruct (decide (cid = "")); [done|].
  destruct Hwf as [[Hnd Hdom] Hok].
  destruct (decide (is_Some (components c !! cid))) as [Hin|Hin];
    [|by split].
  split; [split|]; simpl.
  - by apply NoDup_filter.
  - intros k. rewrite list_elem_of_filter, lookup_delete_is_Some, Hdom.
    split; intros [H1 H2]; split; try done; by intros ->.
  - by apply map_Forall_delete.
Qed.

Lemma delete_selected_port selected c d p :
  selected ≠ Some d →
  port_value (delete_selected selected c) d p = port_value c d p.
Proof.
  intros Hne. destruct selected as [cid|]; [|done]. simpl.
  destruct (decide (cid = "")); [done|].
  destruct (decide (is_Some (components c !! cid))); [|done].
  unfold port_value. simpl.
  rewrite lookup_delete_ne; [done|]. by intros ->.
Qed.

Lemma delete_selected_wires cid c :
  cid ≠ "" →
  wires (delete_selected (Some cid) c) =
    filter (λ w, src_comp w ≠ cid ∧ dst_comp w ≠ cid) (wires c).
Proof.
  intros Hne. simpl. rewrite decide_False by done.
  by destruct (decide (is_Some (components c !! cid))).
Qed.

(** C2.  When [step] returns on a circuit whose components have the ports
    of their class ([wf]: any circuit made of the engine's components,
    whether built by calls of the engine, edited in the editor or loaded),
    every input port that some wire drives holds [resolve_wire] of the
    values the sources of its driving wires carried when the call began
    (none of the driving wires is left out, and nothing written during the
    call is seen), and every input port that no wire drives holds the value
    it had, whatever that value is.  Hence one step is one hop: in a switch
    showing a trit followed by [N] inverters in a row, all outputs at 0,
    after [k] calls of [step] the first [k] inverters show the
    (alternately negated) switch value and the others still show 0, so the
    last one needs [N] calls.  Deleting a component in the editor
    ([delete_selected]) keeps the circuit well formed, removes exactly the
    wires that touch the component and leaves the ports of the other
    components alone, so the first part applies after a deletion: an input
    that it leaves without a driver keeps the value it had at the next
    [step]. *)
Theorem step_one_hop :
  (∀ (c c' : Circuit) (d p : string),
     wf c → step c = Ok () c' →
     port_direction c d p = Some "in" →
     src_value c <$> driving c d p = Some <$> drivers c d p ∧
     port_value c' d p =
       if decide (driving c d p = []) then port_value c d p
       else Some (resolve_wire (drivers c d p))) ∧
  (∀ (c : Circuit) (g : nat → string) (N : nat) (v : TValue),
     wf c → is_trit v → Forall (wire_valid c) (wires c) →
     inverter_chain c g N →
     port_value c (g 0%nat) "out" = Some v →
     (∀ i, (1 ≤ i ≤ N)%nat → port_value c (g i) "out" = Some 0) →
     ∀ k : nat, ∃ c',
       steps k c = Ok () c' ∧
       ∀ i, (1 ≤ i ≤ N)%nat →
         port_value c' (g i) "out" =
           Some (if decide (i ≤ k)%nat
                 then (if Nat.even i then v else - v) else 0)) ∧
  (∀ (c : Circuit) (selected : option string),
     wf c →
     wf (delete_selected selected c) ∧
     (∀ d p, selected ≠ Some d →
        port_value (delete_selected selected c) d p = port_value c d p) ∧
     (∀ cid, selected = Some cid → cid ≠ "" →
        wires (delete_selected selected c) =
          filter (λ w, src_comp w ≠ cid ∧ dst_comp w ≠ cid) (wires c))).
Proof.
  split; [|split].
  - intros c c' d p Hwf Hstep Hdir. split.
    + apply drivers_all. by apply (step_Ok c c').
    + by apply step_input_port.
  - intros c g N v Hwf Tv Hall Hch Hv H0 k.
    destruct (chain_steps k c g N v 0%nat) as (c' & Hsteps & Hc').
    { do 5 (split; [done|]). intros i Hi. rewrite (H0 i Hi).
      unfold chain_out. by rewrite decide_False by lia. }
    exists c'. split; [done|].
    destruct Hc' as (_ & _ & _ & _ & _ & Hout). apply Hout.
  - intros c selected Hwf. split; [by apply delete_selected_wf|]. split.
    + intros d p Hne. by apply delete_selected_port.
    + intros cid -> Hne. by apply delete_selected_wires.
Qed.

(** The inverter chain of [chain_calls] stepped twice, then [n1] deleted in
    the editor: the input of [n2], which no wire drives any more, holds the
    -1 it was given, and holds it after a further [step]. *)
Lemma step_one_hop_witness :
  (∃ c', step (calls smoke_calls Circuit_init) = Ok () c' ∧
         port_value c' "and1" "in2" = Some (resolve_wire [-1])) ∧
  (∃ c', steps 1 (calls chain_calls Circuit_init) = Ok () c' ∧
         port_value c' "n1" "out" = Some (-1) ∧
         port_value c' "n2" "out" = Some 0) ∧
  (let c := delete_selected (Some "n1")
              (calls (chain_calls ++ [CallStep; CallStep]) Circuit_init) in
   driving c "n2" "in" = [] ∧
   port_value c "n2" "in" = Some (-1) ∧
   ∃ c', step c = Ok () c' ∧ port_value c' "n2" "in" = Some (-1)).
Proof.
  destruct step_one_hop as (Hin & Hchain & Hdel).
  assert (wf (calls smoke_calls Circuit_init)) as Hsmoke
    by (apply reachable_wf, smoke_reachable).
  assert (wf (calls chain_calls Circuit_init)) as Hwf
    by (apply reachable_wf, chain_reachable).
  split; [|split].
  - eexists. split; [by vm_compute|].
    eapply eq_trans;
      [apply (Hin (calls smoke_calls Circuit_init) _ "and1" "in2");
       [exact Hsmoke | by vm_compute | by vm_compute]|].
    by vm_compute.
  - destruct (Hchain (calls chain_calls Circuit_init) chain_ids 2%nat 1)
      with (k := 1%nat) as (c' & Hsteps & Hout).
    + exact Hwf.
    + unfold is_trit. lia.
    + repeat (apply Forall_cons; split; [split; vm_compute; by eexists|]).
      apply Forall_nil_2.
    + split; [|split].
      * eexists. split; [by vm_compute|exact I].
      * by vm_compute.
      * intros [|[|[|i]]] Hi; try lia;
          (split; [eexists; split; [by vm_compute|done] | by vm_compute]).
    + by vm_compute.
    + intros [|[|[|i]]] Hi; try lia; by vm_compute.
    + exists c'. split; [done|]. split.
      * apply (Hout 1%nat). lia.
      * apply (Hout 2%nat). lia.
  - set (c0 := calls (chain_calls ++ [CallStep; CallStep]) Circuit_init).
    assert (wf c0) as Hwf0 by (apply reachable_wf; by eexists).
    destruct (Hdel c0 (Some "n1") Hwf0) as (Hwf1 & Hport & _).
    cbv zeta. split; [by vm_compute|].
    split; [rewrite Hport by (by intros [=]); by vm_compute|].
    eexists. split; [by vm_compute|].
    eapply eq_trans;
      [apply (Hin (delete_selected (Some "n1") c0) _ "n2" "in");
       [exact Hwf1 | by vm_compute | by vm_compute]|].
    rewrite decide_True by (by vm_compute).
    rewrite Hport by (by intros [=]). by vm_compute.
Defined.

(** * Further properties of the engine *)

(** ** The value domain *)

(** X1.  [clamp_t] is the identity exactly on trits, is idempotent, odd and
    monotone. *)
Theorem clamp_t_algebra :
  (∀ v : Z, clamp_t v = v ↔ is_trit v) ∧
  (∀ v : Z, clamp_t (clamp_t v) = clamp_t v) ∧
  (∀ v : Z, clamp_t (- v) = - clamp_t v) ∧
  (∀ v w : Z, v ≤ w → clamp_t v ≤ clamp_t w).
Proof.
  unfold clamp_t, is_trit.
  split_and!; intros; repeat case_decide; lia.
Qed.

Lemma clamp_t_algebra_witness : clamp_t (-7) ≤ clamp_t 5 ∧ clamp_t 1 = 1.
Proof.
  destruct clamp_t_algebra as (Hid & _ & _ & Hmono).
  split; [apply Hmono; lia | apply Hid; unfold is_trit; lia].
Defined.

(** X2.  Zero drivers never matter, negating every driver negates the net,
    and a net that is not 0 carries the value of one of its drivers. *)
Theorem resolve_wire_algebra :
  (∀ drivers : list TValue,
     resolve_wire (filter (λ v, v ≠ 0) drivers) = resolve_wire drivers) ∧
  (∀ drivers : list TValue,
     resolve_wire (Z.opp <$> drivers) = - resolve_wire drivers) ∧
  (∀ drivers : list TValue,
     resolve_wire drivers ≠ 0 → resolve_wire drivers ∈ drivers).
Proof.
  split_and!; intros drivers.
  - rewrite !resolve_wire_rule.
    assert (∀ x, x ≠ 0 → x ∈ filter (λ v, v ≠ 0) drivers ↔ x ∈ drivers) as H.
    { intros x Hx. rewrite list_elem_of_filter. tauto. }
    pose proof (H 1 ltac:(lia)). pose proof (H (-1) ltac:(lia)).
    repeat case_decide; try done; tauto.
  - rewrite !resolve_wire_rule.
    assert (∀ x, x ∈ Z.opp <$> drivers ↔ - x ∈ drivers) as H.
    { intros x. rewrite list_elem_of_fmap. split.
      - intros (y & -> & Hy). by rewrite Z.opp_involutive.
      - intros Hx. exists (- x). split; [lia|done]. }
    pose proof (H 1) as H1. pose proof (H (-1)) as H2.
    change (- -1) with 1 in H2.
    repeat case_decide; try done; tauto.
  - rewrite resolve_wire_rule. repeat case_decide; try done; tauto.
Qed.

Lemma resolve_wire_algebra_witness : resolve_wire [0; -1; 0] ∈ [0; -1; 0].
Proof.
  destruct resolve_wire_algebra as (_ & _ & H). apply H. by vm_compute.
Defined.

(** ** Switches *)

Lemma write_port_write_port name v w comp :
  write_port name w (write_port name v comp) = write_port name w comp.
Proof.
  unfold write_port, Component.set_ports. simpl. f_equal.
  apply map_eq. intros j. rewrite !lookup_alter.
  case_decide; [|done]. rewrite decide_True by done.
  by destruct (Component.ports comp !! name).
Qed.

Lemma write_port_same name v comp :
  comp_port comp name = Some v → write_port name v comp = comp.
Proof.
  unfold comp_port, write_port, Component.set_ports. intros H.
  destruct comp as [i t ps k]. simpl in *. f_equal.
  apply map_eq. intros j. rewrite lookup_alter.
  case_decide; [|done]. subst.
  destruct (ps !! j) as [[pi pd pv]|]; [|done]. simpl in *.
  by injection H as ->.
Qed.

Lemma toggle_ternary_Ok comp v :
  Component.cls comp = Cls.SwitchTernary v →
  is_Some (comp_port comp "out") → is_trit v →
  toggle comp =
    Ok () (write_port "out" (if decide (v = 1) then -1 else v + 1)
             (Component.set_cls
                (Cls.SwitchTernary (if decide (v = 1) then -1 else v + 1))
                comp)).
Proof.
  intros Hcls Hout Hv. unfold toggle. rewrite Hcls.
  destruct Hv as [->|[->| ->]]; simpl; by rewrite set_out_Some.
Qed.

(** X3.  [SwitchTernary.toggle] cycles the stored value -1, 0, 1, -1 and
    shows it on the output port at once; three toggles bring a switch
    whose output shows its value back to where it was.  On a stored value
    that is not a trit, [list.index] raises [ValueError] and nothing is
    changed. *)
Theorem toggle_ternary_cycle (comp : Component) (v : Z) :
  Component.cls comp = Cls.SwitchTernary v →
  is_Some (comp_port comp "out") →
  (is_trit v →
   ∃ comp', toggle comp = Ok () comp' ∧
     switch_value comp' = Some (if decide (v = 1) then -1 else v + 1) ∧
     comp_port comp' "out" = Some (if decide (v = 1) then -1 else v + 1) ∧
     (comp_port comp "out" = Some v →
      state_of (toggle (state_of (toggle comp'))) = comp)) ∧
  (¬ is_trit v → ∃ msg, toggle comp = Raise (ValueError msg) comp).
Proof.
  intros Hcls Hout. split.
  - intros Hv. rewrite (toggle_ternary_Ok comp v) by done.
    eexists. split; [done|]. split; [done|].
    split; [by rewrite comp_port_write_eq|].
    intros Hv'.
    set (next x := if decide (x = 1) then -1 else x + 1).
    assert (∀ x, is_trit x → is_trit (next x)) as Hn.
    { intros x Hx. unfold next, is_trit in *. case_decide; lia. }
    assert (next (next (next v)) = v) as H3.
    { unfold next, is_trit in *. repeat case_decide; lia. }
    fold (next v).
    set (c1 := write_port "out" (next v)
                 (Component.set_cls (Cls.SwitchTernary (next v)) comp)).
    rewrite (toggle_ternary_Ok c1 (next v));
      [|done|unfold c1; by rewrite comp_port_write_eq|by apply Hn].
    fold (next (next v)). simpl.
    set (c2 := write_port "out" (next (next v))
                 (Component.set_cls (Cls.SwitchTernary (next (next v))) c1)).
    rewrite (toggle_ternary_Ok c2 (next (next v)));
      [|done| |by apply Hn, Hn].
    2: { unfold c2. rewrite comp_port_write_eq; [done|].
         rewrite comp_port_set_cls. unfold c1.
         by rewrite comp_port_write_eq. }
    fold (next (next (next v))). rewrite H3. simpl.
    unfold c2, c1. clear c1 c2.
    destruct comp as [i t ps k]. simpl in *. subst k.
    unfold write_port, Component.set_ports, Component.set_cls. simpl.
    f_equal. apply map_eq. intros j. rewrite !lookup_alter.
    case_decide; [|done]. subst. unfold comp_port in Hv'. simpl in Hv'.
    destruct (ps !! "out") as [[pi pd pv]|]; [|done]. simpl in *.
    by injection Hv' as ->.
  - intros Hv. unfold toggle. rewrite Hcls.
    assert (index [-1; 0; 1] v = None) as ->; [|by eexists].
    unfold index, is_trit in *. simpl.
    repeat (case_decide; [lia|]). done.
Qed.

Lemma toggle_ternary_cycle_witness :
  ∃ comp', toggle (SwitchTernary "s" 1) = Ok () comp' ∧
           switch_value comp' = Some (-1) ∧
           comp_port comp' "out" = Some (-1).
Proof.
  destruct (toggle_ternary_cycle (SwitchTernary "s" 1) 1) as [H _];
    [reflexivity | by eexists |].
  destruct H as (comp' & H1 & H2 & H3 & _); [unfold is_trit; lia|].
  by exists comp'.
Defined.

Lemma toggle_binary_Ok comp v :
  Component.cls comp = Cls.SwitchBinary v →
  is_Some (comp_port comp "out") →
  toggle comp =
    Ok () (write_port "out" (if decide (v = 1) then 0 else 1)
             (Component.set_cls
                (Cls.SwitchBinary (if decide (v = 1) then 0 else 1)) comp)).
Proof.
  intros Hcls Hout. unfold toggle. rewrite Hcls. cbv zeta.
  rewrite set_out_Some by done. by case_decide.
Qed.

(** X4.  [SwitchBinary.toggle] stores 0 when the stored value is 1 and 1
    otherwise, and shows it on the output port; on a switch that stores 0
    or 1 and shows it, two toggles change nothing. *)
Theorem toggle_binary_flip (comp : Component) (v : Z) :
  Component.cls comp = Cls.SwitchBinary v →
  is_Some (comp_port comp "out") →
  ∃ comp', toggle comp = Ok () comp' ∧
    switch_value comp' = Some (if decide (v = 1) then 0 else 1) ∧
    comp_port comp' "out" = Some (if decide (v = 1) then 0 else 1) ∧
    ((v = 0 ∨ v = 1) → comp_port comp "out" = Some v →
     state_of (toggle comp') = comp).
Proof.
  intros Hcls Hout. rewrite (toggle_binary_Ok comp v) by done.
  eexists. split; [done|]. split; [done|].
  split; [by rewrite comp_port_write_eq|].
  intros Hv Hv'.
  set (flip x := if decide (x = 1) then 0 else 1).
  fold (flip v).
  set (c1 := write_port "out" (flip v)
               (Component.set_cls (Cls.SwitchBinary (flip v)) comp)).
  rewrite (toggle_binary_Ok c1 (flip v));
    [|done|unfold c1; by rewrite comp_port_write_eq].
  fold (flip (flip v)).
  assert (flip (flip v) = v) as ->.
  { unfold flip. repeat case_decide; lia. }
  simpl. unfold c1. clear c1.
  destruct comp as [i t ps k]. simpl in *. subst k.
  unfold write_port, Component.set_ports, Component.set_cls. simpl.
  f_equal. apply map_eq. intros j. rewrite !lookup_alter.
  case_decide; [|done]. subst. unfold comp_port in Hv'. simpl in Hv'.
  destruct (ps !! "out") as [[pi pd pv]|]; [|done]. simpl in *.
  by injection Hv' as ->.
Qed.

Lemma toggle_binary_flip_witness :
  ∃ comp', toggle (SwitchBinary "s" 5) = Ok () comp' ∧
           switch_value comp' = Some 0 ∧ comp_port comp' "out" = Some 0.
Proof.
  destruct (toggle_binary_flip (SwitchBinary "s" 5) 1)
    as (comp' & H1 & H2 & H3 & _); [reflexivity | by eexists |].
  by exists comp'.
Defined.

Lemma set_value_Some K v comp :
  is_Some (comp_port comp "out") →
  (modify (Component.set_cls K);; set_out "out" v) comp =
    Ok () (write_port "out" (clamp_t v) (Component.set_cls K comp)).
Proof.
  intros Hout.
  rewrite (bind_Ok _ _ _ () (Component.set_cls K comp)) by done.
  by apply set_out_Some.
Qed.

Lemma set_value_None K v comp :
  comp_port comp "out" = None →
  (modify (Component.set_cls K);; set_out "out" v) comp =
    Raise (KeyError "out") (Component.set_cls K comp).
Proof.
  intros Hout.
  rewrite (bind_Ok _ _ _ () (Component.set_cls K comp)) by done.
  by apply store_port_None.
Qed.

(** X5.  [set_switch] stores 1 or 0 in a binary switch (1 for every value
    but 0) and the clamped value in a ternary switch, and the output port
    shows it when the call returns; no other component, nor the order or
    the wires, is touched.  On an unknown id it raises [KeyError], on a
    component that is not a switch [ValueError]; the circuit is then as it
    was. *)
Theorem set_switch_effect (c : Circuit) (k : string) (v : Z) :
  (components c !! k = None → set_switch k v c = Raise (KeyError k) c) ∧
  (∀ comp, components c !! k = Some comp → switch_value comp = None →
     set_switch k v c = Raise (ValueError "Component is not a switch") c) ∧
  (∀ comp sv, components c !! k = Some comp →
     switch_value comp = Some sv → is_Some (comp_port comp "out") →
     ∃ c' comp',
       set_switch k v c = Ok () c' ∧
       components c' !! k = Some comp' ∧
       switch_value comp' =
         Some (match Component.cls comp with
               | Cls.SwitchBinary _ => if decide (v ≠ 0) then 1 else 0
               | _ => clamp_t v
               end) ∧
       comp_port comp' "out" = switch_value comp' ∧
       (∀ k', k' ≠ k → components c' !! k' = components c !! k') ∧
       order c' = order c ∧ wires c' = wires c).
Proof.
  split_and!.
  - intros E. unfold set_switch. by rewrite E.
  - intros comp E Hsw. unfold set_switch. rewrite E.
    unfold switch_value in Hsw. by destruct (Component.cls comp).
  - intros comp sv E Hsw Hout. unfold set_switch. rewrite E.
    unfold switch_value in Hsw.
    destruct (Component.cls comp) eqn:Hcls; try done.
    + rewrite (at_component_Some _ _ _ _ E), (set_value_Some _ _ _ Hout).
      eexists _, _. split; [done|]. simpl. rewrite lookup_insert_eq.
      split; [done|]. split; [done|].
      rewrite comp_port_write_eq by done. unfold switch_value. simpl.
      split; [by case_decide|]. split; [|done].
      intros k' Hk'. by rewrite lookup_insert_ne.
    + rewrite (at_component_Some _ _ _ _ E), (set_value_Some _ _ _ Hout).
      eexists _, _. split; [done|]. simpl. rewrite lookup_insert_eq.
      split; [done|]. split; [done|].
      rewrite comp_port_write_eq by done. unfold switch_value. simpl.
      split; [by rewrite clamp_t_id by apply clamp_t_trit|].
      split; [|done]. intros k' Hk'. by rewrite lookup_insert_ne.
Qed.

Lemma set_switch_effect_witness :
  (set_switch "p1" 1 (calls smoke_calls Circuit_init) =
     Raise (ValueError "Component is not a switch")
       (calls smoke_calls Circuit_init)) ∧
  ∃ c' comp',
    set_switch "sw1" 9 (calls smoke_calls Circuit_init) = Ok () c' ∧
    components c' !! "sw1" = Some comp' ∧
    switch_value comp' = Some 1 ∧ comp_port comp' "out" = Some 1.
Proof.
  destruct (set_switch_effect (calls smoke_calls Circuit_init) "sw1" 9)
    as (_ & _ & H).
  destruct (set_switch_effect (calls smoke_calls Circuit_init) "p1" 1)
    as (_ & Hp & _).
  split.
  - apply (Hp (Probe "p1")); by vm_compute.
  - destruct (H (SwitchTernary "sw1" 1) 1)
      as (c' & comp' & H1 & H2 & H3 & H4 & _);
      [by vm_compute | by vm_compute | by eexists |].
    exists c', comp'. split; [done|]. split; [done|]. split; [done|].
    by rewrite H4, H3.
Defined.

(** X6.  The last [set_switch] wins: setting a switch twice is the same, in
    outcome and in state, as setting it to the second value only, on every
    circuit and also when the call raises. *)
Theorem set_switch_last_wins (c : Circuit) (k : string) (v1 v2 : Z) :
  set_switch k v2 (state_of (set_switch k v1 c)) = set_switch k v2 c.
Proof.
  unfold set_switch at 2 3.
  destruct (components c !! k) as [comp|] eqn:E; simpl;
    [|unfold set_switch; by rewrite E].
  assert (∀ K K' w w',
            class_of K = class_of (Component.cls comp) →
            class_of K' = class_of K →
            (∀ comp0, Component.cls comp0 = K →
               set_switch k v2
                 (set_components (<[k:=comp0]> (components c)) c) =
               at_component k (modify (Component.set_cls K');;
                               set_out "out" w')
                 (set_components (<[k:=comp0]> (components c)) c)) →
            set_switch k v2
              (state_of (at_component k
                 (modify (Component.set_cls K);; set_out "out" w) c)) =
            at_component k (modify (Component.set_cls K');; set_out "out" w')
              c) as Hgen.
  { intros K K' w w' HK HK' Hset.
    rewrite !(at_component_Some _ _ _ _ E).
    destruct (comp_port comp "out") as [x|] eqn:Hout.
    - rewrite set_value_Some by (by rewrite Hout). simpl.
      rewrite Hset by done.
      rewrite (at_component_Some _ _ _
                 (write_port "out" (clamp_t w) (Component.set_cls K comp)))
        by (simpl; apply lookup_insert_eq).
      assert (is_Some (comp_port
                (write_port "out" (clamp_t w) (Component.set_cls K comp))
                "out")) as Hout'
        by (rewrite comp_port_write_eq;
              [done|by rewrite comp_port_set_cls, Hout]).
      rewrite (set_value_Some _ _ _ Hout').
      rewrite set_value_Some by (by rewrite Hout).
      unfold set_components. simpl. rewrite insert_insert_eq.
      do 3 f_equal.
      unfold write_port, Component.set_ports, Component.set_cls. simpl.
      f_equal. apply map_eq. intros j. rewrite !lookup_alter.
      case_decide; [|done]. rewrite decide_True by done.
      by destruct (Component.ports comp !! "out").
    - rewrite (set_value_None _ _ _ Hout). simpl.
      rewrite Hset by done.
      rewrite (at_component_Some _ _ _ (Component.set_cls K comp))
        by (simpl; apply lookup_insert_eq).
      rewrite (set_value_None _ _ (Component.set_cls K comp)) by done.
      rewrite (set_value_None _ _ _ Hout).
      unfold set_components. simpl. by rewrite insert_insert_eq. }
  destruct (Component.cls comp) eqn:Hcls;
    try (unfold set_switch; simpl; by rewrite E, Hcls).
  - apply Hgen; [done..|]. intros comp0 H0. unfold set_switch. simpl.
    by rewrite lookup_insert_eq, H0.
  - apply Hgen; [done..|]. intros comp0 H0. unfold set_switch. simpl.
    by rewrite lookup_insert_eq, H0.
Qed.

(** ** More on [step] *)

Lemma poke_cls d p v c k :
  Component.cls <$> components (poke d p v c) !! k =
  Component.cls <$> components c !! k.
Proof.
  unfold poke. simpl. rewrite lookup_alter. case_decide; [|done].
  subst. by destruct (components c !! k).
Qed.

Lemma write_all_cls inputs c k :
  Component.cls <$> components (write_all inputs c) !! k =
  Component.cls <$> components c !! k.
Proof.
  revert c. induction inputs as [|[[d p] ds] inputs IH]; intros c; [done|].
  by rewrite write_all_cons, IH, poke_cls.
Qed.

Lemma poke_trits d p v c :
  is_trit v → circuit_trits c → circuit_trits (poke d p v c).
Proof.
  intros Hv Hc k comp. unfold poke. simpl. rewrite lookup_alter.
  case_decide; [|apply Hc]. subst.
  destruct (components c !! k) as [comp0|] eqn:E; [|done].
  intros [= <-]. apply comp_trits_write_port; [done|]. by apply (Hc k).
Qed.

Lemma write_all_trits inputs c :
  circuit_trits c → circuit_trits (write_all inputs c).
Proof.
  revert c. induction inputs as [|[[d p] ds] inputs IH]; intros c Hc; [done|].
  rewrite write_all_cons. apply IH, poke_trits; [apply resolve_wire_trit|done].
Qed.

(** The second loop, when it raises: the writes before the missing
    destination have been made. *)
Lemma write_loop_raise inputs c e s :
  write_inputs inputs c = Raise e s →
  ∃ written rest, inputs = written ++ rest ∧ s = write_all written c.
Proof.
  revert c. induction inputs as [|[[d p] ds] inputs IH]; intros c; [done|].
  unfold write_inputs in *. simpl.
  destruct (port_value c d p) as [x|] eqn:Hx.
  - rewrite (bind_Ok _ _ _ () (poke d p (resolve_wire ds) c))
      by (apply write_dst_Some; by rewrite Hx).
    intros H. destruct (IH _ H) as (written & rest & -> & ->).
    by exists (((d, p), ds) :: written), rest.
  - destruct (write_dst_None c d p (resolve_wire ds) Hx) as (k & Hr & Hk).
    rewrite (bind_Raise _ _ _ _ _ Hr). intros [= <- <-].
    by exists [], (((d, p), ds) :: inputs).
Qed.

(** X7.  A [step] that raises has run no transfer function.  On a circuit
    whose components have the ports of their class, the classes'
    attributes (switch values, latch memories, probe readings) and every
    port that no wire drives are as before; the only trace is input ports
    already resolved.  When some wire has a missing source, nothing at all
    has changed. *)
Theorem step_failure_effect (c c' : Circuit) (e : exn) :
  wf c → step c = Raise e c' →
  (∀ k, Component.cls <$> components c' !! k =
        Component.cls <$> components c !! k) ∧
  (∀ d p, driving c d p = [] → port_value c' d p = port_value c d p) ∧
  ((∃ w, w ∈ wires c ∧ src_value c w = None) → c' = c).
Proof.
  intros Hwf Hstep.
  unfold step in Hstep. rewrite step_in_order_loops in Hstep.
  pose proof (resolve_loops_spec c) as Hspec.
  destruct ((collect_drivers ≫= write_inputs) c) as [[] s|e' s] eqn:Hl.
  { destruct Hspec as [_ ->]. rewrite step_loop in Hstep; [done| |].
    - eapply all_ok_structure; [apply resolved_structure|apply Hwf].
    - eapply Forall_impl; [by apply wf_keys|]. intros j. simpl.
      by rewrite (components_is_Some_structure c (resolved c))
        by apply resolved_structure. }
  injection Hstep as <- <-. clear Hspec.
  unfold mbind, M_bind in Hl.
  pose proof (collect_drivers_spec c) as H1.
  destruct (collect_drivers c) as [inputs s1|e1 s1].
  - destruct H1 as (-> & Hsrc & ->).
    destruct (write_loop_raise _ _ _ _ Hl) as (written & rest & Hg & ->).
    split; [intros k; apply write_all_cls|]. split.
    + intros d p Hd. rewrite port_value_write_all.
      * assert (lookup_inputs (d, p) written = None) as ->; [|done].
        apply lookup_inputs_None. intros Hin.
        assert ((d, p) ∈ (gather c (wires c) []).*1) as Hin'.
        { rewrite Hg, fmap_app, elem_of_app. by left. }
        apply gather_keys in Hin' as [Hin'|(w & Hw & Hdw & _)];
          [by apply elem_of_nil in Hin'|].
        assert (w ∈ driving c d p) as Hwd.
        { apply driving_elem. injection Hdw as <- <-. by split. }
        rewrite Hd in Hwd. by apply elem_of_nil in Hwd.
      * assert (NoDup (gather c (wires c) []).*1) as Hnd
          by (apply gather_NoDup, NoDup_nil_2).
        rewrite Hg, fmap_app in Hnd. by apply NoDup_app in Hnd as [? _].
    + intros (w & Hw & Hnone). exfalso.
      destruct (proj1 (Forall_forall _ _) Hsrc w Hw) as [x Hx]. congruence.
  - destruct H1 as (-> & _). injection Hl as <- <-. by split_and!.
Qed.

Lemma step_failure_effect_witness :
  state_of (step (calls [CallAdd (NewProbe "p");
                         CallConnect "ghost" "out" "p" "in"] Circuit_init))
  = calls [CallAdd (NewProbe "p"); CallConnect "ghost" "out" "p" "in"]
      Circuit_init.
Proof.
  destruct (step_failure_effect
    (calls [CallAdd (NewProbe "p");
            CallConnect "ghost" "out" "p" "in"] Circuit_init)
    (state_of (step (calls [CallAdd (NewProbe "p");
                            CallConnect "ghost" "out" "p" "in"]
                       Circuit_init)))
    (KeyError "ghost")) as (_ & _ & H).
  - apply reachable_wf. by eexists.
  - by vm_compute.
  - apply H. exists (mkWire "ghost" "out" "p" "in").
    split; [by left | by vm_compute].
Defined.

(** ** What every built circuit satisfies *)

Lemma class_name_class_of k : class_name (class_of k) = class_name k.
Proof. by destruct k. Qed.

Lemma named_structure c c' : structure c' = structure c → named c → named c'.
Proof.
  intros H Hn k comp' E.
  destruct (structure_components _ _ _ _ H E) as (comp & Hc & Hs).
  destruct (Hn k comp Hc) as [Hid Hty].
  unfold comp_structure in Hs. injection Hs as H1 H2 H3 _.
  split; [congruence|].
  by rewrite H2, Hty, <-class_name_class_of, <-H3, class_name_class_of.
Qed.

Lemma construct_named n :
  Component.type (construct n) = class_name (Component.cls (construct n)).
Proof. by destruct n. Qed.

Lemma call_named op c : named c → named (state_of (call op c)).
Proof.
  intros Hc. destruct op as [n|a b d e| |k v|k|k]; simpl.
  - unfold add. case_decide; [done|]. simpl.
    apply map_Forall_insert_2; [|done]. split; [done|apply construct_named].
  - done.
  - apply (named_structure c); [apply step_structure | done].
  - apply (named_structure c); [apply set_switch_structure | done].
  - apply (named_structure c); [apply toggle_switch_structure | done].
  - unfold mbind, M_bind. pose proof (get_probe_unchanged k c) as H.
    destruct (get_probe k c); simpl in *; by subst.
Qed.

Lemma reachable_named c : reachable c → named c.
Proof.
  intros [ops ->]. apply calls_invariant; [|apply map_Forall_empty].
  intros op c Hc. by apply call_named.
Qed.

(** X8.  In every circuit built through the engine the component ids are
    distinct and listed in insertion order, each component is stored under
    its own id, its [type] is the name of its class, and it has exactly
    the ports its constructor declared, with their directions. *)
Theorem built_circuit_invariant (c : Circuit) :
  reachable c →
  NoDup (order c) ∧
  (∀ k, k ∈ order c ↔ is_Some (components c !! k)) ∧
  ∀ k comp, components c !! k = Some comp →
    Component.id comp = k ∧
    Component.type comp = class_name (Component.cls comp) ∧
    port_set comp = declared_ports (Component.cls comp).
Proof.
  intros Hc. destruct (reachable_wf c Hc) as [[Hnd Hdom] Hok].
  split; [done|]. split; [done|]. intros k comp E.
  destruct (reachable_named c Hc k comp E) as [H1 H2].
  split; [done|]. split; [done|]. by apply (Hok k).
Qed.

Lemma built_circuit_invariant_witness :
  NoDup (order (calls smoke_calls Circuit_init)).
Proof.
  apply (built_circuit_invariant (calls smoke_calls Circuit_init)).
  apply smoke_reachable.
Defined.

(** ** After a step *)

Lemma stepped_settled comp :
  comp_ok comp → comp_trits comp → settled (stepped comp).
Proof.
  intros Hok Htr. unfold stepped, Component_step, settled.
  destruct (Component.cls comp) eqn:Hcls; simpl; try (by rewrite Hcls).
  - assert (is_Some (comp_port comp "in")) as [x Hx] by has_port Hok.
    assert (is_Some (comp_port comp "out")) as Hout by has_port Hok.
    rewrite (TNOT_step_Ok comp x) by done. simpl. rewrite Hcls.
    exists x. rewrite comp_port_write_ne, comp_port_write_eq by done.
    split; [done|]. f_equal. apply clamp_t_id.
    destruct (comp_trits_port _ _ _ Htr Hx) as [->|[->| ->]];
      unfold is_trit; lia.
  - assert (is_Some (comp_port comp "in1")) as [a Ha] by has_port Hok.
    assert (is_Some (comp_port comp "in2")) as [b Hb] by has_port Hok.
    assert (is_Some (comp_port comp "out")) as Hout by has_port Hok.
    rewrite (TAND_step_Ok comp a b) by done. simpl. rewrite Hcls.
    exists a, b. rewrite !comp_port_write_ne, comp_port_write_eq by done.
    split; [done|]. split; [done|]. f_equal. apply clamp_t_id.
    destruct (comp_trits_port _ _ _ Htr Ha) as [->|[->| ->]],
             (comp_trits_port _ _ _ Htr Hb) as [->|[->| ->]];
      unfold is_trit; lia.
  - assert (is_Some (comp_port comp "in1")) as [a Ha] by has_port Hok.
    assert (is_Some (comp_port comp "in2")) as [b Hb] by has_port Hok.
    assert (is_Some (comp_port comp "out")) as Hout by has_port Hok.
    rewrite (TNOR_step_Ok comp a b) by done. simpl. rewrite Hcls.
    exists a, b. rewrite !comp_port_write_ne, comp_port_write_eq by done.
    split; [done|]. split; [done|]. f_equal. apply clamp_t_id.
    destruct (comp_trits_port _ _ _ Htr Ha) as [->|[->| ->]],
             (comp_trits_port _ _ _ Htr Hb) as [->|[->| ->]];
      unfold is_trit; lia.
  - assert (is_Some (comp_port comp "presence")) as [a Ha] by has_port Hok.
    assert (is_Some (comp_port comp "sign")) as [b Hb] by has_port Hok.
    assert (is_Some (comp_port comp "out")) as Hout by has_port Hok.
    rewrite (Transistor_step_Ok comp a b) by done. simpl. rewrite Hcls.
    exists a, b. rewrite !comp_port_write_ne, comp_port_write_eq by done.
    split; [done|]. split; [done|]. f_equal. apply clamp_t_id.
    pose proof (comp_trits_port _ _ _ Htr Hb) as Tb.
    case_decide; [done|]. unfold is_trit; lia.
  - assert (is_Some (comp_port comp "in")) as [i Hi] by has_port Hok.
    assert (is_Some (comp_port comp "enable")) as [en Hen] by has_port Hok.
    assert (is_Some (comp_port comp "out")) as Hout by has_port Hok.
    rewrite (TLatch_step_Ok comp _ i en) by done. cbv zeta. simpl.
    assert (is_trit _state) as Tst.
    { destruct Htr as [_ Hc]. by rewrite Hcls in Hc. }
    pose proof (comp_trits_port _ _ _ Htr Hi) as Ti.
    case_decide as Hd; simpl; [|rewrite Hcls]; exists i, en;
      rewrite !comp_port_write_ne, comp_port_write_eq by done;
      rewrite clamp_t_id by done; done.
  - assert (is_Some (comp_port comp "in")) as [v Hv] by has_port Hok.
    rewrite (Probe_step_Ok comp v) by done. done.
  - assert (is_Some (comp_port comp "ai")) as [a Ha] by has_port Hok.
    assert (is_Some (comp_port comp "bi")) as [b Hb] by has_port Hok.
    assert (is_Some (comp_port comp "ci")) as [c Hc] by has_port Hok.
    assert (is_Some (comp_port comp "so")) as Hso by has_port Hok.
    assert (is_Some (comp_port comp "co")) as Hco by has_port Hok.
    rewrite (TFullAdder_step_Ok comp a b c) by done. cbv zeta. simpl.
    rewrite Hcls.
    destruct (adder_digits a b c) as (Tco & Tso & Hsum & _);
      [by eapply comp_trits_port..|].
    cbv zeta in *.
    set (co := if decide (round_div3 (a + b + c) > 1) then 1
               else if decide (round_div3 (a + b + c) < -1) then -1
               else round_div3 (a + b + c)) in *.
    rewrite !(clamp_t_id co), !(clamp_t_id (a + b + c - 3 * co)) by done.
    exists a, b, c, (a + b + c - 3 * co), co.
    rewrite !comp_port_write_ne by done.
    rewrite comp_port_write_eq by (by rewrite comp_port_write_ne).
    rewrite comp_port_write_ne, comp_port_write_eq by done.
    by split_and!.
Qed.

Lemma resolved_trits c : circuit_trits c → circuit_trits (resolved c).
Proof. apply write_all_trits. Qed.

(** X9.  After every [step] that returns, on a circuit whose components
    have the ports of their class and hold trits, each component agrees
    with its transfer function on the values its ports then hold: an
    inverter shows the negation of its input, TAND the minimum and TNOR
    the negated maximum of its inputs, the transistor its sign when
    presence and sign are both not 0 and 0 otherwise, the latch its memory
    (which is the input when enable is 1), the probe remembers its input,
    and the adder's outputs sum, with weight 3 on the carry, to its three
    inputs. *)
Theorem step_settles_components (c c' : Circuit) :
  wf c → circuit_trits c → step c = Ok () c' →
  ∀ d comp', components c' !! d = Some comp' → settled comp'.
Proof.
  intros Hwf Htr Hstep d comp' E.
  assert (structure c' = structure c) as Hs.
  { pose proof (step_structure c) as H. by rewrite Hstep in H. }
  destruct (structure_components _ _ _ _ Hs E) as (comp & Hcomp & _).
  destruct (step_component _ _ _ _ Hwf Hstep Hcomp)
    as (comp2 & E2 & _ & Hok & E').
  rewrite E in E'. injection E' as ->. apply stepped_settled; [done|].
  by apply (resolved_trits c Htr d).
Qed.

Lemma step_settles_components_witness :
  ∃ a b, comp_port (state_of (Component_step (TAND "x"))) "in1" = Some a ∧
         comp_port (state_of (Component_step (TAND "x"))) "in2" = Some b ∧
         comp_port (state_of (Component_step (TAND "x"))) "out"
           = Some (Z.min a b).
Proof.
  destruct (step_settles_components
              (calls [CallAdd (NewTAND "x")] Circuit_init)
              (state_of (step (calls [CallAdd (NewTAND "x")] Circuit_init))))
    with (d := "x") (comp' := state_of (Component_step (TAND "x")))
    as (a & b & H);
    [apply reachable_wf; by eexists | apply reachable_trits; by eexists
    | by vm_compute | by vm_compute |].
  by exists a, b.
Defined.

(** X10.  [get_probe] raises [KeyError] on an unknown id and [ValueError] on
    a component that is not a probe.  After a [step] that returns, on a
    circuit whose components have the ports of their class, it reads what
    the step resolved for the probe's input: the net of the values its
    drivers carried before the step, or the input's old value when no
    wire drives it. *)
Theorem get_probe_reading :
  (∀ c k, components c !! k = None →
     get_probe k c = Raise (KeyError k) c) ∧
  (∀ c k comp, components c !! k = Some comp →
     (∀ last, Component.cls comp ≠ Cls.Probe last) →
     get_probe k c = Raise (ValueError "Component is not a probe") c) ∧
  (∀ c c' k comp last, wf c → step c = Ok () c' →
     components c !! k = Some comp → Component.cls comp = Cls.Probe last →
     ∃ v, get_probe k c' = Ok v c' ∧
          port_value c' k "in" = Some v ∧
          Some v = if decide (driving c k "in" = [])
                   then port_value c k "in"
                   else Some (resolve_wire (drivers c k "in"))).
Proof.
  split_and!.
  - intros c k E. unfold get_probe. by rewrite E.
  - intros c k comp E Hn. unfold get_probe. rewrite E.
    destruct (Component.cls comp) eqn:Hcls; try done.
    exfalso. by eapply Hn.
  - intros c c' k comp last Hwf Hstep E Hcls.
    destruct (step_component _ _ _ _ Hwf Hstep E)
      as (comp2 & E2 & Hs & Hok & E').
    assert (∃ l0, Component.cls comp2 = Cls.Probe l0) as [l0 Hcls2].
    { pose proof (structure_class _ _ Hs) as H2. rewrite Hcls in H2.
      destruct (Component.cls comp2); try done. by eexists. }
    assert (is_Some (comp_port comp2 "in")) as [l Hin2] by has_port Hok.
    assert (stepped comp2 = Component.set_cls (Cls.Probe l) comp2) as Hst.
    { unfold stepped, Component_step. rewrite Hcls2.
      by rewrite (Probe_step_Ok comp2 l). }
    assert (Component.cls (stepped comp2) = Cls.Probe l) as Hl
      by (by rewrite Hst).
    assert (comp_port (stepped comp2) "in" = Some l) as Hset
      by (by rewrite Hst, comp_port_set_cls).
    exists l. unfold get_probe. rewrite E', Hl. split; [done|].
    assert (port_value c' k "in" = Some l) as Hin
      by (by rewrite port_value_comp, E').
    split; [done|]. rewrite <-Hin. apply step_input_port; [done..|].
    unfold port_direction. rewrite E. simpl.
    pose proof (proj2 Hwf _ _ E) as Hok0. unfold comp_ok in Hok0.
    rewrite Hcls in Hok0.
    assert (port_set comp !! "in" = Some ("in", "in")) as Hp
      by (by rewrite Hok0).
    rewrite port_set_lookup in Hp.
    destruct (Component.ports comp !! "in") as [q|]; [|done].
    simpl in *. by injection Hp as _ ->.
Qed.

Lemma get_probe_reading_witness :
  ∃ v, get_probe "p1" (state_of (step (calls smoke_calls Circuit_init)))
         = Ok v (state_of (step (calls smoke_calls Circuit_init))) ∧
       Some v = Some (resolve_wire [0]).
Proof.
  destruct get_probe_reading as (_ & _ & H).
  destruct (H (calls smoke_calls Circuit_init)
              (state_of (step (calls smoke_calls Circuit_init)))
              "p1" (Probe "p1") 0)
    as (v & H1 & _ & H3);
    [apply reachable_wf, smoke_reachable | by vm_compute | by vm_compute
    | done |].
  exists v. split; [done|]. rewrite H3. by vm_compute.
Defined.

(** X11.  [connect] does not look at directions, and a switch has no
    transfer function to restore its output: when a wire leads into the
    output port of a switch, a [step] that returns leaves the net of the
    wire's drivers on that port while the stored value of the switch stays
    what it was, so the two can differ; a switch output that no wire
    drives is not changed by [step]. *)
Theorem step_switch_output (c c' : Circuit) (d : string) (comp : Component) :
  wf c → step c = Ok () c' →
  components c !! d = Some comp → is_switch (Component.cls comp) →
  ∃ comp', components c' !! d = Some comp' ∧
    Component.cls comp' = Component.cls comp ∧
    port_value c' d "out" =
      if decide (driving c d "out" = []) then port_value c d "out"
      else (λ _, resolve_wire (drivers c d "out")) <$> port_value c d "out".
Proof.
  intros Hwf Hstep E Hsw.
  destruct (step_component _ _ _ _ Hwf Hstep E)
    as (comp2 & E2 & Hs & Hok & E').
  assert (Component.cls comp2 = Component.cls comp) as Hcls2.
  { pose proof (write_all_cls (gather c (wires c) []) c d) as H.
    fold (resolved c) in H. rewrite E2, E in H. by injection H. }
  assert (stepped comp2 = comp2) as Hst.
  { unfold stepped, Component_step. rewrite Hcls2.
    by destruct (Component.cls comp). }
  exists comp2. rewrite E', Hst. split; [done|]. split; [done|].
  rewrite (step_switch c c' d comp) by done.
  rewrite port_value_resolved.
  destruct (step_Ok c c' Hwf Hstep) as [Hall _].
  destruct (decide (driving c d "out" = [])) as [Hd|Hd].
  - rewrite decide_True; [done|]. by apply drivers_nil.
  - rewrite decide_False; [done|]. by rewrite drivers_nil.
Qed.

Lemma step_switch_output_witness :
  ∃ comp', components (state_of (step (calls driven_switch_calls
                                         Circuit_init))) !! "b" = Some comp' ∧
    switch_value comp' = Some (-1) ∧
    port_value (state_of (step (calls driven_switch_calls Circuit_init)))
      "b" "out" = Some 1.
Proof.
  destruct (step_switch_output (calls driven_switch_calls Circuit_init)
              (state_of (step (calls driven_switch_calls Circuit_init)))
              "b" (SwitchTernary "b" (-1)))
    as (comp' & H1 & H2 & H3);
    [apply reachable_wf; by eexists | by vm_compute | by vm_compute
    | exact I |].
  exists comp'. split; [done|]. split.
  - unfold switch_value. by rewrite H2.
  - rewrite H3. by vm_compute.
Defined.

(** * Persistence *)

Lemma registry_lookup t f :
  COMPONENT_REGISTRY !! t = Some f →
  (t = "SwitchBinary" ∧ f = call_switch SwitchBinary) ∨
  (t = "SwitchTernary" ∧ f = call_switch SwitchTernary) ∨
  (t = "TNOT" ∧ f = call_plain TNOT) ∨
  (t = "TAND" ∧ f = call_plain TAND) ∨
  (t = "TNOR" ∧ f = call_plain TNOR) ∨
  (t = "Transistor" ∧ f = call_plain Transistor) ∨
  (t = "TLatch" ∧ f = call_plain TLatch) ∨
  (t = "Probe" ∧ f = call_plain Probe) ∨
  (t = "TFullAdder" ∧ f = call_plain TFullAdder).
Proof.
  unfold COMPONENT_REGISTRY. cbn [list_to_map foldr uncurry fst snd].
  repeat (rewrite lookup_insert; case_decide;
          [subst; intros [= <-]; tauto|]).
  by rewrite lookup_empty.
Qed.

Lemma registry_class_name k :
  is_Some (COMPONENT_REGISTRY !! class_name k).
Proof. destruct k; by eexists. Qed.

(** What a successful constructor call of the loader makes. *)
Lemma instantiate_inr e o :
  instantiate e = inr o →
  Component.id o = CompDesc.id e ∧ Component.type o = CompDesc.type e ∧
  ∃ n, o = construct n.
Proof.
  unfold instantiate.
  destruct (COMPONENT_REGISTRY !! CompDesc.type e) as [f|] eqn:Hf; [|done].
  assert (∀ kw, f (CompDesc.id e) kw = inr o →
            Component.id o = CompDesc.id e ∧
            Component.type o = CompDesc.type e ∧ ∃ n, o = construct n) as H.
  { intros kw.
    destruct (registry_lookup _ _ Hf)
      as [[Ht ->]|[[Ht ->]|[[Ht ->]|[[Ht ->]|[[Ht ->]|[[Ht ->]|[[Ht ->]|
          [[Ht ->]|[Ht ->]]]]]]]]];
      rewrite Ht; unfold call_switch, call_plain;
      case_decide; try done; intros [= <-]; (split; [done|]);
      (split; [done|]).
    - by exists (NewSwitchBinary (CompDesc.id e) (default 0 (kw !! "value"))).
    - by exists (NewSwitchTernary (CompDesc.id e) (default 0 (kw !! "value"))).
    - by exists (NewTNOT (CompDesc.id e)).
    - by exists (NewTAND (CompDesc.id e)).
    - by exists (NewTNOR (CompDesc.id e)).
    - by exists (NewTransistor (CompDesc.id e)).
    - by exists (NewTLatch (CompDesc.id e)).
    - by exists (NewProbe (CompDesc.id e)).
    - by exists (NewTFullAdder (CompDesc.id e)). }
  case_decide; apply H.
Qed.

Lemma keyed_fst objs : (keyed objs).*1 = Component.id <$> objs.
Proof. unfold keyed. rewrite <-list_fmap_compose. done. Qed.

Lemma load_components_inr comps c c' :
  load_components comps c = inr c' →
  ∃ objs, Forall2 (λ e o, instantiate e = inr o) comps objs ∧
    NoDup (Component.id <$> objs) ∧
    (∀ o, o ∈ objs → components c !! Component.id o = None) ∧
    order c' = order c ++ (Component.id <$> objs) ∧
    wires c' = wires c ∧
    components c' = list_to_map (keyed objs) ∪ components c.
Proof.
  revert c. induction comps as [|e rest IH]; intros c; simpl.
  - intros [= <-]. exists []. split; [constructor|].
    split; [apply NoDup_nil_2|]. split; [by intros o ?%elem_of_nil|].
    split; [by rewrite app_nil_r|]. split; [done|].
    simpl. by rewrite (left_id_L ∅ (∪)).
  - destruct (instantiate e) as [err|o] eqn:Hi; [done|].
    unfold add. case_decide as Hin; [done|].
    apply eq_None_not_Some in Hin.
    intros H. destruct (IH _ H) as (objs & Hall & Hnd & Hfresh & Ho & Hw & Hc).
    simpl in *. exists (o :: objs).
    assert (Component.id o ∉ Component.id <$> objs) as Hni.
    { intros Hx. apply list_elem_of_fmap in Hx as (o' & Hid & Ho').
      specialize (Hfresh o' Ho'). rewrite <-Hid in Hfresh.
      by rewrite lookup_insert_eq in Hfresh. }
    split; [by constructor|]. split; [by apply NoDup_cons|].
    split.
    { intros o' Hx. apply elem_of_cons in Hx as [->|Ho']; [done|].
      specialize (Hfresh o' Ho').
      destruct (decide (Component.id o = Component.id o')) as [Heq|Hne].
      - by rewrite Heq, lookup_insert_eq in Hfresh.
      - by rewrite lookup_insert_ne in Hfresh. }
    split; [by rewrite Ho, <-app_assoc|]. split; [done|].
    rewrite Hc. simpl. rewrite <-insert_union_l.
    symmetry. apply insert_union_r. apply not_elem_of_list_to_map_1.
    by rewrite keyed_fst.
Qed.

Lemma load_components_closed comps objs c :
  Forall2 (λ e o, instantiate e = inr o) comps objs →
  NoDup (Component.id <$> objs) →
  (∀ o, o ∈ objs → components c !! Component.id o = None) →
  ∃ c', load_components comps c = inr c'.
Proof.
  intros Hall. revert c. induction Hall as [|e o comps objs Hi Hall IH];
    intros c Hnd Hfresh; simpl; [by eexists|].
  rewrite Hi. unfold add.
  rewrite decide_False
    by (rewrite (Hfresh o) by (by left); by intros [??]).
  apply NoDup_cons in Hnd as [Hni Hnd]. apply IH; [done|].
  intros o' Ho'. simpl. rewrite lookup_insert_ne.
  - apply Hfresh. by right.
  - intros Heq. apply Hni. rewrite Heq. by apply list_elem_of_fmap_2.
Qed.

Lemma load_wires_spec ws c :
  load_wires ws c =
    mkCircuit (components c) (order c) (wires c ++ (wire_of_desc <$> ws)).
Proof.
  revert c. induction ws as [|w ws IH]; intros c.
  - simpl. rewrite app_nil_r. by destruct c.
  - unfold load_wires in *. simpl. rewrite IH. simpl.
    by rewrite <-app_assoc.
Qed.

Lemma instantiate_functional comps objs objs' :
  Forall2 (λ e o, instantiate e = inr o) comps objs →
  Forall2 (λ e o, instantiate e = inr o) comps objs' → objs = objs'.
Proof.
  intros H. revert objs'. induction H as [|e o comps objs Hi H IH];
    intros objs' H'; inversion H' as [|? o' ? objs'' Hi' H'']; subst; [done|].
  rewrite Hi in Hi'. injection Hi' as ->. f_equal. by apply IH.
Qed.

Lemma instantiate_ids comps objs :
  Forall2 (λ e o, instantiate e = inr o) comps objs →
  Component.id <$> objs = CompDesc.id <$> comps.
Proof.
  induction 1 as [|e o comps objs Hi H IH]; [done|].
  rewrite !fmap_cons, IH. f_equal. by apply instantiate_inr in Hi as [? _].
Qed.

Lemma load_circuit_spec (data : Desc) (c : Circuit) :
  load_circuit data = inr c ↔
  ∃ objs,
    Forall2 (λ e o, instantiate e = inr o) (Desc.components data) objs ∧
    NoDup (CompDesc.id <$> Desc.components data) ∧
    c = mkCircuit (list_to_map (keyed objs))
                  (CompDesc.id <$> Desc.components data)
                  (wire_of_desc <$> Desc.wires data).
Proof.
  assert (∀ c0, load_components (Desc.components data) Circuit_init = inr c0 →
            ∃ objs,
              Forall2 (λ e o, instantiate e = inr o)
                (Desc.components data) objs ∧
              NoDup (CompDesc.id <$> Desc.components data) ∧
              load_wires (Desc.wires data) c0 =
                mkCircuit (list_to_map (keyed objs))
                  (CompDesc.id <$> Desc.components data)
                  (wire_of_desc <$> Desc.wires data)) as Hfwd.
  { intros c0 H.
    destruct (load_components_inr _ _ _ H)
      as (objs & Hall & Hnd & _ & Ho & Hw & Hc).
    pose proof (instantiate_ids _ _ Hall) as Hids.
    exists objs. split; [done|]. split; [by rewrite <-Hids|].
    rewrite load_wires_spec, Hc, Ho, Hw, Hids. simpl.
    by rewrite (right_id_L ∅ (∪)). }
  unfold load_circuit. split.
  - destruct (load_components _ _) as [err|c0] eqn:H; [done|].
    intros [= <-]. destruct (Hfwd c0 eq_refl) as (objs & H1 & H2 & H3).
    by exists objs.
  - intros (objs & Hall & Hnd & ->).
    destruct (load_components_closed _ _ Circuit_init Hall) as [c0 H].
    + by rewrite (instantiate_ids _ _ Hall).
    + done.
    + rewrite H. destruct (Hfwd c0 H) as (objs' & H1 & H2 & H3).
      by rewrite H3, (instantiate_functional _ _ _ Hall H1).
Qed.







(** ** Export and reload *)

Lemma rebuilt_id comp : Component.id (rebuilt comp) = Component.id comp.
Proof. unfold rebuilt. by destruct (Component.cls comp). Qed.

Lemma SwitchBinary_eq id v :
  SwitchBinary id v =
    Component.mk id "SwitchBinary"
      {[ "out" := Port.mk "out" "out" (if decide (v ≠ 0) then 1 else 0) ]}
      (Cls.SwitchBinary (if decide (v ≠ 0) then 1 else 0)).
Proof.
  unfold SwitchBinary. cbv zeta. rewrite set_out_Some by (by eexists).
  unfold write_port, Component.set_ports. simpl.
  rewrite alter_singleton_eq. simpl. by case_decide.
Qed.

Lemma SwitchTernary_eq id v :
  SwitchTernary id v =
    Component.mk id "SwitchTernary"
      {[ "out" := Port.mk "out" "out" (clamp_t v) ]}
      (Cls.SwitchTernary (clamp_t v)).
Proof.
  unfold SwitchTernary. cbv zeta. rewrite set_out_Some by (by eexists).
  unfold write_port, Component.set_ports. simpl.
  rewrite alter_singleton_eq. simpl.
  by rewrite (clamp_t_id (clamp_t v)) by apply clamp_t_trit.
Qed.

Lemma rebuilt_construct n : rebuilt (construct n) = construct n.
Proof.
  destruct n; try done.
  - simpl. rewrite (SwitchBinary_eq id value). unfold rebuilt, comp_port.
    simpl. rewrite lookup_singleton_eq. simpl. rewrite SwitchBinary_eq.
    by repeat case_decide.
  - simpl. rewrite (SwitchTernary_eq id value). unfold rebuilt, comp_port.
    simpl. rewrite lookup_singleton_eq. simpl. rewrite SwitchTernary_eq.
    by rewrite (clamp_t_id (clamp_t value)) by apply clamp_t_trit.
Qed.

Lemma rebuilt_structure comp :
  comp_ok comp → Component.type comp = class_name (Component.cls comp) →
  comp_structure (rebuilt comp) = comp_structure comp.
Proof.
  intros Hok Hty. unfold comp_structure. rewrite rebuilt_id, Hty, Hok.
  unfold rebuilt. by destruct (Component.cls comp).
Qed.

Lemma dump_entry_rebuilt comp :
  comp_ok comp → Component.type comp = class_name (Component.cls comp) →
  ∃ e, dump_entry comp = inr e ∧ CompDesc.id e = Component.id comp ∧
       instantiate e = inr (rebuilt comp).
Proof.
  intros Hok Hty. unfold dump_entry, rebuilt. rewrite Hty.
  assert (∀ v : Z, ({[ "value" := v ]} : gmap string Z) ≠ ∅) as Hne
    by (intros v; apply insert_non_empty).
  destruct (Component.cls comp) eqn:Hcls; cbn [class_name].
  - assert (is_Some (comp_port comp "out")) as [v Hv] by has_port Hok.
    rewrite decide_True by (by left). rewrite Hv.
    eexists. split; [done|]. split; [done|].
    unfold instantiate. cbn [CompDesc.type CompDesc.params CompDesc.id].
    change (COMPONENT_REGISTRY !! "SwitchBinary")
      with (Some (call_switch SwitchBinary)).
    cbv beta iota.
    rewrite decide_True by done.
    unfold call_switch. rewrite decide_True by set_solver.
    by rewrite lookup_singleton_eq.
  - assert (is_Some (comp_port comp "out")) as [v Hv] by has_port Hok.
    rewrite decide_True by (by right). rewrite Hv.
    eexists. split; [done|]. split; [done|].
    unfold instantiate. cbn [CompDesc.type CompDesc.params CompDesc.id].
    change (COMPONENT_REGISTRY !! "SwitchTernary")
      with (Some (call_switch SwitchTernary)).
    cbv beta iota.
    rewrite decide_True by done.
    unfold call_switch. rewrite decide_True by set_solver.
    by rewrite lookup_singleton_eq.
  - rewrite decide_False by (by intros [?|?]).
    eexists. split; [done|]. split; [done|]. unfold instantiate.
    cbn [CompDesc.type CompDesc.params CompDesc.id].
    change (COMPONENT_REGISTRY !! "TNOT") with (Some (call_plain TNOT)).
    cbv beta iota.
    rewrite decide_False by (by intros H; apply H).
    unfold call_plain. by rewrite decide_True.
  - rewrite decide_False by (by intros [?|?]).
    eexists. split; [done|]. split; [done|]. unfold instantiate.
    cbn [CompDesc.type CompDesc.params CompDesc.id].
    change (COMPONENT_REGISTRY !! "TAND") with (Some (call_plain TAND)).
    cbv beta iota.
    rewrite decide_False by (by intros H; apply H).
    unfold call_plain. by rewrite decide_True.
  - rewrite decide_False by (by intros [?|?]).
    eexists. split; [done|]. split; [done|]. unfold instantiate.
    cbn [CompDesc.type CompDesc.params CompDesc.id].
    change (COMPONENT_REGISTRY !! "TNOR") with (Some (call_plain TNOR)).
    cbv beta iota.
    rewrite decide_False by (by intros H; apply H).
    unfold call_plain. by rewrite decide_True.
  - rewrite decide_False by (by intros [?|?]).
    eexists. split; [done|]. split; [done|]. unfold instantiate.
    cbn [CompDesc.type CompDesc.params CompDesc.id].
    change (COMPONENT_REGISTRY !! "Transistor")
      with (Some (call_plain Transistor)).
    cbv beta iota.
    rewrite decide_False by (by intros H; apply H).
    unfold call_plain. by rewrite decide_True.
  - rewrite decide_False by (by intros [?|?]).
    eexists. split; [done|]. split; [done|]. unfold instantiate.
    cbn [CompDesc.type CompDesc.params CompDesc.id].
    change (COMPONENT_REGISTRY !! "TLatch") with (Some (call_plain TLatch)).
    cbv beta iota.
    rewrite decide_False by (by intros H; apply H).
    unfold call_plain. by rewrite decide_True.
  - rewrite decide_False by (by intros [?|?]).
    eexists. split; [done|]. split; [done|]. unfold instantiate.
    cbn [CompDesc.type CompDesc.params CompDesc.id].
    change (COMPONENT_REGISTRY !! "Probe") with (Some (call_plain Probe)).
    cbv beta iota.
    rewrite decide_False by (by intros H; apply H).
    unfold call_plain. by rewrite decide_True.
  - rewrite decide_False by (by intros [?|?]).
    eexists. split; [done|]. split; [done|]. unfold instantiate.
    cbn [CompDesc.type CompDesc.params CompDesc.id].
    change (COMPONENT_REGISTRY !! "TFullAdder")
      with (Some (call_plain TFullAdder)).
    cbv beta iota.
    rewrite decide_False by (by intros H; apply H).
    unfold call_plain. by rewrite decide_True.
Qed.

Lemma dump_entries_rebuilt comps :
  Forall (λ comp, comp_ok comp ∧
                  Component.type comp = class_name (Component.cls comp))
    comps →
  ∃ entries, dump_entries comps = inr entries ∧
    CompDesc.id <$> entries = Component.id <$> comps ∧
    Forall2 (λ e o, instantiate e = inr o) entries (rebuilt <$> comps).
Proof.
  induction 1 as [|comp comps [Hok Hty] _ (entries & He & Hids & Hall)].
  - exists []. by repeat split; try constructor.
  - destruct (dump_entry_rebuilt comp Hok Hty) as (e & H1 & H2 & H3).
    exists (e :: entries). cbn [dump_entries]. rewrite H1, He.
    split; [done|]. split; [by rewrite !fmap_cons, H2, Hids|].
    rewrite fmap_cons. by constructor.
Qed.

Lemma omap_lookup_Forall2 (m : gmap string Component) (l : list string) :
  Forall (λ k, is_Some (m !! k)) l →
  Forall2 (λ k comp, m !! k = Some comp) l (omap (λ k, m !! k) l).
Proof.
  induction 1 as [|k ks [comp Hk] _ IH]; [constructor|].
  change (omap (λ k, m !! k) (k :: ks))
    with (match m !! k with
          | Some y => y :: omap (λ k, m !! k) ks
          | None => omap (λ k, m !! k) ks
          end).
  rewrite Hk. by constructor.
Qed.

Lemma values_lookup c :
  dict_ok c →
  Forall2 (λ k comp, components c !! k = Some comp) (order c) (values c).
Proof.
  intros [_ Hdom]. apply omap_lookup_Forall2.
  apply Forall_forall. intros k. apply Hdom.
Qed.

Lemma wire_of_dump_wire w : wire_of_desc (dump_wire w) = w.
Proof. by destruct w. Qed.

Lemma wires_of_dump_wires (ws : list Wire) :
  wire_of_desc <$> (dump_wire <$> ws) = ws.
Proof.
  induction ws as [|w ws IH]; [done|].
  by rewrite !fmap_cons, IH, wire_of_dump_wire.
Qed.

Lemma rebuilt_ids (comps : list Component) :
  Component.id <$> (rebuilt <$> comps) = Component.id <$> comps.
Proof.
  induction comps as [|comp comps IH]; [done|].
  by rewrite !fmap_cons, IH, rebuilt_id.
Qed.

Lemma dump_load c :
  wf c → named c →
  ∃ d, dump_circuit c = inr d ∧ load_circuit d = inr (rebuild c) ∧
       Desc.name d = Some "Exported" ∧ Desc.version d = Some 1.
Proof.
  intros [Hdict Hok] Hn.
  pose proof (values_lookup c Hdict) as Hv.
  assert (Forall (λ comp, comp_ok comp ∧
            Component.type comp = class_name (Component.cls comp))
            (values c)) as Hall.
  { apply Forall_forall. intros comp Hin.
    apply list_elem_of_lookup in Hin as [i Hi].
    destruct (Forall2_lookup_r _ _ _ _ _ Hv Hi) as (k & _ & Hk).
    split; [by apply (Hok k)|by apply (Hn k)]. }
  assert (Component.id <$> values c = order c) as Hids.
  { clear Hall. induction Hv as [|k comp ks comps Hk Hv IH]; [done|].
    rewrite fmap_cons, IH. f_equal. by apply (Hn k). }
  destruct (dump_entries_rebuilt _ Hall) as (entries & He & Hid & Hinst).
  unfold dump_circuit. rewrite He. eexists. split; [done|].
  split; [|done].
  apply load_circuit_spec. exists (rebuilt <$> values c). simpl.
  split; [done|]. rewrite Hid, Hids. split; [apply Hdict|].
  unfold rebuild. f_equal.
  - apply map_eq. intros k. rewrite lookup_fmap.
    assert (NoDup (keyed (rebuilt <$> values c)).*1) as Hnd.
    { rewrite keyed_fst, rebuilt_ids, Hids. apply Hdict. }
    destruct (components c !! k) as [comp|] eqn:E; simpl.
    + symmetry. apply elem_of_list_to_map; [done|].
      unfold keyed. apply list_elem_of_fmap. exists (rebuilt comp).
      split; [by rewrite rebuilt_id, (proj1 (Hn k comp E))|].
      apply list_elem_of_fmap_2.
      assert (k ∈ order c) as Hin
        by (apply Hdict; by rewrite E).
      apply list_elem_of_lookup in Hin as [i Hi].
      destruct (Forall2_lookup_l _ _ _ _ _ Hv Hi) as (comp' & Hc' & Hk).
      rewrite E in Hk. injection Hk as <-.
      apply list_elem_of_lookup. by exists i.
    + symmetry. apply not_elem_of_list_to_map_1.
      rewrite keyed_fst, rebuilt_ids, Hids. intros Hin. apply Hdict in Hin. rewrite E in Hin.
      by destruct Hin.
  - by rewrite wires_of_dump_wires.
Qed.

Lemma rebuild_structure c :
  wf c → named c → structure (rebuild c) = structure c.
Proof.
  intros [_ Hok] Hn. unfold structure, rebuild. simpl. do 2 f_equal.
  apply map_eq. intros k. rewrite !lookup_fmap.
  destruct (components c !! k) as [comp|] eqn:E; [|done]. simpl. f_equal.
  apply rebuilt_structure; [by apply (Hok k)|by apply (Hn k)].
Qed.

(** X14.  Exporting a circuit whose components are the engine's (stored
    under their ids, with the type and ports of their class, holding
    trits) and loading the export always succeeds and resets the circuit:
    the result has the same structure (ids and their order, classes,
    ports, wires), every ternary
    switch shows and stores what its output port showed, a binary switch
    stores 1 when its output port was not 0 and 0 otherwise, and latches
    and probes are fresh, their memory and reading lost. *)
Theorem dump_load_resets (c : Circuit) :
  wf c → named c → circuit_trits c →
  ∃ d c', dump_circuit c = inr d ∧ load_circuit d = inr c' ∧
    structure c' = structure c ∧
    (∀ k comp v, components c !! k = Some comp →
       Component.cls comp = Cls.SwitchTernary v →
       port_value c' k "out" = port_value c k "out" ∧
       (switch_value <$> components c' !! k) = Some (port_value c k "out")) ∧
    (∀ k comp v x, components c !! k = Some comp →
       Component.cls comp = Cls.SwitchBinary v →
       port_value c k "out" = Some x →
       port_value c' k "out" = Some (if decide (x ≠ 0) then 1 else 0)) ∧
    (∀ k comp st, components c !! k = Some comp →
       Component.cls comp = Cls.TLatch st →
       components c' !! k = Some (TLatch k)) ∧
    (∀ k comp last, components c !! k = Some comp →
       Component.cls comp = Cls.Probe last →
       components c' !! k = Some (Probe k)).
Proof.
  intros Hwf Hn Htr.
  destruct (dump_load c Hwf Hn) as (d & Hd & Hl & _).
  exists d, (rebuild c). split; [done|]. split; [done|].
  split; [by apply rebuild_structure|].
  assert (∀ k comp, components c !! k = Some comp →
            components (rebuild c) !! k = Some (rebuilt comp)) as Hr.
  { intros k comp E. unfold rebuild. simpl. by rewrite lookup_fmap, E. }
  split_and!.
  - intros k comp v E Hcls.
    assert (is_Some (comp_port comp "out")) as [x Hx]
      by (pose proof (proj2 Hwf k comp E) as Hok; has_port Hok).
    assert (is_trit x) as Tx by (by eapply comp_trits_port; [apply (Htr k)|]).
    rewrite !port_value_comp, (Hr k comp E), E. simpl.
    unfold rebuilt. rewrite Hcls, Hx. simpl.
    rewrite SwitchTernary_eq, (clamp_t_id x) by done.
    unfold comp_port, switch_value. simpl.
    by rewrite lookup_singleton_eq.
  - intros k comp v x E Hcls Hx.
    rewrite port_value_comp, E in Hx. simpl in Hx.
    rewrite port_value_comp, (Hr k comp E). simpl.
    unfold rebuilt. rewrite Hcls, Hx. simpl.
    rewrite SwitchBinary_eq. unfold comp_port. simpl.
    by rewrite lookup_singleton_eq.
  - intros k comp st E Hcls. rewrite (Hr k comp E). unfold rebuilt.
    by rewrite Hcls, (proj1 (Hn k comp E)).
  - intros k comp last E Hcls. rewrite (Hr k comp E). unfold rebuilt.
    by rewrite Hcls, (proj1 (Hn k comp E)).
Qed.

Lemma dump_load_resets_witness :
  ∃ d c', dump_circuit (state_of (smoke_run Circuit_init)) = inr d ∧
          load_circuit d = inr c' ∧
          structure c' = structure (state_of (smoke_run Circuit_init)).
Proof.
  assert (reachable (state_of (smoke_run Circuit_init))) as Hc.
  { exists (smoke_calls ++ [CallStep; CallGetProbe "p1"; CallToggle "sw1";
                            CallToggle "sw2"; CallStep; CallGetProbe "p1"]).
    by vm_compute. }
  destruct (dump_load_resets (state_of (smoke_run Circuit_init)))
    as (d & c' & H1 & H2 & H3 & _).
  - by apply reachable_wf.
  - by apply reachable_named.
  - by apply reachable_trits.
  - exists d, c'. split; [exact H1|]. split; [exact H2|exact H3].
Defined.

Lemma loaded_wf_named data c :
  load_circuit data = inr c →
  wf c ∧ named c ∧ rebuild c = c ∧ circuit_trits c.
Proof.
  intros H. apply load_circuit_spec in H as (objs & Hall & Hnd & ->).
  pose proof (instantiate_ids _ _ Hall) as Hids.
  assert (NoDup (keyed objs).*1) as Hnd' by (by rewrite keyed_fst, Hids).
  assert (∀ k comp,
            (list_to_map (keyed objs) : gmap string Component) !! k
              = Some comp →
            ∃ n, comp = construct n ∧ Component.id comp = k ∧ comp ∈ objs)
    as Hl.
  { intros k comp Hk. apply elem_of_list_to_map in Hk; [|done].
    unfold keyed in Hk. apply list_elem_of_fmap in Hk as (o & [= -> ->] & Ho).
    apply list_elem_of_lookup in Ho as [i Hi].
    destruct (Forall2_lookup_r _ _ _ _ _ Hall Hi) as (e & _ & He).
    apply instantiate_inr in He as (_ & _ & n & ->).
    exists n. split; [done|]. split; [done|].
    apply list_elem_of_lookup. by exists i. }
  split; [split; [split|]|split; [|split]]; simpl.
  - done.
  - intros k. rewrite <-Hids, <-keyed_fst. split.
    + intros Hin. apply list_elem_of_fmap in Hin as ([k' o] & -> & Ho).
      exists o. by apply elem_of_list_to_map.
    + intros [comp Hk]. apply elem_of_list_to_map in Hk; [|done].
      apply list_elem_of_fmap. by exists (k, comp).
  - intros k comp Hk. destruct (Hl k comp Hk) as (n & -> & _).
    apply construct_ok.
  - intros k comp Hk. destruct (Hl k comp Hk) as (n & -> & Hid & _).
    split; [done|apply construct_named].
  - unfold rebuild. simpl. f_equal. apply map_eq. intros k.
    rewrite lookup_fmap.
    destruct ((list_to_map (keyed objs) : gmap string Component) !! k)
      as [comp|] eqn:Hk; [|done].
    destruct (Hl k comp Hk) as (n & -> & _). simpl.
    by rewrite rebuilt_construct.
  - intros k comp Hk. destruct (Hl k comp Hk) as (n & -> & _).
    apply construct_trits.
Qed.

Lemma instantiate_types comps objs :
  Forall2 (λ e o, instantiate e = inr o) comps objs →
  Component.type <$> objs = CompDesc.type <$> comps.
Proof.
  induction 1 as [|e o comps objs Hi H IH]; [done|].
  rewrite !fmap_cons, IH. f_equal.
  by apply instantiate_inr in Hi as (_ & ? & _).
Qed.

Lemma keyed_inj objs objs' :
  NoDup (Component.id <$> objs) →
  Component.id <$> objs = Component.id <$> objs' →
  (list_to_map (keyed objs) : gmap string Component)
    = list_to_map (keyed objs') →
  objs = objs'.
Proof.
  intros Hnd Hids Hmap. apply list_eq. intros i.
  assert (∀ l o, NoDup (Component.id <$> l) → l !! i = Some o →
            (list_to_map (keyed l) : gmap string Component)
              !! Component.id o = Some o) as Hl.
  { intros l o Hn Ho. apply elem_of_list_to_map; [by rewrite keyed_fst|].
    unfold keyed. apply list_elem_of_fmap. exists o. split; [done|].
    apply list_elem_of_lookup. by exists i. }
  pose proof (f_equal (λ l, l !! i) Hids) as Hi. simpl in Hi.
  rewrite !list_lookup_fmap in Hi.
  destruct (objs !! i) as [o|] eqn:E, (objs' !! i) as [o'|] eqn:E';
    try done.
  simpl in Hi. injection Hi as Hi.
  pose proof (Hl objs o Hnd E) as H1.
  assert (NoDup (Component.id <$> objs')) as Hnd' by (by rewrite <-Hids).
  pose proof (Hl objs' o' Hnd' E') as H2.
  rewrite Hmap, Hi, H2 in H1. by injection H1 as ->.
Qed.

Lemma wire_of_desc_inj : Inj (=) (=) wire_of_desc.
Proof.
  intros [[a b] [d e]] [[a' b'] [d' e']]. unfold wire_of_desc. simpl.
  by intros [= -> -> -> ->].
Qed.

(** X15.  A circuit that was loaded survives export and reload unchanged:
    when [load_circuit_from_json] returns a circuit, exporting it succeeds
    and loading the export returns the same circuit, values included; the
    export lists the same wires and the same component ids and types, in
    the same order, as the description that was loaded. *)
Theorem load_dump_load (data : Desc) (c : Circuit) :
  load_circuit data = inr c →
  ∃ d, dump_circuit c = inr d ∧ load_circuit d = inr c ∧
       Desc.wires d = Desc.wires data ∧
       CompDesc.id <$> Desc.components d
         = CompDesc.id <$> Desc.components data ∧
       CompDesc.type <$> Desc.components d
         = CompDesc.type <$> Desc.components data.
Proof.
  intros H. destruct (loaded_wf_named data c H) as (Hwf & Hn & Hr & _).
  destruct (dump_load c Hwf Hn) as (d & Hd & Hl & _). rewrite Hr in Hl.
  exists d. split; [done|]. split; [done|].
  apply load_circuit_spec in H as (objs & Hall & Hnd & Hc).
  apply load_circuit_spec in Hl as (objs' & Hall' & Hnd' & Hc').
  rewrite Hc in Hc'. injection Hc' as Hm Ho Hw.
  pose proof (instantiate_ids _ _ Hall) as Hids.
  pose proof (instantiate_ids _ _ Hall') as Hids'.
  assert (objs = objs') as <-.
  { apply keyed_inj; [by rewrite Hids| |done]. by rewrite Hids, Hids'. }
  split; [|split].
  - symmetry. by apply (list_fmap_eq_inj wire_of_desc wire_of_desc_inj).
  - done.
  - by rewrite <-(instantiate_types _ _ Hall), <-(instantiate_types _ _ Hall').
Qed.

Lemma load_dump_load_witness :
  ∃ c d, load_circuit sample_desc = inr c ∧ dump_circuit c = inr d ∧
         load_circuit d = inr c ∧
         CompDesc.params <$> Desc.components d
           = [ {[ "value" := 1 ]}; ∅; ∅ ].
Proof.
  destruct (load_circuit sample_desc) as [e|c] eqn:E; [by vm_compute in E|].
  destruct (load_dump_load sample_desc c E) as (d & H1 & H2 & _).
  exists c, d. split; [done|]. split; [exact H1|]. split; [exact H2|].
  vm_compute in E. injection E as <-.
  vm_compute in H1. injection H1 as <-. reflexivity.
Defined.

(** * The editor *)

(** The constructor call of [add_component] never fails on a registered
    type: the value is passed to the switch classes only. *)
Lemma add_component_call ctype cls cid :
  COMPONENT_REGISTRY !! ctype = Some cls →
  ∃ n, (if String.prefix "Switch" ctype
        then cls cid {[ "value" := 0 ]} else cls cid ∅) = inr (construct n) ∧
       Component.id (construct n) = cid ∧
       Component.type (construct n) = ctype ∧
       (switch_value (construct n) = None ∨
        switch_value (construct n) = Some 0).
Proof.
  intros Hf.
  assert (dom ({[ "value" := 0 ]} : gmap string Z)
            ⊆ ({[ "value" ]} : gset string)) as Hdom
    by (by rewrite dom_singleton_L).
  destruct (registry_lookup _ _ Hf)
    as [[-> ->]|[[-> ->]|[[-> ->]|[[-> ->]|[[-> ->]|[[-> ->]|[[-> ->]|
        [[-> ->]|[-> ->]]]]]]]]];
    match goal with
    | |- context [String.prefix ?a ?b] =>
        let v := eval vm_compute in (String.prefix a b) in
        change (String.prefix a b) with v
    end; cbv iota; unfold call_switch, call_plain;
    rewrite ?(decide_True (P := dom _ ⊆ _)) by done;
    rewrite ?(decide_True (P := (∅ : gmap string Z) = ∅)) by done;
    rewrite ?lookup_singleton_eq; simpl.
  - exists (NewSwitchBinary cid 0). split_and!; try done. right.
    simpl. by rewrite SwitchBinary_eq.
  - exists (NewSwitchTernary cid 0). split_and!; try done. right.
    simpl. by rewrite SwitchTernary_eq.
  - by exists (NewTNOT cid); split_and!; try done; left.
  - by exists (NewTAND cid); split_and!; try done; left.
  - by exists (NewTNOR cid); split_and!; try done; left.
  - by exists (NewTransistor cid); split_and!; try done; left.
  - by exists (NewTLatch cid); split_and!; try done; left.
  - by exists (NewProbe cid); split_and!; try done; left.
  - by exists (NewTFullAdder cid); split_and!; try done; left.
Qed.

Lemma add_component_spec ctype c :
  let cid := ctype +:+ "_" +:+ pretty (size (components c) + 1)%nat in
  (COMPONENT_REGISTRY !! ctype = None →
   add_component ctype c = (Some (Exn (KeyError ctype)), c)) ∧
  (is_Some (COMPONENT_REGISTRY !! ctype) →
   (is_Some (components c !! cid) →
    add_component ctype c =
      (Some (Exn (ValueError ("Duplicate component id " +:+ cid))), c)) ∧
   (components c !! cid = None →
    ∃ n, Component.id (construct n) = cid ∧
         Component.type (construct n) = ctype ∧
         (switch_value (construct n) = None ∨
          switch_value (construct n) = Some 0) ∧
         add_component ctype c =
           (None, state_of (add (construct n) c)) ∧
         state_of (add (construct n) c) =
           mkCircuit (<[cid := construct n]> (components c))
                     (order c ++ [cid]) (wires c))).
Proof.
  intros cid. split.
  - intros Hf. unfold add_component. by rewrite Hf.
  - intros [cls Hf].
    destruct (add_component_call ctype cls cid Hf)
      as (n & Hcall & Hid & Hty & Hsw).
    split.
    + intros Hin. unfold add_component. rewrite Hf. fold cid.
      rewrite Hcall. unfold add. rewrite Hid.
      by rewrite decide_True by done.
    + intros Hnone. exists n. split; [done|]. split; [done|].
      split; [done|]. unfold add_component. rewrite Hf. fold cid.
      rewrite Hcall. unfold add. rewrite Hid.
      rewrite decide_False by (rewrite Hnone; by intros [??]). done.
Qed.

(** X16.  [add_component] on an unknown type raises [KeyError] and on a
    known type whose generated id is taken the duplicate-id [ValueError],
    the circuit unchanged in both cases; otherwise it returns and the
    circuit has one more component, of the class named, stored under the
    generated id at the end of the dictionary, a switch with value 0; the
    constructor call itself never fails. *)
Theorem add_component_effect (ctype : string) (c : Circuit) :
  let cid := ctype +:+ "_" +:+ pretty (size (components c) + 1)%nat in
  (COMPONENT_REGISTRY !! ctype = None →
   add_component ctype c = (Some (Exn (KeyError ctype)), c)) ∧
  (is_Some (COMPONENT_REGISTRY !! ctype) →
   (is_Some (components c !! cid) →
    add_component ctype c =
      (Some (Exn (ValueError ("Duplicate component id " +:+ cid))), c)) ∧
   (components c !! cid = None →
    ∃ n, Component.id (construct n) = cid ∧
         Component.type (construct n) = ctype ∧
         (switch_value (construct n) = None ∨
          switch_value (construct n) = Some 0) ∧
         add_component ctype c =
           (None, mkCircuit (<[cid := construct n]> (components c))
                            (order c ++ [cid]) (wires c)))).
Proof.
  intros cid. destruct (add_component_spec ctype c) as [H1 H2].
  split; [done|]. intros Hf. destruct (H2 Hf) as [H3 H4]. split; [done|].
  intros Hn. destruct (H4 Hn) as (n & ? & ? & ? & Ha & Hs).
  exists n. rewrite Ha, Hs. by split_and!.
Qed.

Lemma add_component_effect_witness :
  add_component "XOR" Circuit_init = (Some (Exn (KeyError "XOR")), Circuit_init)
  ∧ ∃ n, add_component "SwitchTernary" Circuit_init =
           (None, mkCircuit {[ "SwitchTernary_1" := construct n ]}
                            ["SwitchTernary_1"] []).
Proof.
  split.
  - by apply (add_component_effect "XOR" Circuit_init).
  - destruct (add_component_effect "SwitchTernary" Circuit_init) as [_ H].
    destruct H as [_ H]; [by eexists|].
    destruct H as (n & _ & _ & _ & H); [done|]. by exists n.
Defined.

Lemma editor_id_inj t t' s s' :
  is_Some (COMPONENT_REGISTRY !! t) → is_Some (COMPONENT_REGISTRY !! t') →
  t +:+ "_" +:+ s = t' +:+ "_" +:+ s' → t = t' ∧ s = s'.
Proof.
  intros [f Hf] [f' Hf'].
  destruct (registry_lookup _ _ Hf)
    as [[-> _]|[[-> _]|[[-> _]|[[-> _]|[[-> _]|[[-> _]|[[-> _]|
        [[-> _]|[-> _]]]]]]]]];
  destruct (registry_lookup _ _ Hf')
    as [[-> _]|[[-> _]|[[-> _]|[[-> _]|[[-> _]|[[-> _]|[[-> _]|
        [[-> _]|[-> _]]]]]]]]];
    cbn; intros H; try discriminate H; by injection H.
Qed.

Lemma acts_app l1 l2 c : acts (l1 ++ l2) c = acts l2 (acts l1 c).
Proof. unfold acts. by rewrite foldl_app. Qed.

Lemma editor_ids_snoc ts t :
  editor_ids (ts ++ [t]) =
    editor_ids ts ++ [t +:+ "_" +:+ pretty (S (length ts))].
Proof.
  unfold editor_ids. rewrite imap_app. simpl.
  by rewrite Nat.add_0_r.
Qed.

Lemma editor_id_fresh c ts t :
  wf c → order c = editor_ids ts →
  Forall (λ t, is_Some (COMPONENT_REGISTRY !! t)) ts →
  is_Some (COMPONENT_REGISTRY !! t) →
  components c !! (t +:+ "_" +:+ pretty (S (length ts))) = None.
Proof.
  intros Hwf Hord Hts Ht.
  destruct (components c !! (t +:+ "_" +:+ pretty (S (length ts))))
    eqn:E; [|done]. exfalso.
  assert (t +:+ "_" +:+ pretty (S (length ts)) ∈ order c) as Hin
    by (apply Hwf; by rewrite E).
  rewrite Hord in Hin. unfold editor_ids in Hin.
  apply elem_of_lookup_imap in Hin as (i & ti & Heq & Hi).
  destruct (editor_id_inj t ti (pretty (S (length ts))) (pretty (S i)) Ht)
    as [_ Hp]; [|exact Heq|].
  { apply (proj1 (Forall_forall _ _) Hts).
    apply list_elem_of_lookup. by exists i. }
  apply (inj pretty) in Hp. apply lookup_lt_Some in Hi. lia.
Qed.

Lemma placed_spec ts :
  Forall (λ t, is_Some (COMPONENT_REGISTRY !! t)) ts →
  wf (acts (ActAdd <$> ts) Circuit_init) ∧
  order (acts (ActAdd <$> ts) Circuit_init) = editor_ids ts ∧
  size (components (acts (ActAdd <$> ts) Circuit_init)) = length ts ∧
  wires (acts (ActAdd <$> ts) Circuit_init) = [].
Proof.
  induction ts as [|t ts IH] using rev_ind; intros Hall.
  - split; [apply Circuit_init_wf|]. by split_and!.
  - apply Forall_app in Hall as [Hts Ht%Forall_inv].
    destruct (IH Hts) as (Hwf & Hord & Hsize & Hw).
    rewrite fmap_app, acts_app. simpl.
    set (c := acts (ActAdd <$> ts) Circuit_init) in *.
    pose proof (editor_id_fresh c ts t Hwf Hord Hts Ht) as Hfresh.
    destruct (add_component_spec t c) as [_ H]. destruct (H Ht) as [_ H'].
    clear H. rewrite Hsize in H'.
    replace (length ts + 1)%nat with (S (length ts)) in H' by lia.
    destruct (H' Hfresh) as (n & Hid & Hty & _ & Ha & Hs).
    rewrite Ha. simpl. split; [by apply add_wf|]. rewrite Hs. simpl.
    split; [by rewrite Hord, editor_ids_snoc|].
    split; [|done].
    rewrite map_size_insert_None, length_app by done. simpl. lia.
Qed.

(** X17.  As long as components are only placed, the generated ids never
    collide: after placing components of registered types, in any number,
    the ids are the type names numbered 1, 2, ... in the order of placing,
    and placing one more returns. *)
Theorem add_component_fresh (ctypes : list string) (ctype : string) :
  Forall (λ t, is_Some (COMPONENT_REGISTRY !! t)) ctypes →
  is_Some (COMPONENT_REGISTRY !! ctype) →
  order (acts (ActAdd <$> ctypes) Circuit_init) = editor_ids ctypes ∧
  (add_component ctype (acts (ActAdd <$> ctypes) Circuit_init)).1 = None.
Proof.
  intros Hts Ht. destruct (placed_spec ctypes Hts) as (Hwf & Hord & Hsize & _).
  split; [done|].
  set (c := acts (ActAdd <$> ctypes) Circuit_init) in *.
  pose proof (editor_id_fresh c ctypes ctype Hwf Hord Hts Ht) as Hfresh.
  destruct (add_component_spec ctype c) as [_ H]. destruct (H Ht) as [_ H'].
  rewrite Hsize in H'.
  replace (length ctypes + 1)%nat with (S (length ctypes)) in H' by lia.
  destruct (H' Hfresh) as (n & _ & _ & _ & -> & _). done.
Qed.

Lemma add_component_fresh_witness :
  order (acts (ActAdd <$> ["Probe"; "TNOT"]) Circuit_init)
    = ["Probe_1"; "TNOT_2"] ∧
  (add_component "TNOT"
     (acts (ActAdd <$> ["Probe"; "TNOT"]) Circuit_init)).1 = None.
Proof.
  apply (add_component_fresh ["Probe"; "TNOT"] "TNOT").
  - repeat (apply Forall_cons; split; [by eexists|]). apply Forall_nil_2.
  - by eexists.
Defined.

(** X18.  After a deletion the generated id can be taken: placing two
    inverters, deleting the first and placing a third raises the
    duplicate-id [ValueError]; the circuit stays as the deletion left
    it. *)
Theorem add_component_after_delete :
  order (acts [ActAdd "TNOT"; ActAdd "TNOT"; ActDelete (Some "TNOT_1")]
           Circuit_init) = ["TNOT_2"] ∧
  add_component "TNOT"
    (acts [ActAdd "TNOT"; ActAdd "TNOT"; ActDelete (Some "TNOT_1")]
       Circuit_init) =
    (Some (Exn (ValueError "Duplicate component id TNOT_2")),
     acts [ActAdd "TNOT"; ActAdd "TNOT"; ActDelete (Some "TNOT_1")]
       Circuit_init).
Proof. split; by vm_compute. Qed.

Lemma filter_all {A} (P : A → Prop) `{!∀ x, Decision (P x)} (l : list A) :
  Forall P l → filter P l = l.
Proof.
  induction 1 as [|x l Hx _ IH]; [done|].
  by rewrite filter_cons_True, IH.
Qed.

(** X19.  [delete_selected] with a component selected removes its entry and
    exactly the wires that touch it, in a well-formed circuit; every wire
    that is left is as valid as it was, so a circuit on which [step]
    returned still steps after a deletion.  With nothing selected the
    circuit is as it was. *)
Theorem delete_selected_effect (c : Circuit) (cid : string) :
  wf c → cid ≠ "" →
  wf (delete_selected (Some cid) c) ∧
  components (delete_selected (Some cid) c) = delete cid (components c) ∧
  order (delete_selected (Some cid) c) = filter (λ k, k ≠ cid) (order c) ∧
  wires (delete_selected (Some cid) c) =
    filter (λ w, src_comp w ≠ cid ∧ dst_comp w ≠ cid) (wires c) ∧
  (∀ w, w ∈ wires (delete_selected (Some cid) c) →
        wire_valid (delete_selected (Some cid) c) w ↔ wire_valid c w) ∧
  ((∃ c1, step c = Ok () c1) →
   ∃ c2, step (delete_selected (Some cid) c) = Ok () c2) ∧
  delete_selected None c = c ∧ delete_selected (Some "") c = c.
Proof.
  intros Hwf Hne.
  pose proof (delete_selected_wf (Some cid) c Hwf) as Hwf'.
  pose proof (delete_selected_wires cid c Hne) as Hw.
  assert (∀ w, w ∈ wires (delete_selected (Some cid) c) →
            wire_valid (delete_selected (Some cid) c) w ↔ wire_valid c w)
    as Hvalid.
  { intros w Hin. rewrite Hw in Hin.
    apply list_elem_of_filter in Hin as [[Hs Hd] _].
    unfold wire_valid.
    rewrite !delete_selected_port by (intros [= ->]; done). done. }
  split; [done|]. split; [|split; [|split; [done|]]].
  - simpl. rewrite decide_False by done.
    destruct (decide (is_Some (components c !! cid))) as [Hin|Hin]; [done|].
    simpl. symmetry. apply delete_id.
    destruct (components c !! cid); [|done]. exfalso. by apply Hin.
  - simpl. rewrite decide_False by done.
    destruct (decide (is_Some (components c !! cid))) as [Hin|Hin]; [done|].
    simpl. symmetry. apply filter_all. apply Forall_forall.
    intros k Hk ->. by apply Hin, Hwf.
  - split; [done|]. split; [|done].
    rewrite <-!step_Ok_iff by done. intros Hall.
    apply Forall_forall. intros w Hin. apply Hvalid; [done|].
    apply (proj1 (Forall_forall _ _) Hall). rewrite Hw in Hin.
    by apply list_elem_of_filter in Hin as [_ ?].
Qed.

Lemma delete_selected_effect_witness :
  order (delete_selected (Some "n1") (calls chain_calls Circuit_init))
    = ["sw"; "n2"] ∧
  wires (delete_selected (Some "n1") (calls chain_calls Circuit_init)) = [] ∧
  ∃ c2, step (delete_selected (Some "n1") (calls chain_calls Circuit_init))
          = Ok () c2.
Proof.
  destruct (delete_selected_effect (calls chain_calls Circuit_init) "n1")
    as (_ & _ & Ho & Hw & _ & Hstep & _);
    [apply reachable_wf, chain_reachable | done |].
  split; [by rewrite Ho|]. split; [by rewrite Hw|].
  apply Hstep. eexists. by vm_compute.
Defined.





(** * The gates *)

(** X21.  The [step] methods of the gates, on a component with the ports of
    its class and any integers on them: the inverter writes the clamped
    negation of its input to its output, TAND the clamped minimum and
    TNOR the clamped negated maximum of its two inputs, the transistor
    the clamped sign when presence and sign are both not 0 and 0
    otherwise; the probe stores its input; the switches inherit the empty
    [Component.step].  None of them raises, and no input port is
    written. *)
Theorem gate_transfer (comp : Component) :
  comp_ok comp →
  (Component.cls comp = Cls.TNOT →
   ∃ x, comp_port comp "in" = Some x ∧
        Component_step comp = Ok () (write_port "out" (clamp_t (- x)) comp)) ∧
  (Component.cls comp = Cls.TAND →
   ∃ a b, comp_port comp "in1" = Some a ∧ comp_port comp "in2" = Some b ∧
          Component_step comp =
            Ok () (write_port "out" (clamp_t (Z.min a b)) comp)) ∧
  (Component.cls comp = Cls.TNOR →
   ∃ a b, comp_port comp "in1" = Some a ∧ comp_port comp "in2" = Some b ∧
          Component_step comp =
            Ok () (write_port "out" (clamp_t (- Z.max a b)) comp)) ∧
  (Component.cls comp = Cls.Transistor →
   ∃ p s, comp_port comp "presence" = Some p ∧
          comp_port comp "sign" = Some s ∧
          Component_step comp =
            Ok () (write_port "out"
                     (if decide (p = 0 ∨ s = 0) then 0 else clamp_t s)
                     comp)) ∧
  (∀ last, Component.cls comp = Cls.Probe last →
   ∃ v, comp_port comp "in" = Some v ∧
        Component_step comp = Ok () (Component.set_cls (Cls.Probe v) comp)) ∧
  (is_switch (Component.cls comp) → Component_step comp = Ok () comp).
Proof.
  intros Hok. split_and!.
  - intros Hcls.
    assert (is_Some (comp_port comp "in")) as [x Hx] by has_port Hok.
    assert (is_Some (comp_port comp "out")) as Hout by has_port Hok.
    exists x. split; [done|]. unfold Component_step. rewrite Hcls.
    by apply TNOT_step_Ok.
  - intros Hcls.
    assert (is_Some (comp_port comp "in1")) as [a Ha] by has_port Hok.
    assert (is_Some (comp_port comp "in2")) as [b Hb] by has_port Hok.
    assert (is_Some (comp_port comp "out")) as Hout by has_port Hok.
    exists a, b. split; [done|]. split; [done|].
    unfold Component_step. rewrite Hcls. by apply TAND_step_Ok.
  - intros Hcls.
    assert (is_Some (comp_port comp "in1")) as [a Ha] by has_port Hok.
    assert (is_Some (comp_port comp "in2")) as [b Hb] by has_port Hok.
    assert (is_Some (comp_port comp "out")) as Hout by has_port Hok.
    exists a, b. split; [done|]. split; [done|].
    unfold Component_step. rewrite Hcls. by apply TNOR_step_Ok.
  - intros Hcls.
    assert (is_Some (comp_port comp "presence")) as [p Hp] by has_port Hok.
    assert (is_Some (comp_port comp "sign")) as [s Hs] by has_port Hok.
    assert (is_Some (comp_port comp "out")) as Hout by has_port Hok.
    exists p, s. split; [done|]. split; [done|].
    unfold Component_step. rewrite Hcls.
    rewrite (Transistor_step_Ok comp p s) by done. do 2 f_equal.
    repeat case_decide; try done; try lia.
  - intros last Hcls.
    assert (is_Some (comp_port comp "in")) as [v Hv] by has_port Hok.
    exists v. split; [done|]. unfold Component_step. rewrite Hcls.
    by apply Probe_step_Ok.
  - intros Hsw. unfold Component_step.
    by destruct (Component.cls comp).
Qed.

Lemma gate_transfer_witness :
  Component_step (write_port "in1" 7 (TAND "g")) =
    Ok () (write_port "out" 0 (write_port "in1" 7 (TAND "g"))).
Proof.
  destruct (gate_transfer (write_port "in1" 7 (TAND "g"))) as (_ & H & _).
  - by vm_compute.
  - destruct H as (a & b & Ha & Hb & ->); [done|].
    vm_compute in Ha. vm_compute in Hb.
    injection Ha as <-. injection Hb as <-. done.
Defined.
